(** * Fee and config-cell utilities of the mintless-jetton test helpers

    A shallow embedding of the gas utilities module (gas, storage and
    forwarding fee formulas; parsing and rewriting of the price records of
    a workchain configuration cell; cell statistics) together with the
    part of the cell SDK ([@ton/core]: cells, slices, builders and
    dictionaries) these functions call.  The SDK is a dependency of the
    module; it is modelled here by what its operations do on bit strings,
    references and maps, exotic cells left out.

    JavaScript [bigint] and integral [number] are [Z]: [/] is [Z.quot]
    (truncation towards zero), [%] is [Z.rem] (sign of the dividend) and
    [>>] is [Z.shiftr] (arithmetic shift).  A [throw] is the [Throw]
    constructor of [Res]; [undefined] as a result is [None]. *)

From Stdlib Require Import String ZArith List Bool Lia Permutation Sorted.
Import ListNotations.

#[local] Set Warnings "-register-all".

Local Open Scope Z_scope.

(** ** Exceptions *)

Inductive Exn : Type :=
| Error (msg : string)      (* [throw new Error(msg)] and [throw Error(msg)] *)
| TypeError (msg : string). (* a property read on [undefined] *)

Inductive Res (A : Type) : Type :=
| Ok (a : A)
| Throw (e : Exn).

Arguments Ok {A} a.
Arguments Throw {A} e.

Definition bind {A B : Type} (m : Res A) (k : A -> Res B) : Res B :=
  match m with
  | Ok a => k a
  | Throw e => Throw e
  end.

Notation "x <- m ;; k" := (bind m (fun x => k))
  (at level 61, m at next level, right associativity).
Notation "' p <- m ;; k" := (bind m (fun x => let p := x in k))
  (at level 61, p pattern, m at next level, right associativity).

(** ** Records of the module *)

Record GasPrices : Type := mkGasPrices {
  flat_gas_limit : Z;
  flat_gas_price : Z;
  gas_price : Z
}.

Record StorageValue : Type := mkStorageValue {
  utime_sice : Z;
  bit_price_ps : Z;
  cell_price_ps : Z;
  mc_bit_price_ps : Z;
  mc_cell_price_ps : Z
}.

Record MsgPrices : Type := mkMsgPrices {
  lumpPrice : Z;
  bitPrice : Z;
  cellPrice : Z;
  ihrPriceFactor : Z;
  firstFrac : Z;
  nextFrac : Z
}.

Record StorageStats : Type := mkStorageStats {
  bits : Z;
  cells : Z
}.

(** [new StorageStats()] *)
Definition StorageStats_empty : StorageStats := mkStorageStats 0 0.

Record FullFees : Type := mkFullFees {
  total : Z;
  res : Z;
  remaining : Z
}.

(** ** Fee formulas *)

Definition shr16ceil (src : Z) : Z :=
  let rem := Z.rem src 65536 in
  let res := Z.quot src 65536 in
  if negb (rem =? 0) then res + 1 else res.

Definition calcStorageFee (prices : StorageValue) (stats : StorageStats)
    (duration : Z) : Z :=
  shr16ceil ((bits stats * bit_price_ps prices
              + cells stats * cell_price_ps prices) * duration).

Definition computeGasFee (prices : GasPrices) (gas : Z) : Z :=
  if gas <=? flat_gas_limit prices then flat_gas_price prices
  else flat_gas_price prices
       + Z.quot (gas_price prices * (gas - flat_gas_limit prices)) 65536.

Definition computeFwdFees (msgPrices : MsgPrices) (cells bits : Z) : Z :=
  lumpPrice msgPrices
  + shr16ceil (bitPrice msgPrices * bits + cellPrice msgPrices * cells).

Definition computeFwdFeesVerbose (msgPrices : MsgPrices) (cells bits : Z)
    : FullFees :=
  let fees := computeFwdFees msgPrices cells bits in
  let res := Z.shiftr (fees * firstFrac msgPrices) 16 in
  mkFullFees fees res (fees - res).

(** The storage fee is the ceiling of [x / 65536], the least [n] with
    [x <= 65536 * n], where [x] is the price of the cell tree over the
    duration. *)
Definition storage_fee_is_ceiling (prices : StorageValue)
    (stats : StorageStats) (duration : Z) : Prop :=
  let x := (bits stats * bit_price_ps prices
            + cells stats * cell_price_ps prices) * duration in
  let fee := calcStorageFee prices stats duration in
  x <= 65536 * fee /\ 65536 * (fee - 1) < x.

(** The split of a forwarding fee stays within the total. *)
Definition fwd_split_in_range (p : MsgPrices) (c b : Z) : Prop :=
  let f := computeFwdFeesVerbose p c b in
  (0 <= res f <= total f) /\ (0 <= remaining f <= total f).


(** ** Cells, slices and builders of the SDK

    A cell holds a bit string and references to other cells.  A [Slice] is
    the read cursor over the bits and references that remain to be read, a
    [Builder] the bits and references written so far.  Unsigned integers are
    stored big-endian on a fixed number of bits. *)

Inductive Cell : Type :=
| mkCell (cell_bits : list bool) (cell_refs : list Cell).

Definition cell_bits (c : Cell) : list bool :=
  match c with mkCell bs _ => bs end.

Definition cell_refs (c : Cell) : list Cell :=
  match c with mkCell _ rs => rs end.

Record Slice : Type := mkSlice {
  slice_bits : list bool;
  slice_refs : list Cell
}.

Record Builder : Type := mkBuilder {
  builder_bits : list bool;
  builder_refs : list Cell
}.

Definition uint_of_bits (bs : list bool) : Z :=
  fold_left (fun acc b => 2 * acc + Z.b2z b) bs 0.

Fixpoint bits_of_uint (n : nat) (v : Z) : list bool :=
  match n with
  | O => []
  | S k => Z.testbit v (Z.of_nat k) :: bits_of_uint k v
  end.

Definition index_out_of_bounds : Exn := Error "Index is out of bounds".

(** [cell.beginParse()] *)
Definition beginParse (c : Cell) : Slice :=
  mkSlice (cell_bits c) (cell_refs c).

(** [slice.preloadUint(n)] and [slice.preloadUintBig(n)]: read without
    advancing; reading past the end throws. *)
Definition preloadUintBig (s : Slice) (n : nat) : Res Z :=
  if (n <=? length (slice_bits s))%nat
  then Ok (uint_of_bits (firstn n (slice_bits s)))
  else Throw index_out_of_bounds.

(** [slice.skip(n)] *)
Definition skip (s : Slice) (n : nat) : Res Slice :=
  if (n <=? length (slice_bits s))%nat
  then Ok (mkSlice (skipn n (slice_bits s)) (slice_refs s))
  else Throw index_out_of_bounds.

(** [slice.loadUint(n)] and [slice.loadUintBig(n)]: the value read and
    the advanced slice. *)
Definition loadUintBig (s : Slice) (n : nat) : Res (Z * Slice) :=
  v <- preloadUintBig s n ;;
  s' <- skip s n ;;
  Ok (v, s').

Definition loadUint := loadUintBig.

(** [slice.loadBit()] *)
Definition loadBit (s : Slice) : Res (bool * Slice) :=
  match slice_bits s with
  | [] => Throw index_out_of_bounds
  | b :: bs => Ok (b, mkSlice bs (slice_refs s))
  end.

(** [slice.loadRef()] *)
Definition loadRef (s : Slice) : Res (Cell * Slice) :=
  match slice_refs s with
  | [] => Throw (Error "No more references")
  | c :: cs => Ok (c, mkSlice (slice_bits s) cs)
  end.

(** [beginCell()] *)
Definition beginCell : Builder := mkBuilder [] [].

(** A cell holds at most 1023 bits and 4 references; a write that would
    exceed either throws. *)
Definition storeBits (b : Builder) (bs : list bool) : Res Builder :=
  if (length (builder_bits b) + length bs <=? 1023)%nat
  then Ok (mkBuilder (builder_bits b ++ bs) (builder_refs b))
  else Throw (Error "BitBuilder overflow").

Definition storeBit (b : Builder) (x : bool) : Res Builder :=
  storeBits b [x].

(** [builder.storeUint(value, n)]: a value outside [0, 2^n) throws. *)
Definition storeUint (b : Builder) (value : Z) (n : nat) : Res Builder :=
  if (value <? 0) || (2 ^ Z.of_nat n <=? value)
  then Throw (Error "bitLength is too small for a value")
  else storeBits b (bits_of_uint n value).

(** [builder.storeRef(cell)] *)
Definition storeRef (b : Builder) (c : Cell) : Res Builder :=
  if (4 <=? length (builder_refs b))%nat
  then Throw (Error "Too many references")
  else Ok (mkBuilder (builder_bits b) (builder_refs b ++ [c])).

Fixpoint storeRefs (b : Builder) (cs : list Cell) : Res Builder :=
  match cs with
  | [] => Ok b
  | c :: cs' => b' <- storeRef b c ;; storeRefs b' cs'
  end.

(** [builder.storeSlice(slice)]: the remaining bits, then the remaining
    references. *)
Definition storeSlice (b : Builder) (s : Slice) : Res Builder :=
  b' <- storeBits b (slice_bits s) ;;
  storeRefs b' (slice_refs s).

(** [builder.endCell()] *)
Definition endCell (b : Builder) : Cell :=
  mkCell (builder_bits b) (builder_refs b).

(** ** Dictionaries of the SDK

    In memory a [Dictionary] is a JavaScript [Map]: an association list in
    insertion order with at most one entry per key. *)

Definition Dictionary (V : Type) : Type := list (Z * V).

Fixpoint Map_get {V : Type} (m : list (Z * V)) (k : Z) : option V :=
  match m with
  | [] => None
  | (k', v) :: m' => if k' =? k then Some v else Map_get m' k
  end.

(** [map.set(k, v)]: an existing key keeps its position, a new key is
    appended. *)
Fixpoint Map_set {V : Type} (m : list (Z * V)) (k : Z) (v : V)
    : list (Z * V) :=
  match m with
  | [] => [(k, v)]
  | (k', v') :: m' =>
      if k' =? k then (k, v) :: m' else (k', v') :: Map_set m' k v
  end.

Definition Dictionary_get {V : Type} (d : Dictionary V) (k : Z) : option V :=
  Map_get d k.

Definition Dictionary_set {V : Type} (d : Dictionary V) (k : Z) (v : V)
    : Dictionary V :=
  Map_set d k v.

Definition Dictionary_values {V : Type} (d : Dictionary V) : list V :=
  map snd d.

(** [array[i]]: [undefined] outside the array. *)
Definition Array_at {A : Type} (l : list A) (i : Z) : option A :=
  if i <? 0 then None else nth_error l (Z.to_nat i).

(** Key descriptors: the width, the unsigned image of a key (throwing when
    the key does not fit) and the key of an unsigned image. *)
Record DictionaryKey : Type := mkDictionaryKey {
  key_bits : nat;
  key_serialize : Z -> Res Z;
  key_parse : Z -> Z
}.

(** [Dictionary.Keys.Int(n)]: two's complement. *)
Definition Keys_Int (n : nat) : DictionaryKey :=
  mkDictionaryKey n
    (fun src =>
       if (src <? - 2 ^ (Z.of_nat n - 1)) || (2 ^ (Z.of_nat n - 1) <=? src)
       then Throw (Error "value is out of range")
       else Ok (src mod 2 ^ Z.of_nat n))
    (fun u => if u <? 2 ^ (Z.of_nat n - 1) then u else u - 2 ^ Z.of_nat n).

(** [Dictionary.Keys.Uint(n)] *)
Definition Keys_Uint (n : nat) : DictionaryKey :=
  mkDictionaryKey n
    (fun src =>
       if (src <? 0) || (2 ^ Z.of_nat n <=? src)
       then Throw (Error "bitLength is too small for a value")
       else Ok src)
    (fun u => u).

(** Value descriptors, as the [DictionaryValue<V>] interface. *)
Record DictionaryValue (V : Type) : Type := mkDictionaryValue {
  serialize : V -> Builder -> Res Builder;
  parse : Slice -> Res V
}.

Arguments mkDictionaryValue {V} serialize parse.
Arguments serialize {V} d src builder.
Arguments parse {V} d src.

(** [Dictionary.Values.Cell()]: the value is stored as a reference. *)
Definition Values_Cell : DictionaryValue Cell :=
  mkDictionaryValue
    (fun src builder => storeRef builder src)
    (fun src => '(c, _) <- loadRef src ;; Ok c).

(** ** Wire format of a dictionary

    A dictionary with [n]-bit keys is stored as a binary trie (the
    [Hashmap n X] layout): every edge carries a label, the longest common
    prefix of the keys below it, written in the shortest of three
    encodings; a fork stores its two children as references, a leaf stores
    the value after the label.  In the trie of this model the keys of a
    sub-map are kept without the prefix already consumed. *)

Inductive Edge (V : Type) : Type :=
| ELeaf (label : list bool) (value : V)
| EFork (label : list bool) (left right : Edge V).

Arguments ELeaf {V} label value.
Arguments EFork {V} label left right.

(** [Math.ceil(Math.log2(n + 1))] *)
Definition lenBits (n : nat) : nat :=
  Z.to_nat (Z.log2_up (Z.of_nat n + 1)).

Fixpoint commonPrefix (a b : list bool) : list bool :=
  match a, b with
  | x :: a', y :: b' => if Bool.eqb x y then x :: commonPrefix a' b' else []
  | _, _ => []
  end.

Definition findCommonPrefix (src : list (list bool)) : list bool :=
  match src with
  | [] => []
  | k :: ks => fold_left commonPrefix ks k
  end.

Definition removePrefixMap {V : Type} (src : list (list bool * V))
    (len : nat) : list (list bool * V) :=
  map (fun kv => (skipn len (fst kv), snd kv)) src.

Definition startsWith0 (k : list bool) : bool :=
  match k with
  | false :: _ => true
  | _ => false
  end.

Definition inconsistency : Exn := Error "Internal inconsistency".

(** [buildEdge] with [buildNode] and [forkMap] inlined.  Every call
    consumes at least one key bit at a fork, so [fuel] above the key length
    is never exhausted. *)
Fixpoint buildEdge {V : Type} (fuel : nat) (src : list (list bool * V))
    : Res (Edge V) :=
  match fuel with
  | O => Throw inconsistency
  | S fuel' =>
      match src with
      | [] => Throw inconsistency
      | _ =>
          let label := findCommonPrefix (map fst src) in
          let src' := removePrefixMap src (length label) in
          match src' with
          | [(_, v)] => Ok (ELeaf label v)
          | _ =>
              let left := filter (fun kv => startsWith0 (fst kv)) src' in
              let right :=
                filter (fun kv => negb (startsWith0 (fst kv))) src' in
              match left, right with
              | [], _ | _, [] => Throw inconsistency
              | _, _ =>
                  l <- buildEdge fuel' (removePrefixMap left 1) ;;
                  r <- buildEdge fuel' (removePrefixMap right 1) ;;
                  Ok (EFork label l r)
              end
          end
      end
  end.

(** [buildTree]: the keys become bit strings of the key length. *)
Definition buildTree {V : Type} (src : list (Z * V)) (keyLength : nat)
    : Res (Edge V) :=
  buildEdge (S keyLength)
    (map (fun kv => (bits_of_uint keyLength (fst kv), snd kv)) src).

Inductive LabelKind : Type := short | long | same.

Definition isSame (src : list bool) : bool :=
  match src with
  | [] => true
  | b :: bs => forallb (Bool.eqb b) bs
  end.

Definition labelShortLength (src : list bool) : nat :=
  (1 + length src + 1 + length src)%nat.

Definition labelLongLength (src : list bool) (keyLength : nat) : nat :=
  (1 + 1 + lenBits keyLength + length src)%nat.

Definition labelSameLength (keyLength : nat) : nat :=
  (1 + 1 + 1 + lenBits keyLength)%nat.

Definition detectLabelType (src : list bool) (keyLength : nat) : LabelKind :=
  let kind := short in
  let kindLength := labelShortLength src in
  let longLength := labelLongLength src keyLength in
  let '(kind, kindLength) :=
    if (longLength <? kindLength)%nat then (long, longLength)
    else (kind, kindLength) in
  if isSame src
  then if (labelSameLength keyLength <? kindLength)%nat then same else kind
  else kind.

Definition writeLabelShort (src : list bool) (to : Builder) : Res Builder :=
  to <- storeBit to false ;;
  to <- storeBits to (repeat true (length src)) ;;
  to <- storeBit to false ;;
  storeBits to src.

Definition writeLabelLong (src : list bool) (keyLength : nat) (to : Builder)
    : Res Builder :=
  to <- storeBit to true ;;
  to <- storeBit to false ;;
  to <- storeUint to (Z.of_nat (length src)) (lenBits keyLength) ;;
  storeBits to src.

Definition writeLabelSame (value : bool) (len : nat) (keyLength : nat)
    (to : Builder) : Res Builder :=
  to <- storeBit to true ;;
  to <- storeBit to true ;;
  to <- storeBit to value ;;
  storeUint to (Z.of_nat len) (lenBits keyLength).

Definition writeLabel (src : list bool) (keyLength : nat) (to : Builder)
    : Res Builder :=
  match detectLabelType src keyLength with
  | short => writeLabelShort src to
  | long => writeLabelLong src keyLength to
  | same => writeLabelSame (hd false src) (length src) keyLength to
  end.

Fixpoint writeEdge {V : Type} (src : Edge V) (keyLength : nat)
    (serializer : V -> Builder -> Res Builder) (to : Builder)
    : Res Builder :=
  match src with
  | ELeaf label v =>
      to <- writeLabel label keyLength to ;;
      serializer v to
  | EFork label l r =>
      to <- writeLabel label keyLength to ;;
      leftCell <-
        writeEdge l (keyLength - length label - 1) serializer beginCell ;;
      rightCell <-
        writeEdge r (keyLength - length label - 1) serializer beginCell ;;
      to <- storeRef to (endCell leftCell) ;;
      storeRef to (endCell rightCell)
  end.

Definition serializeDict {V : Type} (src : list (Z * V)) (keyLength : nat)
    (serializer : V -> Builder -> Res Builder) (to : Builder)
    : Res Builder :=
  tree <- buildTree src keyLength ;;
  writeEdge tree keyLength serializer to.

(** [readUnaryLength]: count the one bits up to the first zero bit. *)
Fixpoint readUnaryLength_bits (bs : list bool) : Res (nat * list bool) :=
  match bs with
  | [] => Throw index_out_of_bounds
  | false :: bs' => Ok (O, bs')
  | true :: bs' =>
      '(n, rest) <- readUnaryLength_bits bs' ;; Ok (S n, rest)
  end.

Definition readUnaryLength (s : Slice) : Res (nat * Slice) :=
  '(n, rest) <- readUnaryLength_bits (slice_bits s) ;;
  Ok (n, mkSlice rest (slice_refs s)).

(** [slice.loadBits(n)] *)
Definition loadBits (s : Slice) (n : nat) : Res (list bool * Slice) :=
  if (n <=? length (slice_bits s))%nat
  then Ok (firstn n (slice_bits s),
           mkSlice (skipn n (slice_bits s)) (slice_refs s))
  else Throw index_out_of_bounds.

(** The label at the head of an edge with [n] key bits left. *)
Definition readLabel (s : Slice) (n : nat) : Res (list bool * Slice) :=
  '(lb0, s) <- loadBit s ;;
  if negb lb0 then
    '(prefixLength, s) <- readUnaryLength s ;;
    loadBits s prefixLength
  else
    '(lb1, s) <- loadBit s ;;
    if negb lb1 then
      '(prefixLength, s) <- loadUint s (lenBits n) ;;
      loadBits s (Z.to_nat prefixLength)
    else
      '(bit, s) <- loadBit s ;;
      '(prefixLength, s) <- loadUint s (lenBits n) ;;
      Ok (repeat bit (Z.to_nat prefixLength), s).

(** [doParse]: [res] is the map filled during the traversal.  A label
    longer than the key bits left never reaches a leaf and ends in a read
    past the end of some cell; the model throws at once.  Every fork
    consumes a key bit, so [fuel] above [n] is never exhausted. *)
Fixpoint doParse {V : Type} (fuel : nat) (prefix : list bool) (s : Slice)
    (n : nat) (res : list (Z * V)) (extractor : Slice -> Res V)
    : Res (list (Z * V)) :=
  match fuel with
  | O => Throw index_out_of_bounds
  | S fuel' =>
      '(label, s) <- readLabel s n ;;
      let pp := prefix ++ label in
      if (n <? length label)%nat then Throw index_out_of_bounds
      else if (n - length label =? 0)%nat then
        v <- extractor s ;;
        Ok (Map_set res (uint_of_bits pp) v)
      else
        '(l, s) <- loadRef s ;;
        '(r, s) <- loadRef s ;;
        res <- doParse fuel' (pp ++ [false]) (beginParse l)
                 (n - length label - 1) res extractor ;;
        doParse fuel' (pp ++ [true]) (beginParse r)
          (n - length label - 1) res extractor
  end.

Definition parseDict {V : Type} (sc : Slice) (keySize : nat)
    (extractor : Slice -> Res V) : Res (list (Z * V)) :=
  doParse (S keySize) [] sc keySize [] extractor.

(** [Dictionary.loadDirect(key, value, sc)]: a missing [sc] gives the
    empty dictionary. *)
Definition Dictionary_loadDirect {V : Type} (key : DictionaryKey)
    (value : DictionaryValue V) (sc : option Slice) : Res (Dictionary V) :=
  match sc with
  | None => Ok []
  | Some slice =>
      values <- parseDict slice (key_bits key) (parse value) ;;
      Ok (fold_left
            (fun prepare kv =>
               Map_set prepare (key_parse key (fst kv)) (snd kv))
            values [])
  end.

(** [slice.loadDictDirect(key, value)] *)
Definition loadDictDirect {V : Type} (s : Slice) (key : DictionaryKey)
    (value : DictionaryValue V) : Res (Dictionary V) :=
  Dictionary_loadDirect key value (Some s).

Fixpoint prepareKeys {V : Type} (key : DictionaryKey) (d : list (Z * V))
    (prepared : list (Z * V)) : Res (list (Z * V)) :=
  match d with
  | [] => Ok prepared
  | (k, v) :: d' =>
      k' <- key_serialize key k ;;
      prepareKeys key d' (Map_set prepared k' v)
  end.

(** [builder.storeDictDirect(dict)]: an empty dictionary cannot be stored
    directly. *)
Definition storeDictDirect {V : Type} (builder : Builder)
    (key : DictionaryKey) (value : DictionaryValue V) (dict : Dictionary V)
    : Res Builder :=
  match dict with
  | [] => Throw (Error "Cannot store empty dictionary directly")
  | _ =>
      prepared <- prepareKeys key dict [] ;;
      serializeDict prepared (key_bits key) (serialize value) builder
  end.

(** *** What the codec writes *)

(** The bits of a label on an edge with [keyLength] key bits left. *)
Definition label_bits (src : list bool) (keyLength : nat) : list bool :=
  match detectLabelType src keyLength with
  | short => [false] ++ repeat true (length src) ++ [false] ++ src
  | long =>
      [true; false]
      ++ bits_of_uint (lenBits keyLength) (Z.of_nat (length src)) ++ src
  | same =>
      [true; true; hd false src]
      ++ bits_of_uint (lenBits keyLength) (Z.of_nat (length src))
  end.

(** An edge over [n] key bits: the labels along every path to a leaf,
    with one bit per fork, add up to [n]. *)
Fixpoint edge_wf {V : Type} (n : nat) (e : Edge V) : Prop :=
  match e with
  | ELeaf label _ => length label = n
  | EFork label l r =>
      (length label < n)%nat
      /\ edge_wf (n - length label - 1) l
      /\ edge_wf (n - length label - 1) r
  end.

(** The keys and values at the leaves, from left to right; [prefix] is the
    path down to the edge. *)
Fixpoint entries {V : Type} (e : Edge V) (prefix : list bool)
    : list (list bool * V) :=
  match e with
  | ELeaf label v => [(prefix ++ label, v)]
  | EFork label l r =>
      entries l ((prefix ++ label) ++ [false])
      ++ entries r ((prefix ++ label) ++ [true])
  end.

Fixpoint edge_values {V : Type} (e : Edge V) : list V :=
  match e with
  | ELeaf _ v => [v]
  | EFork _ l r => edge_values l ++ edge_values r
  end.

(** The map filled by [doParse] from the leaves [es], set in order. *)
Definition fill {V : Type} (res : list (Z * V))
    (es : list (list bool * V)) : list (Z * V) :=
  fold_left (fun m kv => Map_set m (uint_of_bits (fst kv)) (snd kv)) es res.

(** The value [v] can be stored at a leaf of a dictionary with [n]-bit
    keys and is read back as it was written: the serializer appends some
    bits [vb] and references [vr] that fit the cell next to the label, and
    the parser returns [v] from them. *)
Definition value_fits {V : Type} (value : DictionaryValue V) (n : nat)
    (v : V) : Prop :=
  exists vb vr,
    (length vb + (2 + lenBits n + n) <= 1023)%nat
    /\ (forall bs, (length bs + length vb <= 1023)%nat ->
          serialize value v (mkBuilder bs [])
          = Ok (mkBuilder (bs ++ vb) vr))
    /\ parse value (mkSlice vb vr) = Ok v.

(** The key [k] is one that [key] can store and that reads back as [k]. *)
Definition key_fits (key : DictionaryKey) (k : Z) : Prop :=
  exists u, key_serialize key k = Ok u
            /\ 0 <= u < 2 ^ Z.of_nat (key_bits key)
            /\ key_parse key u = k.

(** The unsigned image of a key, [0] for a key that cannot be stored. *)
Definition key_image (key : DictionaryKey) (k : Z) : Z :=
  match key_serialize key k with
  | Ok u => u
  | Throw _ => 0
  end.

(** ** The gas utilities module *)

(** [collectCellStats]: [visited] is the caller's array, mutated in place
    and shared by the recursive calls; it is threaded through and returned
    with the statistics.  [hash] stands for [cell.hash().toString()] and
    [H_eqb] for the comparison made by [visited.includes]. *)
Section CollectCellStats.

Variable H : Type.
Variable H_eqb : H -> H -> bool.
Variable hash : Cell -> H.

Definition includes (visited : list H) (h : H) : bool :=
  existsb (H_eqb h) visited.

Fixpoint collectCellStats (cell : Cell) (visited : list H)
    (skipRoot : bool) : StorageStats * list H :=
  match cell with
  | mkCell cbits crefs =>
      let nbits := if skipRoot then 0 else Z.of_nat (length cbits) in
      let ncells := if skipRoot then 0 else 1 in
      let h := hash cell in
      if includes visited h then (StorageStats_empty, visited)
      else
        let visited := visited ++ [h] in
        (fix loop (refs : list Cell) (nbits ncells : Z) (visited : list H)
           : StorageStats * list H :=
           match refs with
           | [] => (mkStorageStats nbits ncells, visited)
           | ref :: refs' =>
               let '(r, visited) := collectCellStats ref visited false in
               loop refs' (nbits + bits r) (ncells + cells r) visited
           end) crefs nbits ncells visited
  end.

End CollectCellStats.

Arguments includes {H} H_eqb visited h.
Arguments collectCellStats {H} H_eqb hash cell visited skipRoot.

(** A method call on [undefined], the result of [config.get(k)!] for a key
    that is absent. *)
Definition undefined_read : Exn :=
  TypeError "Cannot read properties of undefined".

Definition getGasPrices (configRaw : Cell) (workchain : Z) : Res GasPrices :=
  config <- loadDictDirect (beginParse configRaw) (Keys_Int 32) Values_Cell ;;
  match Dictionary_get config (21 + workchain) with
  | None => Throw undefined_read
  | Some c =>
      let ds := beginParse c in
      '(tag, ds) <- loadUint ds 8 ;;
      if negb (tag =? 0xd1) then Throw (Error "Invalid flat gas prices tag!")
      else
        '(flat_gas_limit, ds) <- loadUintBig ds 64 ;;
        '(flat_gas_price, ds) <- loadUintBig ds 64 ;;
        '(tag, ds) <- loadUint ds 8 ;;
        if negb (tag =? 0xde) then Throw (Error "Invalid gas prices tag!")
        else
          gas_price <- preloadUintBig ds 64 ;;
          Ok (mkGasPrices flat_gas_limit flat_gas_price gas_price)
  end.

Definition setGasPrice (configRaw : Cell) (prices : GasPrices)
    (workchain : Z) : Res Cell :=
  config <- loadDictDirect (beginParse configRaw) (Keys_Int 32) Values_Cell ;;
  let idx := 21 + workchain in
  match Dictionary_get config idx with
  | None => Throw undefined_read
  | Some ds =>
      tail <- skip (beginParse ds) (8 + 64 + 64 + 8 + 64) ;;
      b <- storeUint beginCell 0xd1 8 ;;
      b <- storeUint b (flat_gas_limit prices) 64 ;;
      b <- storeUint b (flat_gas_price prices) 64 ;;
      b <- storeUint b 0xde 8 ;;
      b <- storeUint b (gas_price prices) 64 ;;
      b <- storeSlice b tail ;;
      let newPrices := endCell b in
      let config := Dictionary_set config idx newPrices in
      b <- storeDictDirect beginCell (Keys_Int 32) Values_Cell config ;;
      Ok (endCell b)
  end.

Definition storageValue : DictionaryValue StorageValue :=
  mkDictionaryValue
    (fun src builder =>
       b <- storeUint builder 0xcc 8 ;;
       b <- storeUint b (utime_sice src) 32 ;;
       b <- storeUint b (bit_price_ps src) 64 ;;
       b <- storeUint b (cell_price_ps src) 64 ;;
       b <- storeUint b (mc_bit_price_ps src) 64 ;;
       storeUint b (mc_cell_price_ps src) 64)
    (fun src =>
       src <- skip src 8 ;;
       '(utime_sice, src) <- loadUint src 32 ;;
       '(bit_price_ps, src) <- loadUintBig src 64 ;;
       '(cell_price_ps, src) <- loadUintBig src 64 ;;
       '(mc_bit_price_ps, src) <- loadUintBig src 64 ;;
       '(mc_cell_price_ps, src) <- loadUintBig src 64 ;;
       Ok (mkStorageValue utime_sice bit_price_ps cell_price_ps
             mc_bit_price_ps mc_cell_price_ps)).

(** [getStoragePrices]: the result is [values[values.length - 1]], which
    is [undefined] ([None]) for an empty array. *)
Definition getStoragePrices (configRaw : Cell) : Res (option StorageValue) :=
  config <- loadDictDirect (beginParse configRaw) (Keys_Int 32) Values_Cell ;;
  storageData <-
    Dictionary_loadDirect (Keys_Uint 32) storageValue
      (option_map beginParse (Dictionary_get config 18)) ;;
  let values := Dictionary_values storageData in
  Ok (Array_at values (Z.of_nat (length values) - 1)).

Definition setStoragePrices (configRaw : Cell) (prices : StorageValue)
    : Res Cell :=
  config <- loadDictDirect (beginParse configRaw) (Keys_Int 32) Values_Cell ;;
  storageData <-
    Dictionary_loadDirect (Keys_Uint 32) storageValue
      (option_map beginParse (Dictionary_get config 18)) ;;
  let storageData :=
    Dictionary_set storageData
      (Z.of_nat (length (Dictionary_values storageData)) - 1) prices in
  b <- storeDictDirect beginCell (Keys_Uint 32) storageValue storageData ;;
  let config := Dictionary_set config 18 (endCell b) in
  b <- storeDictDirect beginCell (Keys_Int 32) Values_Cell config ;;
  Ok (endCell b).

Definition configParseMsgPrices (sc : Slice) : Res MsgPrices :=
  '(magic, sc) <- loadUint sc 8 ;;
  if negb (magic =? 0xea)
  then Throw (Error "Invalid message prices magic number!")
  else
    '(lumpPrice, sc) <- loadUintBig sc 64 ;;
    '(bitPrice, sc) <- loadUintBig sc 64 ;;
    '(cellPrice, sc) <- loadUintBig sc 64 ;;
    '(ihrPriceFactor, sc) <- loadUintBig sc 32 ;;
    '(firstFrac, sc) <- loadUintBig sc 16 ;;
    '(nextFrac, sc) <- loadUintBig sc 16 ;;
    Ok (mkMsgPrices lumpPrice bitPrice cellPrice ihrPriceFactor firstFrac
          nextFrac).

Definition setMsgPrices (configRaw : Cell) (prices : MsgPrices)
    (workchain : Z) : Res Cell :=
  config <- loadDictDirect (beginParse configRaw) (Keys_Int 32) Values_Cell ;;
  b <- storeUint beginCell 0xea 8 ;;
  b <- storeUint b (lumpPrice prices) 64 ;;
  b <- storeUint b (bitPrice prices) 64 ;;
  b <- storeUint b (cellPrice prices) 64 ;;
  b <- storeUint b (ihrPriceFactor prices) 32 ;;
  b <- storeUint b (firstFrac prices) 16 ;;
  b <- storeUint b (nextFrac prices) 16 ;;
  let priceCell := endCell b in
  let config := Dictionary_set config (25 + workchain) priceCell in
  b <- storeDictDirect beginCell (Keys_Int 32) Values_Cell config ;;
  Ok (endCell b).

Definition getMsgPrices (configRaw : Cell) (workchain : Z) : Res MsgPrices :=
  config <- loadDictDirect (beginParse configRaw) (Keys_Int 32) Values_Cell ;;
  match Dictionary_get config (25 + workchain) with
  | None => Throw (Error "No prices defined in config")
  | Some prices => configParseMsgPrices (beginParse prices)
  end.

(** ** Sample cells *)

Definition gasRecord (p : GasPrices) (tail : list bool) (refs : list Cell)
    : Cell :=
  mkCell (bits_of_uint 8 0xd1 ++ bits_of_uint 64 (flat_gas_limit p)
          ++ bits_of_uint 64 (flat_gas_price p) ++ bits_of_uint 8 0xde
          ++ bits_of_uint 64 (gas_price p) ++ tail) refs.

Definition storeConfig (d : Dictionary Cell) : Res Cell :=
  b <- storeDictDirect beginCell (Keys_Int 32) Values_Cell d ;; Ok (endCell b).

Definition storeStorageDict (d : Dictionary StorageValue) : Res Cell :=
  b <- storeDictDirect beginCell (Keys_Uint 32) storageValue d ;;
  Ok (endCell b).

(** ** Valid records: every field fits the width it is stored on *)

Definition valid_GasPrices (p : GasPrices) : Prop :=
  0 <= flat_gas_limit p < 2 ^ 64
  /\ 0 <= flat_gas_price p < 2 ^ 64
  /\ 0 <= gas_price p < 2 ^ 64.

Definition valid_StorageValue (p : StorageValue) : Prop :=
  0 <= utime_sice p < 2 ^ 32
  /\ 0 <= bit_price_ps p < 2 ^ 64
  /\ 0 <= cell_price_ps p < 2 ^ 64
  /\ 0 <= mc_bit_price_ps p < 2 ^ 64
  /\ 0 <= mc_cell_price_ps p < 2 ^ 64.

Definition valid_MsgPrices (p : MsgPrices) : Prop :=
  0 <= lumpPrice p < 2 ^ 64
  /\ 0 <= bitPrice p < 2 ^ 64
  /\ 0 <= cellPrice p < 2 ^ 64
  /\ 0 <= ihrPriceFactor p < 2 ^ 32
  /\ 0 <= firstFrac p < 2 ^ 16
  /\ 0 <= nextFrac p < 2 ^ 16.

(** The cell written by [setMsgPrices]. *)
Definition msgRecord (p : MsgPrices) : Cell :=
  mkCell (bits_of_uint 8 0xea ++ bits_of_uint 64 (lumpPrice p)
          ++ bits_of_uint 64 (bitPrice p) ++ bits_of_uint 64 (cellPrice p)
          ++ bits_of_uint 32 (ihrPriceFactor p)
          ++ bits_of_uint 16 (firstFrac p)
          ++ bits_of_uint 16 (nextFrac p)) [].

(** The workchains: the basechain [0] and the masterchain [-1]. *)
Definition is_workchain (w : Z) : Prop := w = 0 \/ w = -1.

(** A configuration with gas prices for both workchains (the basechain
    record with trailing bits and a reference), storage prices and message
    prices for the basechain.  The entries are listed in the order of the
    trie, which is the order they are loaded in. *)
Definition sampleGas : GasPrices := mkGasPrices 100 1000000 65536000.

Definition sampleStorage : Dictionary StorageValue :=
  [(0, mkStorageValue 0 1 500 0 0); (1, mkStorageValue 1700000000 2 600 3 700)].

Definition sampleMsg : MsgPrices :=
  mkMsgPrices 400000 26214400 2621440000 98304 21845 21845.

Definition cell_or_empty (r : Res Cell) : Cell :=
  match r with
  | Ok c => c
  | Throw _ => mkCell [] []
  end.

Definition sampleEntries : Dictionary Cell :=
  [(18, cell_or_empty (storeStorageDict sampleStorage));
   (20, gasRecord sampleGas [] []);
   (21, gasRecord sampleGas [true; false; true] [mkCell [true] []]);
   (25, msgRecord sampleMsg)].

Definition sampleConfig : Cell := cell_or_empty (storeConfig sampleEntries).

(** The bits of the fields of a storage price record, after the tag. *)
Definition storageFields (v : StorageValue) : list bool :=
  bits_of_uint 32 (utime_sice v) ++ bits_of_uint 64 (bit_price_ps v)
  ++ bits_of_uint 64 (cell_price_ps v) ++ bits_of_uint 64 (mc_bit_price_ps v)
  ++ bits_of_uint 64 (mc_cell_price_ps v).

(** A configuration whose storage prices are keyed by [5] alone. *)
Definition sparseStorage : Dictionary StorageValue :=
  [(5, mkStorageValue 0 1 500 0 0)].

Definition sparseConfig : Cell :=
  cell_or_empty
    (storeConfig
       [(18, cell_or_empty (storeStorageDict sparseStorage));
        (21, gasRecord sampleGas [] [])]).

(** A configuration without the key [18]. *)
Definition noStorageConfig : Cell :=
  cell_or_empty
    (storeConfig [(20, gasRecord sampleGas [] []);
                  (21, gasRecord sampleGas [] [])]).

(** ** Cell trees *)

Fixpoint cell_size (c : Cell) : nat :=
  match c with
  | mkCell _ refs => S (list_sum (map cell_size refs))
  end.

(** The cell and every cell below it, one entry per position. *)
Fixpoint subcells (c : Cell) : list Cell :=
  match c with
  | mkCell _ refs => c :: flat_map subcells refs
  end.

Definition total_bits (l : list Cell) : Z :=
  fold_right (fun c acc => Z.of_nat (length (cell_bits c)) + acc) 0 l.

(** The statistics of a list of cells, each counted once. *)
Definition stats_of (l : list Cell) : StorageStats :=
  mkStorageStats (total_bits l) (Z.of_nat (length l)).

(** The loop of [collectCellStats] over the references of a cell, for a
    given recursive call. *)
Definition collectRefsWith {H : Type}
    (rec : Cell -> list H -> StorageStats * list H)
    : list Cell -> Z -> Z -> list H -> StorageStats * list H :=
  fix loop (refs : list Cell) (nbits ncells : Z) (visited : list H) :=
    match refs with
    | [] => (mkStorageStats nbits ncells, visited)
    | ref :: refs' =>
        let '(r, visited) := rec ref visited in
        loop refs' (nbits + bits r) (ncells + cells r) visited
    end.

(** [f] obeys the recursion of [collectCellStats], visiting the references
    of every cell in the order [order] puts them in. *)
Definition traverses_in_order {H : Type} (H_eqb : H -> H -> bool)
    (hash : Cell -> H) (order : list Cell -> list Cell)
    (f : Cell -> list H -> bool -> StorageStats * list H) : Prop :=
  forall (cell : Cell) (visited : list H) (skipRoot : bool),
    f cell visited skipRoot
    = let nbits :=
        if skipRoot then 0 else Z.of_nat (length (cell_bits cell)) in
      let ncells := if skipRoot then 0 else 1 in
      if includes H_eqb visited (hash cell) then (StorageStats_empty, visited)
      else collectRefsWith (fun ref v => f ref v false)
             (order (cell_refs cell)) nbits ncells
             (visited ++ [hash cell]).

(** Every cell already visited either has all the cells below it visited
    or is larger than [n]: the state of [visited] when the traversal
    enters a cell of size [n]. *)
Definition closed_or_big {H : Type} (hash : Cell -> H) (visited : list H)
    (n : nat) : Prop :=
  forall x, In (hash x) visited ->
    (forall y, In y (subcells x) -> In (hash y) visited)
    \/ (n < cell_size x)%nat.

(** [collectCellStats] with the references of every cell visited from the
    last to the first. *)
Fixpoint collectCellStats_rev {H : Type} (H_eqb : H -> H -> bool)
    (hash : Cell -> H) (cell : Cell) (visited : list H) (skipRoot : bool)
    : StorageStats * list H :=
  match cell with
  | mkCell cbits crefs =>
      let nbits := if skipRoot then 0 else Z.of_nat (length cbits) in
      let ncells := if skipRoot then 0 else 1 in
      let h := hash cell in
      if includes H_eqb visited h then (StorageStats_empty, visited)
      else
        (fix loop (refs : list Cell) (visited : list H)
           : StorageStats * list H :=
           match refs with
           | [] => (mkStorageStats nbits ncells, visited)
           | ref :: refs' =>
               let '(acc, visited) := loop refs' visited in
               let '(r, visited) :=
                 collectCellStats_rev H_eqb hash ref visited false in
               (mkStorageStats (bits acc + bits r) (cells acc + cells r),
                visited)
           end) crefs (visited ++ [h])
  end.

(** Structural equality of cells: a content hash without collisions. *)
Fixpoint Cell_eqb (a b : Cell) : bool :=
  match a, b with
  | mkCell ba ra, mkCell bb rb =>
      (if list_eq_dec Bool.bool_dec ba bb then true else false)
      && (fix go (ra rb : list Cell) : bool :=
            match ra, rb with
            | [], [] => true
            | x :: ra', y :: rb' => Cell_eqb x y && go ra' rb'
            | _, _ => false
            end) ra rb
  end.

(** A tree whose two branches share the subtree [sharedCell]. *)
Definition sharedCell : Cell :=
  mkCell [true; false; true] [mkCell [true] []].

Definition sharingTree : Cell :=
  mkCell [false]
    [mkCell [true; true] [sharedCell]; mkCell [false; false] [sharedCell]].

(** * The jetton minter wrapper and the message helpers

    The second module builds and reads the data cell of the minter and the
    bodies of the messages sent to it.  It calls more of the SDK: signed
    integers, coins, addresses and optional references. *)

(** ** More of the SDK *)

(** [builder.storeInt(value, n)]: two's complement, the sign bit first. *)
Definition storeInt (b : Builder) (value : Z) (n : nat) : Res Builder :=
  match n with
  | O =>
      if value =? 0 then Ok b
      else Throw (Error "value is not zero for 0 bits")
  | S O =>
      if (value =? -1) || (value =? 0) then storeBit b (value =? -1)
      else Throw (Error "value is not zero or -1 for 1 bit")
  | S m =>
      let vBits := 2 ^ Z.of_nat m in
      if (value <? - vBits) || (vBits <=? value)
      then Throw (Error "value is out of range")
      else
        b <- storeBit b (value <? 0) ;;
        storeUint b (if value <? 0 then vBits + value else value) m
  end.

(** [slice.loadInt(n)] *)
Definition loadInt (s : Slice) (n : nat) : Res (Z * Slice) :=
  match n with
  | O => Ok (0, s)
  | S m =>
      '(sign, s) <- loadBit s ;;
      '(v, s) <- loadUintBig s m ;;
      Ok (if sign : bool then v - 2 ^ Z.of_nat m else v, s)
  end.

(** [builder.storeCoins(amount)] is [writeVarUint(amount, 4)]: the number
    of bytes of the amount on four bits, then the amount on that many
    bytes; zero is stored as the size zero.  The size of a positive amount
    is [Math.ceil(v.toString(2).length / 8)]. *)
Definition storeVarUint (b : Builder) (value : Z) (bits : nat)
    : Res Builder :=
  if value <? 0 then Throw (Error "value is negative")
  else if value =? 0 then storeUint b 0 bits
  else
    let sizeBytes := (Z.log2 value + 1 + 7) / 8 in
    b <- storeUint b sizeBytes bits ;;
    storeUint b value (Z.to_nat (sizeBytes * 8)).

Definition storeCoins (b : Builder) (amount : Z) : Res Builder :=
  storeVarUint b amount 4.

(** [slice.loadCoins()] is [loadVarUintBig(4)]. *)
Definition loadVarUintBig (s : Slice) (bits : nat) : Res (Z * Slice) :=
  '(size, s) <- loadUint s bits ;;
  loadUintBig s (Z.to_nat (size * 8)).

Definition loadCoins (s : Slice) : Res (Z * Slice) := loadVarUintBig s 4.

(** An [Address] is a workchain and a hash of 32 bytes; the hash is held
    as the number its 256 bits spell. *)
Record Address : Type := mkAddress {
  workChain : Z;
  hash : Z
}.

Record ExternalAddress : Type := mkExternalAddress {
  ext_value : Z;
  ext_bits : nat
}.

(** What [loadAddressAny] returns when it is not [null]. *)
Inductive AnyAddress : Type :=
| Internal (a : Address)
| External (e : ExternalAddress).

(** [builder.storeAddress(address)] for an [Address] or [null]: [null] is
    the two bits [00]; an address is [10], a zero bit for no anycast, the
    workchain on 8 signed bits and the hash. *)
Definition storeAddress (b : Builder) (address : option Address)
    : Res Builder :=
  match address with
  | None => storeUint b 0 2
  | Some a =>
      b <- storeUint b 2 2 ;;
      b <- storeUint b 0 1 ;;
      b <- storeInt b (workChain a) 8 ;;
      storeUint b (hash a) 256
  end.

Definition invalid_address : Exn := Error "Invalid address".

(** The internal address at the head of the slice. *)
Definition loadInternalAddress (s : Slice) : Res (Address * Slice) :=
  '(type, s) <- loadUint s 2 ;;
  if negb (type =? 2) then Throw invalid_address
  else
    '(anycast, s) <- loadUint s 1 ;;
    if negb (anycast =? 0) then Throw invalid_address
    else
      '(wc, s) <- loadInt s 8 ;;
      '(h, s) <- loadUintBig s 256 ;;
      Ok (mkAddress wc h, s).

Definition loadExternalAddress (s : Slice) : Res (ExternalAddress * Slice) :=
  '(type, s) <- loadUint s 2 ;;
  if negb (type =? 1) then Throw invalid_address
  else
    '(bits, s) <- loadUint s 9 ;;
    '(value, s) <- loadUintBig s (Z.to_nat bits) ;;
    Ok (mkExternalAddress value (Z.to_nat bits), s).

(** [slice.loadAddress()]: an internal address, anything else throws. *)
Definition loadAddress (s : Slice) : Res (Address * Slice) :=
  type <- preloadUintBig s 2 ;;
  if type =? 2 then loadInternalAddress s
  else Throw invalid_address.

(** [slice.loadMaybeAddress()]: [null] or an internal address. *)
Definition loadMaybeAddress (s : Slice) : Res (option Address * Slice) :=
  type <- preloadUintBig s 2 ;;
  if type =? 0 then s <- skip s 2 ;; Ok (None, s)
  else if type =? 2 then
    '(a, s) <- loadInternalAddress s ;; Ok (Some a, s)
  else Throw invalid_address.

(** [slice.loadAddressAny()]: [null], an internal or an external
    address; the fourth kind is not supported. *)
Definition loadAddressAny (s : Slice) : Res (option AnyAddress * Slice) :=
  type <- preloadUintBig s 2 ;;
  if type =? 0 then s <- skip s 2 ;; Ok (None, s)
  else if type =? 2 then
    '(a, s) <- loadInternalAddress s ;; Ok (Some (Internal a), s)
  else if type =? 1 then
    '(e, s) <- loadExternalAddress s ;; Ok (Some (External e), s)
  else Throw (Error "Unsupported").

(** [builder.storeMaybeRef(cell)] and [slice.loadMaybeRef()] *)
Definition storeMaybeRef (b : Builder) (cell : option Cell) : Res Builder :=
  match cell with
  | Some c => b <- storeBit b true ;; storeRef b c
  | None => storeBit b false
  end.

Definition loadMaybeRef (s : Slice) : Res (option Cell * Slice) :=
  '(flag, s) <- loadBit s ;;
  if flag : bool then '(c, s) <- loadRef s ;; Ok (Some c, s)
  else Ok (None, s).

Definition remainingBits (s : Slice) : nat := length (slice_bits s).

Definition remainingRefs (s : Slice) : nat := length (slice_refs s).

(** ** The message helpers *)

Record InternalTransfer : Type := mkInternalTransfer {
  it_amount : Z;
  it_from : option AnyAddress;
  it_response : option AnyAddress;
  it_forwardAmount : Z;
  it_payload : option Cell
}.

Definition parseInternalTransfer (body : Cell) : Res InternalTransfer :=
  ts <- skip (beginParse body) (64 + 32) ;;
  '(amount, ts) <- loadCoins ts ;;
  '(from, ts) <- loadAddressAny ts ;;
  '(response, ts) <- loadAddressAny ts ;;
  '(forwardAmount, ts) <- loadCoins ts ;;
  '(payload, ts) <- loadMaybeRef ts ;;
  Ok (mkInternalTransfer amount from response forwardAmount payload).

(** ** The minter wrapper *)

Record JettonMinterContent : Type := mkJettonMinterContent {
  uri : string
}.

Record JettonMinterConfig : Type := mkJettonMinterConfig {
  mc_admin : Address;
  mc_wallet_code : Cell;
  mc_jetton_content : Cell + JettonMinterContent;
  mc_merkle_root : Z
}.

Record JettonMinterConfigFull : Type := mkJettonMinterConfigFull {
  supply : Z;
  admin : Address;
  transfer_admin : option Address;
  wallet_code : Cell;
  jetton_content : Cell + JettonMinterContent;
  merkle_root : Z
}.

Definition endParse (slice : Slice) : Res unit :=
  if (0 <? remainingBits slice)%nat || (0 <? remainingRefs slice)%nat
  then Throw (Error "remaining bits in data")
  else Ok tt.

Definition jettonMinterConfigCellToConfig (config : Cell)
    : Res JettonMinterConfigFull :=
  let sc := beginParse config in
  '(supply, sc) <- loadCoins sc ;;
  '(admin, sc) <- loadAddress sc ;;
  '(transfer_admin, sc) <- loadMaybeAddress sc ;;
  '(wallet_code, sc) <- loadRef sc ;;
  '(jetton_content, sc) <- loadRef sc ;;
  '(merkle_root, sc) <- loadUintBig sc 256 ;;
  _ <- endParse sc ;;
  Ok (mkJettonMinterConfigFull supply admin transfer_admin wallet_code
        (inl jetton_content) merkle_root).

Section JettonMinter.

(** [builder.storeStringRefTail(s)], the snake encoding of the SDK, is not
    modelled; neither are the opcodes of the constants module. *)
Variable storeStringRefTail : Builder -> string -> Res Builder.
Variable Op_internal_transfer : Z.
Variable Op_mint : Z.

Definition jettonContentToCell (content : JettonMinterContent) : Res Cell :=
  b <- storeStringRefTail beginCell (uri content) ;;
  Ok (endCell b).

(** [content instanceof Cell ? content : jettonContentToCell(content)] *)
Definition contentCell (content : Cell + JettonMinterContent) : Res Cell :=
  match content with
  | inl c => Ok c
  | inr content => jettonContentToCell content
  end.

Definition jettonMinterConfigFullToCell (config : JettonMinterConfigFull)
    : Res Cell :=
  content <- contentCell (jetton_content config) ;;
  b <- storeCoins beginCell (supply config) ;;
  b <- storeAddress b (Some (admin config)) ;;
  b <- storeAddress b (transfer_admin config) ;;
  b <- storeUint b (merkle_root config) 256 ;;
  b <- storeRef b (wallet_code config) ;;
  b <- storeRef b content ;;
  Ok (endCell b).

Definition jettonMinterConfigToCell (config : JettonMinterConfig)
    : Res Cell :=
  content <- contentCell (mc_jetton_content config) ;;
  b <- storeCoins beginCell 0 ;;
  b <- storeAddress b (Some (mc_admin config)) ;;
  b <- storeAddress b None ;;
  b <- storeUint b (mc_merkle_root config) 256 ;;
  b <- storeRef b (mc_wallet_code config) ;;
  b <- storeRef b content ;;
  Ok (endCell b).

(** [JettonMinter.mintMessage]: an absent [from], [response] or
    [customPayload] is [None]. *)
Definition mintMessage (to : Address) (jetton_amount : Z)
    (from response : option Address) (customPayload : option Cell)
    (forward_ton_amount total_ton_amount : Z) : Res Cell :=
  b <- storeUint beginCell Op_internal_transfer 32 ;;
  b <- storeUint b 0 64 ;;
  b <- storeCoins b jetton_amount ;;
  b <- storeAddress b from ;;
  b <- storeAddress b response ;;
  b <- storeCoins b forward_ton_amount ;;
  b <- storeMaybeRef b customPayload ;;
  let mintMsg := endCell b in
  b <- storeUint beginCell Op_mint 32 ;;
  b <- storeUint b 0 64 ;;
  b <- storeAddress b (Some to) ;;
  b <- storeCoins b total_ton_amount ;;
  b <- storeRef b mintMsg ;;
  Ok (endCell b).

End JettonMinter.

(** Addresses and amounts that can be stored. *)
Definition valid_Address (a : Address) : Prop :=
  - 128 <= workChain a < 128 /\ 0 <= hash a < 2 ^ 256.

Definition valid_MaybeAddress (a : option Address) : Prop :=
  match a with
  | Some a => valid_Address a
  | None => True
  end.

Definition valid_Coins (v : Z) : Prop := 0 <= v < 2 ^ 120.

(** The bits of an amount and of an address as they are stored. *)
Definition coinsBits (v : Z) : list bool :=
  let sizeBytes := (Z.log2 v + 1 + 7) / 8 in
  if v =? 0 then bits_of_uint 4 0
  else bits_of_uint 4 sizeBytes ++ bits_of_uint (Z.to_nat (sizeBytes * 8)) v.

Definition addressBits (a : option Address) : list bool :=
  match a with
  | None => bits_of_uint 2 0
  | Some a =>
      bits_of_uint 2 2 ++ bits_of_uint 1 0
      ++ [workChain a <? 0]
      ++ bits_of_uint 7
           (if workChain a <? 0 then 2 ^ 7 + workChain a else workChain a)
      ++ bits_of_uint 256 (hash a)
  end.

Definition anyAddress (a : option Address) : option AnyAddress :=
  option_map Internal a.

(** Sample addresses and a sample configuration of the minter. *)
Definition sampleAdmin : Address := mkAddress 0 12345.

Definition sampleOwner : Address := mkAddress (-1) (2 ^ 255 + 7).

Definition sampleFull : JettonMinterConfigFull :=
  mkJettonMinterConfigFull 1000000000 sampleAdmin (Some sampleOwner)
    (mkCell [true] []) (inl (mkCell [false; true] [])) 99.

(** A stand-in for the snake encoder in the examples: it stores nothing. *)
Definition sampleSnake (b : Builder) (s : string) : Res Builder := Ok b.

(** A configuration of the minter whose fields can be stored, and the
    bits of its data cell. *)
Definition valid_JettonMinterConfigFull (c : JettonMinterConfigFull) : Prop :=
  valid_Coins (supply c)
  /\ valid_Address (admin c)
  /\ valid_MaybeAddress (transfer_admin c)
  /\ 0 <= merkle_root c < 2 ^ 256.

Definition configBits (c : JettonMinterConfigFull) : list bool :=
  coinsBits (supply c) ++ addressBits (Some (admin c))
  ++ addressBits (transfer_admin c) ++ bits_of_uint 256 (merkle_root c).

(** The configuration with its content replaced by the content cell. *)
Definition withContent (c : JettonMinterConfigFull) (content : Cell)
    : JettonMinterConfigFull :=
  mkJettonMinterConfigFull (supply c) (admin c) (transfer_admin c)
    (wallet_code c) (inl content) (merkle_root c).

(** The full configuration that [jettonMinterConfigToCell] stores. *)
Definition fullOf (c : JettonMinterConfig) : JettonMinterConfigFull :=
  mkJettonMinterConfigFull 0 (mc_admin c) None (mc_wallet_code c)
    (mc_jetton_content c) (mc_merkle_root c).

(** The body of an internal transfer with the opcode [op] and the query
    id zero, and the body of the mint message that carries it. *)
Definition transferBody (op amount : Z) (from response : option Address)
    (forwardAmount : Z) (payload : option Cell) : Cell :=
  mkCell
    (bits_of_uint 32 op ++ bits_of_uint 64 0 ++ coinsBits amount
     ++ addressBits from ++ addressBits response ++ coinsBits forwardAmount
     ++ [match payload with Some _ => true | None => false end])
    (match payload with Some c => [c] | None => [] end).

Definition mintBody (op : Z) (to : Address) (total : Z) (inner : Cell)
    : Cell :=
  mkCell
    (bits_of_uint 32 op ++ bits_of_uint 64 0 ++ addressBits (Some to)
     ++ coinsBits total)
    [inner].
(** * Properties

    ** Fee formulas *)

(** The examples of the fee formulas. *)

Example computeGasFee_flat :
  computeGasFee (mkGasPrices 100 1000000 65536000) 100 = 1000000.
Proof. reflexivity. Qed.

Example computeGasFee_above :
  computeGasFee (mkGasPrices 100 1000000 65536000) 200 = 1100000.
Proof. reflexivity. Qed.

Example calcStorageFee_hour :
  calcStorageFee (mkStorageValue 0 1 500 0 0) (mkStorageStats 1000 5) 3600
  = 193.
Proof. reflexivity. Qed.

(** ** Arithmetic of [shr16ceil] *)

Lemma shr16ceil_nonneg (x : Z) : 0 <= x -> 0 <= shr16ceil x.
Proof.
  intros Hx. unfold shr16ceil.
  assert (0 <= Z.quot x 65536) by (apply Z.quot_pos; lia).
  destruct (negb (Z.rem x 65536 =? 0)); lia.
Qed.

(** On a non-negative argument [shr16ceil] is the ceiling of [x / 65536]:
    the least [n] with [x <= 65536 * n]. *)
Lemma shr16ceil_is_ceiling (x : Z) :
  0 <= x ->
  x <= 65536 * shr16ceil x /\ 65536 * (shr16ceil x - 1) < x.
Proof.
  intros Hx. unfold shr16ceil.
  rewrite Z.quot_div_nonneg, Z.rem_mod_nonneg by lia.
  pose proof (Z.div_mod x 65536 ltac:(lia)) as Hdm.
  pose proof (Z.mod_pos_bound x 65536 ltac:(lia)) as Hb.
  destruct (Z.eqb_spec (x mod 65536) 0); cbn [negb]; lia.
Qed.

Lemma shr16ceil_div (x : Z) : 0 <= x -> shr16ceil x = (x + 65535) / 65536.
Proof.
  intros Hx. destruct (shr16ceil_is_ceiling x Hx) as [H1 H2].
  apply Z.div_unique with (r := x + 65535 - 65536 * shr16ceil x).
  - left. lia.
  - lia.
Qed.

(** ** Gas fee *)

(** C1: [computeGasFee p g] is [p.flat_gas_price] when
    [g <= p.flat_gas_limit] and otherwise
    [p.flat_gas_price + (p.gas_price * (g - p.flat_gas_limit)) / 65536]
    with the quotient truncated; at [g = p.flat_gas_limit] the fee is
    [p.flat_gas_price] and at [g = p.flat_gas_limit + 65536] it is
    [p.flat_gas_price + p.gas_price]. *)
Theorem computeGasFee_spec (p : GasPrices) (g : Z) :
  0 <= g ->
  (g <= flat_gas_limit p -> computeGasFee p g = flat_gas_price p)
  /\ (flat_gas_limit p < g ->
      computeGasFee p g
      = flat_gas_price p
        + Z.quot (gas_price p * (g - flat_gas_limit p)) 65536)
  /\ computeGasFee p (flat_gas_limit p) = flat_gas_price p
  /\ computeGasFee p (flat_gas_limit p + 65536)
     = flat_gas_price p + gas_price p.
Proof.
  intros _. unfold computeGasFee. repeat split.
  - intros Hle. apply Z.leb_le in Hle. now rewrite Hle.
  - intros Hlt. apply Z.leb_gt in Hlt. now rewrite Hlt.
  - now rewrite Z.leb_refl.
  - replace (flat_gas_limit p + 65536 <=? flat_gas_limit p) with false
      by (symmetry; apply Z.leb_gt; lia).
    replace (flat_gas_limit p + 65536 - flat_gas_limit p) with 65536 by lia.
    rewrite Z.quot_mul by lia. reflexivity.
Qed.

Lemma computeGasFee_spec_witness :
  computeGasFee (mkGasPrices 100 1000000 65536000) 300 = 1000000 + 200000.
Proof.
  destruct (computeGasFee_spec (mkGasPrices 100 1000000 65536000) 300
              ltac:(lia)) as (_ & Habove & _ & _).
  rewrite Habove by (simpl; lia). reflexivity.
Defined.

(** ** Storage fee *)

(** C2, as worded, fails: the price fields are [bigint] and nothing
    guards them; with [bit_price_ps = -1], one bit and a duration of one
    the product is [-1], the fee is [1] and the ceiling of [-1 / 65536] is
    [0]. *)
Lemma calcStorageFee_negative_price :
  let prices := mkStorageValue 0 (-1) 0 0 0 in
  let stats := mkStorageStats 1 0 in
  0 <= bits stats /\ 0 <= cells stats /\ 0 <= 1
  /\ calcStorageFee prices stats 1 = 1
  /\ (-1 + 65535) / 65536 = 0
  /\ ~ storage_fee_is_ceiling prices stats 1.
Proof.
  cbv zeta. cbn [bits cells].
  split; [lia|]. split; [lia|]. split; [lia|].
  split; [reflexivity|]. split; [reflexivity|].
  unfold storage_fee_is_ceiling. vm_compute. intros [_ H]. discriminate H.
Qed.

(** C2 (amended): for non-negative [bits], [cells] and duration [d] and
    non-negative prices [bit_price_ps] and [cell_price_ps], as for every
    record read by [storageValue], [calcStorageFee prices stats d] is the
    ceiling of [x / 65536] for
    [x = (bits * bit_price_ps + cells * cell_price_ps) * d]: the least [n]
    with [x <= 65536 * n], which is [(x + 65535) / 65536] and the
    truncated quotient plus one when the remainder is not zero; and the
    fee for a duration of zero is zero. *)
Theorem calcStorageFee_spec (prices : StorageValue) (stats : StorageStats)
    (d : Z) :
  0 <= bits stats -> 0 <= cells stats -> 0 <= d ->
  0 <= bit_price_ps prices -> 0 <= cell_price_ps prices ->
  let x := (bits stats * bit_price_ps prices
            + cells stats * cell_price_ps prices) * d in
  storage_fee_is_ceiling prices stats d
  /\ calcStorageFee prices stats d = (x + 65535) / 65536
  /\ calcStorageFee prices stats d
     = Z.quot x 65536 + (if Z.rem x 65536 =? 0 then 0 else 1)
  /\ calcStorageFee prices stats 0 = 0.
Proof.
  intros Hb Hc Hd Hbp Hcp x.
  assert (Hx : 0 <= x) by (unfold x; nia).
  unfold storage_fee_is_ceiling, calcStorageFee. fold x. cbv zeta.
  split; [now apply shr16ceil_is_ceiling|].
  split; [now apply shr16ceil_div|]. split.
  - unfold shr16ceil. destruct (Z.rem x 65536 =? 0); cbn [negb]; lia.
  - now rewrite Z.mul_0_r.
Qed.

Lemma calcStorageFee_spec_witness :
  calcStorageFee (mkStorageValue 0 1 500 0 0) (mkStorageStats 1000 5) 3600
  = (12600000 + 65535) / 65536.
Proof.
  destruct (calcStorageFee_spec (mkStorageValue 0 1 500 0 0)
              (mkStorageStats 1000 5) 3600
              ltac:(simpl; lia) ltac:(simpl; lia) ltac:(lia)
              ltac:(simpl; lia) ltac:(simpl; lia))
    as (_ & Heq & _).
  exact Heq.
Defined.

(** ** Forwarding fee *)

Lemma computeFwdFees_nonneg (p : MsgPrices) (c b : Z) :
  0 <= lumpPrice p -> 0 <= bitPrice p -> 0 <= cellPrice p ->
  0 <= c -> 0 <= b ->
  0 <= computeFwdFees p c b.
Proof.
  intros Hl Hb Hc Hcs Hbs. unfold computeFwdFees.
  assert (0 <= shr16ceil (bitPrice p * b + cellPrice p * c))
    by (apply shr16ceil_nonneg; nia).
  lia.
Qed.

Lemma shiftr16_share (fees frac : Z) :
  0 <= fees -> 0 <= frac < 65536 ->
  0 <= Z.shiftr (fees * frac) 16 <= fees.
Proof.
  intros Hf Hfr. rewrite Z.shiftr_div_pow2 by lia.
  change (2 ^ 16) with 65536. split.
  - apply Z.div_pos; nia.
  - apply Z.div_le_upper_bound; nia.
Qed.

(** The split of [computeFwdFeesVerbose] always adds up to the total. *)
Lemma computeFwdFeesVerbose_sum (p : MsgPrices) (c b : Z) :
  let f := computeFwdFeesVerbose p c b in res f + remaining f = total f.
Proof. simpl. lia. Qed.

(** C10, as worded, fails: a record with a negative lump price and
    [firstFrac = 1 < 2^16] yields a share of [-1] on a total of [-65536]. *)
Lemma computeFwdFeesVerbose_negative_share :
  let p := mkMsgPrices (-65536) 0 0 0 1 0 in
  firstFrac p < 2 ^ 16
  /\ computeFwdFeesVerbose p 0 0 = mkFullFees (-65536) (-1) (-65535)
  /\ ~ fwd_split_in_range p 0 0.
Proof.
  cbv zeta. split; [reflexivity|]. split; [reflexivity|].
  unfold fwd_split_in_range. vm_compute. intros [[H _] _]. now apply H.
Qed.

(** C10 (amended): when [lumpPrice], [bitPrice] and [cellPrice] are
    non-negative and [0 <= firstFrac < 2^16], as for every record read by
    [configParseMsgPrices], and [cells] and [bits] are non-negative, the
    share [res] satisfies [0 <= res <= total] and the remainder satisfies
    [0 <= remaining <= total]. *)
Theorem computeFwdFeesVerbose_range (p : MsgPrices) (c b : Z) :
  0 <= lumpPrice p -> 0 <= bitPrice p -> 0 <= cellPrice p ->
  0 <= firstFrac p < 2 ^ 16 ->
  0 <= c -> 0 <= b ->
  fwd_split_in_range p c b.
Proof.
  intros Hl Hb Hc Hfr Hcs Hbs. unfold fwd_split_in_range.
  pose proof (computeFwdFees_nonneg p c b Hl Hb Hc Hcs Hbs) as Hfees.
  pose proof (shiftr16_share _ _ Hfees Hfr) as Hshare.
  unfold computeFwdFeesVerbose. cbn [res total remaining]. lia.
Qed.

Lemma computeFwdFeesVerbose_range_witness :
  fwd_split_in_range (mkMsgPrices 400000 26214400 2621440000 98304 21845 21845)
    3 1000.
Proof.
  apply computeFwdFeesVerbose_range; simpl; lia.
Defined.

(** ** Bit strings and unsigned integers *)

Lemma bind_ok {A B : Type} (m : Res A) (k : A -> Res B) (b : B) :
  bind m k = Ok b -> exists a, m = Ok a /\ k a = Ok b.
Proof. destruct m as [a|e]; simpl; [eauto | discriminate]. Qed.

Lemma uint_of_bits_acc (bs : list bool) (acc : Z) :
  fold_left (fun a b => 2 * a + Z.b2z b) bs acc
  = acc * 2 ^ Z.of_nat (length bs) + uint_of_bits bs.
Proof.
  unfold uint_of_bits. revert acc.
  induction bs as [|b bs IH]; intros acc.
  - simpl. lia.
  - cbn [fold_left length]. rewrite IH, (IH (2 * 0 + Z.b2z b)).
    rewrite Nat2Z.inj_succ, Z.pow_succ_r by lia. ring.
Qed.

Lemma uint_of_bits_cons (b : bool) (bs : list bool) :
  uint_of_bits (b :: bs)
  = Z.b2z b * 2 ^ Z.of_nat (length bs) + uint_of_bits bs.
Proof.
  unfold uint_of_bits at 1. cbn [fold_left].
  rewrite uint_of_bits_acc. f_equal; lia.
Qed.

Lemma uint_of_bits_range (bs : list bool) :
  0 <= uint_of_bits bs < 2 ^ Z.of_nat (length bs).
Proof.
  induction bs as [|b bs IH].
  - cbn. lia.
  - rewrite uint_of_bits_cons. cbn [length].
    rewrite Nat2Z.inj_succ, Z.pow_succ_r by lia.
    destruct b; cbn [Z.b2z]; lia.
Qed.

Lemma length_bits_of_uint (n : nat) (v : Z) : length (bits_of_uint n v) = n.
Proof. induction n; cbn [bits_of_uint length]; auto. Qed.

Lemma uint_of_bits_of_uint_mod (n : nat) (v : Z) :
  uint_of_bits (bits_of_uint n v) = v mod 2 ^ Z.of_nat n.
Proof.
  induction n as [|n IH].
  - cbn. now rewrite Z.mod_1_r.
  - cbn [bits_of_uint]. rewrite uint_of_bits_cons, length_bits_of_uint, IH.
    rewrite Nat2Z.inj_succ, Z.pow_succ_r by lia.
    rewrite Z.testbit_spec' by lia.
    rewrite (Z.mul_comm 2), Z.rem_mul_r by lia. ring.
Qed.

Lemma uint_of_bits_of_uint (n : nat) (v : Z) :
  0 <= v < 2 ^ Z.of_nat n -> uint_of_bits (bits_of_uint n v) = v.
Proof.
  intros Hv. rewrite uint_of_bits_of_uint_mod. now apply Z.mod_small.
Qed.

Lemma bits_of_uint_inj (n : nat) (v w : Z) :
  0 <= v < 2 ^ Z.of_nat n -> 0 <= w < 2 ^ Z.of_nat n ->
  bits_of_uint n v = bits_of_uint n w -> v = w.
Proof.
  intros Hv Hw Heq.
  rewrite <- (uint_of_bits_of_uint n v Hv), <- (uint_of_bits_of_uint n w Hw).
  now rewrite Heq.
Qed.

(** ** Reading back what was written *)

Lemma firstn_app_exact {A : Type} (a b : list A) (n : nat) :
  length a = n -> firstn n (a ++ b) = a.
Proof.
  intros <-. rewrite firstn_app, Nat.sub_diag, firstn_all. cbn.
  apply app_nil_r.
Qed.

Lemma skipn_app_exact {A : Type} (a b : list A) (n : nat) :
  length a = n -> skipn n (a ++ b) = b.
Proof.
  intros <-. rewrite skipn_app, Nat.sub_diag, skipn_all. reflexivity.
Qed.

Lemma loadUintBig_bits (n : nat) (v : Z) (rest : list bool)
    (refs : list Cell) :
  0 <= v < 2 ^ Z.of_nat n ->
  loadUintBig (mkSlice (bits_of_uint n v ++ rest) refs) n
  = Ok (v, mkSlice rest refs).
Proof.
  intros Hv. unfold loadUintBig, preloadUintBig, skip. cbn [slice_bits].
  rewrite length_app, length_bits_of_uint.
  replace (n <=? n + length rest)%nat with true
    by (symmetry; apply Nat.leb_le; lia).
  cbn [bind slice_refs].
  rewrite firstn_app_exact, skipn_app_exact by apply length_bits_of_uint.
  now rewrite uint_of_bits_of_uint.
Qed.

Lemma preloadUintBig_bits (n : nat) (v : Z) (rest : list bool)
    (refs : list Cell) :
  0 <= v < 2 ^ Z.of_nat n ->
  preloadUintBig (mkSlice (bits_of_uint n v ++ rest) refs) n = Ok v.
Proof.
  intros Hv. unfold preloadUintBig. cbn [slice_bits].
  rewrite length_app, length_bits_of_uint.
  replace (n <=? n + length rest)%nat with true
    by (symmetry; apply Nat.leb_le; lia).
  rewrite firstn_app_exact by apply length_bits_of_uint.
  now rewrite uint_of_bits_of_uint.
Qed.

Lemma skip_bits (a rest : list bool) (refs : list Cell) (n : nat) :
  length a = n ->
  skip (mkSlice (a ++ rest) refs) n = Ok (mkSlice rest refs).
Proof.
  intros Hn. unfold skip. cbn [slice_bits slice_refs].
  rewrite length_app, Hn.
  replace (n <=? n + length rest)%nat with true
    by (symmetry; apply Nat.leb_le; lia).
  now rewrite skipn_app_exact.
Qed.

(** A successful [loadUint] returns a value that fits the width read. *)
Lemma loadUintBig_range (s s' : Slice) (n : nat) (v : Z) :
  loadUintBig s n = Ok (v, s') -> 0 <= v < 2 ^ Z.of_nat n.
Proof.
  unfold loadUintBig, preloadUintBig, skip.
  destruct (Nat.leb_spec n (length (slice_bits s))) as [Hle|]; cbn;
    [|discriminate].
  intros [= <- _].
  pose proof (uint_of_bits_range (firstn n (slice_bits s))) as Hr.
  rewrite length_firstn, Nat.min_l in Hr by lia. exact Hr.
Qed.

Lemma storeUint_ok (b : Builder) (v : Z) (n : nat) :
  0 <= v < 2 ^ Z.of_nat n ->
  (length (builder_bits b) + n <= 1023)%nat ->
  storeUint b v n
  = Ok (mkBuilder (builder_bits b ++ bits_of_uint n v) (builder_refs b)).
Proof.
  intros Hv Hcap. unfold storeUint, storeBits.
  replace (v <? 0) with false by (symmetry; apply Z.ltb_ge; lia).
  replace (2 ^ Z.of_nat n <=? v) with false
    by (symmetry; apply Z.leb_gt; lia).
  rewrite length_bits_of_uint. cbn [orb].
  replace (length (builder_bits b) + n <=? 1023)%nat with true
    by (symmetry; apply Nat.leb_le; lia).
  reflexivity.
Qed.

Lemma storeBits_ok (b : Builder) (bs : list bool) :
  (length (builder_bits b) + length bs <= 1023)%nat ->
  storeBits b bs = Ok (mkBuilder (builder_bits b ++ bs) (builder_refs b)).
Proof.
  intros Hcap. unfold storeBits.
  replace (length (builder_bits b) + length bs <=? 1023)%nat with true
    by (symmetry; apply Nat.leb_le; lia).
  reflexivity.
Qed.

Lemma storeRefs_ok (cs : list Cell) (b : Builder) :
  (length (builder_refs b) + length cs <= 4)%nat ->
  storeRefs b cs = Ok (mkBuilder (builder_bits b) (builder_refs b ++ cs)).
Proof.
  revert b. induction cs as [|c cs IH]; intros b Hcap.
  - cbn. rewrite app_nil_r. now destruct b.
  - cbn [storeRefs]. unfold storeRef. cbn [length] in Hcap.
    replace (4 <=? length (builder_refs b))%nat with false
      by (symmetry; apply Nat.leb_gt; lia).
    cbn [bind]. rewrite IH.
    + cbn [builder_bits builder_refs]. now rewrite <- app_assoc.
    + cbn [builder_refs]. rewrite length_app. cbn [length]. lia.
Qed.

(** ** Cell statistics *)

Lemma cell_size_ref (c r : Cell) :
  In r (cell_refs c) -> (cell_size r < cell_size c)%nat.
Proof.
  destruct c as [bs rs]. cbn [cell_refs cell_size]. intros Hin.
  induction rs as [|a rs IH]; [contradiction|].
  cbn [map list_sum fold_right]. fold (list_sum (map cell_size rs)).
  destruct Hin as [->|Hin]; [lia|].
  specialize (IH Hin). lia.
Qed.

(** Induction on cells: a property that passes from the references of a
    cell to the cell holds of every cell. *)
Lemma Cell_refs_ind (P : Cell -> Prop) :
  (forall c, (forall r, In r (cell_refs c) -> P r) -> P c) ->
  forall c, P c.
Proof.
  intros Hstep c. remember (cell_size c) as n eqn:Hn. revert c Hn.
  induction n as [n IHn] using lt_wf_ind. intros c ->.
  apply Hstep. intros r Hr.
  apply (IHn (cell_size r)); [now apply cell_size_ref | reflexivity].
Qed.

Lemma subcells_unfold (c : Cell) :
  subcells c = c :: flat_map subcells (cell_refs c).
Proof. destruct c; reflexivity. Qed.

Lemma subcells_self (c : Cell) : In c (subcells c).
Proof. rewrite subcells_unfold. now left. Qed.

Lemma subcells_size (c y : Cell) :
  In y (subcells c) -> y = c \/ (cell_size y < cell_size c)%nat.
Proof.
  revert y. induction c as [c IH] using Cell_refs_ind. intros y.
  rewrite subcells_unfold. intros [<-|Hin]; [now left|]. right.
  apply in_flat_map in Hin. destruct Hin as (r & Hr & Hy).
  pose proof (cell_size_ref c r Hr).
  destruct (IH r Hr y Hy) as [->|]; lia.
Qed.

Lemma subcells_trans (x y z : Cell) :
  In y (subcells x) -> In z (subcells y) -> In z (subcells x).
Proof.
  revert y z. induction x as [x IH] using Cell_refs_ind. intros y z.
  rewrite (subcells_unfold x). intros [<-|Hin] Hz.
  - now rewrite subcells_unfold in Hz.
  - right. apply in_flat_map in Hin. destruct Hin as (r & Hr & Hy).
    apply in_flat_map. exists r. split; [exact Hr|]. now apply (IH r Hr y).
Qed.

Lemma total_bits_app (a b : list Cell) :
  total_bits (a ++ b) = total_bits a + total_bits b.
Proof.
  induction a as [|c a IH]; cbn [app total_bits fold_right].
  - reflexivity.
  - fold (total_bits (a ++ b)). fold (total_bits a). lia.
Qed.

Lemma total_bits_perm (a b : list Cell) :
  Permutation a b -> total_bits a = total_bits b.
Proof.
  induction 1 as [|x a b _ IH|x y a|a b c _ IH1 _ IH2];
    cbn [total_bits fold_right];
    repeat match goal with
           | |- context [fold_right ?g 0 ?l] =>
               change (fold_right g 0 l) with (total_bits l)
           end; lia.
Qed.

Lemma stats_of_perm (a b : list Cell) :
  Permutation a b -> stats_of a = stats_of b.
Proof.
  intros Hp. unfold stats_of.
  now rewrite (total_bits_perm a b Hp), (Permutation_length Hp).
Qed.

Lemma collectCellStats_unfold {H : Type} (H_eqb : H -> H -> bool)
    (hash : Cell -> H) :
  traverses_in_order H_eqb hash (fun refs => refs)
    (collectCellStats H_eqb hash).
Proof. intros [cbits crefs] visited skipRoot. reflexivity. Qed.

Lemma collectRefsWith_snoc {H : Type}
    (rec : Cell -> list H -> StorageStats * list H) (refs : list Cell)
    (x : Cell) (nbits ncells : Z) (visited : list H) :
  collectRefsWith rec (refs ++ [x]) nbits ncells visited
  = let '(acc, visited) := collectRefsWith rec refs nbits ncells visited in
    let '(r, visited) := rec x visited in
    (mkStorageStats (bits acc + bits r) (cells acc + cells r), visited).
Proof.
  revert nbits ncells visited.
  induction refs as [|a refs IH]; intros nbits ncells visited.
  - cbn. now destruct (rec x visited).
  - cbn [app collectRefsWith]. destruct (rec a visited) as [r v]. apply IH.
Qed.

Lemma collectCellStats_rev_unfold {H : Type} (H_eqb : H -> H -> bool)
    (hash : Cell -> H) :
  traverses_in_order H_eqb hash (@rev Cell) (collectCellStats_rev H_eqb hash).
Proof.
  intros [cbits crefs] visited skipRoot. cbn [collectCellStats_rev cell_refs].
  cbv zeta. cbn [cell_bits].
  destruct (includes H_eqb visited (hash (mkCell cbits crefs)));
    [reflexivity|].
  generalize (visited ++ [hash (mkCell cbits crefs)]). intros v.
  induction crefs as [|a crefs IH]; [reflexivity|].
  cbn [rev]. rewrite collectRefsWith_snoc, <- IH. reflexivity.
Qed.

Section CellStats.

Variable H : Type.
Variable H_eqb : H -> H -> bool.
Variable hash : Cell -> H.

Hypothesis H_eqb_spec : forall a b, H_eqb a b = true <-> a = b.
Hypothesis hash_inj : forall a b, hash a = hash b -> a = b.

Lemma includes_In (v : list H) (h : H) :
  includes H_eqb v h = true <-> In h v.
Proof.
  unfold includes. rewrite existsb_exists. split.
  - intros (x & Hx & Heq). apply H_eqb_spec in Heq. now subst.
  - intros Hin. exists h. split; [exact Hin | now apply H_eqb_spec].
Qed.

Lemma visited_dec (v : list H) (x : Cell) :
  In (hash x) v \/ ~ In (hash x) v.
Proof.
  destruct (includes H_eqb v (hash x)) eqn:E.
  - left. now apply includes_In.
  - right. intros Hin. apply includes_In in Hin. congruence.
Qed.

Lemma visited_app (v : list H) (news : list Cell) (x : Cell) :
  In (hash x) (v ++ map hash news) <-> In (hash x) v \/ In x news.
Proof.
  rewrite in_app_iff, in_map_iff. split.
  - intros [Hv|(y & Heq & Hy)]; [now left|].
    right. apply hash_inj in Heq. now subst.
  - intros [Hv|Hx]; [now left|]. right. now exists x.
Qed.

(** The cells first met below [c] extend [visited] to a list that is
    again closed. *)
Lemma closed_or_big_extend (v : list H) (m : nat) (c : Cell)
    (news : list Cell) :
  closed_or_big hash v m ->
  (forall y, In y news <-> In y (subcells c) /\ ~ In (hash y) v) ->
  closed_or_big hash (v ++ map hash news) m.
Proof.
  intros Hinv Hnews x Hx. apply visited_app in Hx.
  destruct Hx as [Hx|Hx].
  - destruct (Hinv x Hx) as [Hclosed|Hbig]; [left|now right].
    intros y Hy. apply visited_app. left. now apply Hclosed.
  - left. intros y Hy. apply visited_app.
    destruct (visited_dec v y) as [Hv|Hv]; [now left|].
    right. apply Hnews. split; [|exact Hv].
    apply Hnews in Hx. eapply subcells_trans; [apply Hx | exact Hy].
Qed.

Section Traversal.

Variable order : list Cell -> list Cell.
Variable f : Cell -> list H -> bool -> StorageStats * list H.

Hypothesis order_perm : forall l, Permutation (order l) l.
Hypothesis f_unfold : traverses_in_order H_eqb hash order f.

(** What a call on [c] with [visited = v] returns: the cells [news]
    first met, each once, counted with all their bits. *)
Let counted (c : Cell) (v : list H) (news : list Cell) : Prop :=
  f c v false = (stats_of news, v ++ map hash news)
  /\ NoDup news
  /\ (forall y, In y news <-> In y (subcells c) /\ ~ In (hash y) v).

Lemma collectRefsWith_counts (m : nat) (refs : list Cell) :
  (forall r, In r refs ->
     (cell_size r <= m)%nat /\
     forall v, closed_or_big hash v (cell_size r) ->
       exists news, counted r v news) ->
  forall nbits ncells v,
    closed_or_big hash v m ->
    exists news,
      collectRefsWith (fun ref v => f ref v false) refs nbits ncells v
      = (mkStorageStats (nbits + total_bits news)
           (ncells + Z.of_nat (length news)),
         v ++ map hash news)
      /\ NoDup news
      /\ (forall y, In y news <->
            In y (flat_map subcells refs) /\ ~ In (hash y) v).
Proof.
  induction refs as [|r refs IH]; intros Hrefs nbits ncells v Hinv.
  - exists []. cbn. rewrite app_nil_r, !Z.add_0_r.
    repeat split; [constructor | tauto | tauto | tauto].
  - destruct (Hrefs r (or_introl eq_refl)) as [Hsize Hr].
    destruct (Hr v) as (news1 & Hcall & Hnd1 & Hin1).
    { intros x Hx. destruct (Hinv x Hx); [now left | right; lia]. }
    pose proof (closed_or_big_extend v m r news1 Hinv Hin1) as Hinv1.
    destruct (IH (fun r' Hr' => Hrefs r' (or_intror Hr'))
                (nbits + total_bits news1)
                (ncells + Z.of_nat (length news1))
                (v ++ map hash news1) Hinv1)
      as (news2 & Hloop & Hnd2 & Hin2).
    exists (news1 ++ news2). split; [|split].
    + cbn [collectRefsWith]. rewrite Hcall. cbn [stats_of bits cells].
      rewrite Hloop, total_bits_app, length_app, map_app, app_assoc.
      f_equal. f_equal; lia.
    + apply NoDup_app; [exact Hnd1 | exact Hnd2 |].
      intros a Ha1 Ha2. apply Hin2 in Ha2. destruct Ha2 as [_ Hnot].
      apply Hnot, visited_app. now right.
    + intros y. cbn [flat_map]. rewrite !in_app_iff, Hin1, Hin2.
      rewrite visited_app. split.
      * intros [[Hy Hv]|[Hy Hv]]; tauto.
      * intros [[Hy|Hy] Hv]; [tauto|].
        destruct (visited_dec (v ++ map hash news1) y) as [Hv1|Hv1].
        -- apply visited_app in Hv1. destruct Hv1 as [|Hy1]; [tauto|].
           apply Hin1 in Hy1. tauto.
        -- rewrite visited_app in Hv1. tauto.
Qed.

Lemma counted_of_cases (c : Cell) (v : list H) :
  (In (hash c) v /\ f c v false = (StorageStats_empty, v)
   /\ forall y, In y (subcells c) -> In (hash y) v)
  \/ (~ In (hash c) v /\ exists rest,
        f c v false
        = (mkStorageStats
             (Z.of_nat (length (cell_bits c)) + total_bits rest)
             (1 + Z.of_nat (length rest)),
           v ++ map hash (c :: rest))
        /\ NoDup (c :: rest)
        /\ forall y, In y (c :: rest) <->
             In y (subcells c) /\ ~ In (hash y) v) ->
  exists news, counted c v news.
Proof.
  intros [(Hc & Hcall & Hsub)|(Hc & rest & Hcall & Hnd & Hin)].
  - exists []. unfold counted. cbn [map]. rewrite app_nil_r.
    split; [exact Hcall|]. split; [constructor|].
    intros y. split; [intros []|]. intros [Hy Hv]. now apply Hv, Hsub.
  - exists (c :: rest). unfold counted. split; [|now split].
    rewrite Hcall. unfold stats_of. cbn [total_bits fold_right length].
    fold (total_bits rest). f_equal. f_equal. lia.
Qed.

Lemma traversal_counts (c : Cell) :
  forall v skip,
    closed_or_big hash v (cell_size c) ->
    (In (hash c) v /\ f c v skip = (StorageStats_empty, v)
     /\ forall y, In y (subcells c) -> In (hash y) v)
    \/ (~ In (hash c) v /\ exists rest,
          f c v skip
          = (mkStorageStats
               ((if skip then 0 else Z.of_nat (length (cell_bits c)))
                + total_bits rest)
               ((if skip then 0 else 1) + Z.of_nat (length rest)),
             v ++ map hash (c :: rest))
          /\ NoDup (c :: rest)
          /\ forall y, In y (c :: rest) <->
               In y (subcells c) /\ ~ In (hash y) v).
Proof.
  induction c as [c IH] using Cell_refs_ind. intros v skip Hinv.
  destruct (includes H_eqb v (hash c)) eqn:Einc.
  - left. split; [now apply includes_In|].
    split; [rewrite f_unfold; cbv zeta; now rewrite Einc|].
    apply includes_In in Einc.
    destruct (Hinv c Einc) as [Hclosed|Hbig]; [exact Hclosed | lia].
  - right.
    assert (Hc : ~ In (hash c) v).
    { intros Hin. apply includes_In in Hin. congruence. }
    split; [exact Hc|].
    assert (Hinv1 : closed_or_big hash (v ++ map hash [c])
                      (cell_size c - 1)).
    { intros x Hx. apply visited_app in Hx. destruct Hx as [Hx|Hx].
      - destruct (Hinv x Hx) as [Hclosed|Hbig]; [left | right; lia].
        intros y Hy. apply visited_app. left. now apply Hclosed.
      - destruct Hx as [<-|[]]. right.
        destruct c; cbn [cell_size]; lia. }
    destruct (collectRefsWith_counts (cell_size c - 1)
                (order (cell_refs c))) with
      (nbits := if skip then 0 else Z.of_nat (length (cell_bits c)))
      (ncells := if skip then 0 else 1)
      (v := v ++ map hash [c])
      as (rest & Hloop & Hnd & Hin); [|exact Hinv1|].
    { intros r Hr.
      apply (Permutation_in _ (order_perm (cell_refs c))) in Hr.
      pose proof (cell_size_ref c r Hr). split; [lia|].
      intros v' Hv'. apply counted_of_cases. now apply IH. }
    exists rest. cbn [map] in Hloop. cbn [map].
    rewrite f_unfold. cbv zeta. rewrite Einc, Hloop, <- app_assoc. split; [reflexivity|].
    assert (Hsub : forall y,
               In y (flat_map subcells (order (cell_refs c)))
               <-> In y (flat_map subcells (cell_refs c))).
    { intros y. rewrite !in_flat_map.
      split; intros (r & Hr & Hy); exists r; (split; [|exact Hy]).
      - now apply (Permutation_in _ (order_perm (cell_refs c))).
      - now apply (Permutation_in _
                     (Permutation_sym (order_perm (cell_refs c)))). }
    assert (Hrest : forall y, In y rest -> y <> c).
    { intros y Hy ->. apply Hin in Hy. destruct Hy as [_ Hnot].
      apply Hnot, visited_app. right. now left. }
    split.
    + constructor; [|exact Hnd]. intros Hcin. now apply (Hrest c).
    + intros y. rewrite subcells_unfold. cbn [In].
      rewrite Hin, Hsub, visited_app. cbn [In]. split.
      * intros [<-|[Hy Hv]]; [tauto|]. tauto.
      * intros [[<-|Hy] Hv]; [now left|].
        destruct (H_eqb (hash c) (hash y)) eqn:E.
        -- apply H_eqb_spec, hash_inj in E. now left.
        -- right. split; [exact Hy|]. intros [Hv'|[Heq|[]]]; [tauto|].
           subst y. rewrite (proj2 (H_eqb_spec _ _) eq_refl) in E.
           discriminate.
Qed.

End Traversal.

Lemma closed_or_big_nil (n : nat) : closed_or_big hash [] n.
Proof. intros x []. Qed.

(** C5: on a fresh [visited], [collectCellStats] returns the bits and the
    number of the cells [news] of the tree, where [news] holds every cell
    of the tree once however many positions it occurs at; a cell whose
    hash is already in [visited] contributes the empty statistics and
    leaves [visited] as it is, so nothing below it is visited from there;
    and a traversal that visits the references of every cell in any other
    order returns the same statistics.  The hash is taken free of
    collisions. *)
Theorem collectCellStats_counts_once (root : Cell) :
  (exists news,
      collectCellStats H_eqb hash root [] false
      = (stats_of news, map hash news)
      /\ NoDup news
      /\ forall y, In y news <-> In y (subcells root))
  /\ (forall c v skip,
        In (hash c) v ->
        collectCellStats H_eqb hash c v skip = (StorageStats_empty, v))
  /\ (forall order f,
        (forall l, Permutation (order l) l) ->
        traverses_in_order H_eqb hash order f ->
        fst (f root [] false)
        = fst (collectCellStats H_eqb hash root [] false)).
Proof.
  assert (Hcount : forall order f,
             (forall l, Permutation (order l) l) ->
             traverses_in_order H_eqb hash order f ->
             exists news,
               f root [] false = (stats_of news, map hash news)
               /\ NoDup news
               /\ forall y, In y news <-> In y (subcells root)).
  { intros order f Hperm Hf.
    destruct (counted_of_cases f root []) as (news & Hcall & Hnd & Hin).
    { apply (traversal_counts order f Hperm Hf root [] false).
      apply closed_or_big_nil. }
    exists news. split; [exact Hcall|]. split; [exact Hnd|].
    intros y. rewrite Hin. cbn [In]. tauto. }
  pose proof (Hcount (fun refs => refs) (collectCellStats H_eqb hash)
                (fun l => Permutation_refl l)
                (collectCellStats_unfold H_eqb hash))
    as (news & Hcall & Hnd & Hin).
  split; [now exists news|]. split.
  - intros c v skip Hc.
    rewrite (collectCellStats_unfold H_eqb hash). cbv zeta.
    now rewrite (proj2 (includes_In v (hash c)) Hc).
  - intros order f Hperm Hf.
    destruct (Hcount order f Hperm Hf) as (news' & Hcall' & Hnd' & Hin').
    rewrite Hcall, Hcall'. cbn [fst].
    apply stats_of_perm, NoDup_Permutation; [exact Hnd' | exact Hnd |].
    intros y. now rewrite Hin, Hin'.
Qed.

End CellStats.

Lemma Cell_eqb_spec (a b : Cell) : Cell_eqb a b = true <-> a = b.
Proof.
  revert b. induction a as [a IH] using Cell_refs_ind. intros b.
  destruct a as [ba ra], b as [bb rb]. cbn [Cell_eqb cell_refs] in *.
  rewrite andb_true_iff.
  assert (Hgo : forall rb,
             (fix go (ra rb : list Cell) {struct ra} : bool :=
                match ra, rb with
                | [], [] => true
                | x :: ra', y :: rb' => Cell_eqb x y && go ra' rb'
                | _, _ => false
                end) ra rb = true <-> ra = rb).
  { clear rb. induction ra as [|x ra IHra]; intros [|y rb];
      try (split; [discriminate | congruence]); [tauto|].
    rewrite andb_true_iff, (IH x (or_introl eq_refl)), IHra.
    - split; [intros [-> ->]; reflexivity | intros [= -> ->]; tauto].
    - intros r Hr. apply IH. now right. }
  rewrite Hgo. destruct (list_eq_dec bool_dec ba bb) as [->|Hne].
  - split; [intros [_ ->]; reflexivity | intros [= ->]; tauto].
  - split; [intros [? _]; discriminate | intros [= -> ->]; contradiction].
Qed.

Example collectCellStats_sharingTree :
  fst (collectCellStats Cell_eqb (fun c => c) sharingTree [] false)
  = mkStorageStats 9 5.
Proof. reflexivity. Qed.

Lemma collectCellStats_counts_once_witness :
  fst (collectCellStats_rev Cell_eqb (fun c => c) sharingTree [] false)
  = fst (collectCellStats Cell_eqb (fun c => c) sharingTree [] false).
Proof.
  apply (proj2 (proj2 (collectCellStats_counts_once Cell Cell_eqb
                         (fun c => c) Cell_eqb_spec (fun a b e => e)
                         sharingTree)) (@rev Cell)).
  - intros l. apply Permutation_sym, Permutation_rev.
  - apply collectCellStats_rev_unfold.
Defined.

(** ** Labels of the dictionary trie *)

Lemma lenBits_bound (n : nat) : Z.of_nat n < 2 ^ Z.of_nat (lenBits n).
Proof.
  unfold lenBits.
  pose proof (Z.log2_up_nonneg (Z.of_nat n + 1)) as Hnn.
  rewrite Z2Nat.id by exact Hnn.
  pose proof (Z.log2_log2_up_spec (Z.of_nat n + 1) ltac:(lia)). lia.
Qed.

Lemma lenBits_mono (n m : nat) : (n <= m)%nat -> (lenBits n <= lenBits m)%nat.
Proof.
  intros Hle. unfold lenBits. apply Z2Nat.inj_le.
  - apply Z.log2_up_nonneg.
  - apply Z.log2_up_nonneg.
  - apply Z.log2_up_le_mono. lia.
Qed.

Lemma isSame_repeat (src : list bool) :
  isSame src = true -> repeat (hd false src) (length src) = src.
Proof.
  destruct src as [|b bs]; [reflexivity|]. cbn [isSame hd length repeat].
  intros Hall. f_equal. rewrite forallb_forall in Hall.
  induction bs as [|c bs IH]; [reflexivity|].
  cbn [length repeat]. f_equal.
  - apply Bool.eqb_prop, Hall. now left.
  - apply IH. intros x Hx. apply Hall. now right.
Qed.

Lemma detectLabelType_same (src : list bool) (n : nat) :
  detectLabelType src n = same -> isSame src = true.
Proof.
  unfold detectLabelType.
  destruct (labelLongLength src n <? labelShortLength src)%nat;
    destruct (isSame src); try discriminate; reflexivity.
Qed.

Lemma length_label_bits (src : list bool) (n : nat) :
  (length (label_bits src n) <= 2 + lenBits n + length src)%nat.
Proof.
  unfold label_bits, detectLabelType, labelShortLength, labelLongLength,
    labelSameLength.
  destruct (Nat.ltb_spec (1 + 1 + lenBits n + length src)
              (1 + length src + 1 + length src));
    destruct (isSame src);
    repeat match goal with
           | |- context [Nat.ltb ?a ?b] => destruct (Nat.ltb_spec a b)
           end;
    repeat (rewrite ?length_app, ?repeat_length, ?length_bits_of_uint;
            cbn [length]);
    lia.
Qed.

Lemma storeBits_bits (bs0 : list bool) (rs : list Cell) (bs : list bool) :
  (length bs0 + length bs <= 1023)%nat ->
  storeBits (mkBuilder bs0 rs) bs = Ok (mkBuilder (bs0 ++ bs) rs).
Proof. intros Hcap. now rewrite storeBits_ok. Qed.

Lemma writeLabel_ok (src : list bool) (n : nat) (bs0 : list bool)
    (rs : list Cell) :
  (length src <= n)%nat ->
  (length bs0 + length (label_bits src n) <= 1023)%nat ->
  writeLabel src n (mkBuilder bs0 rs)
  = Ok (mkBuilder (bs0 ++ label_bits src n) rs).
Proof.
  intros Hlen Hcap. unfold writeLabel, label_bits in *.
  assert (Hfit : 0 <= Z.of_nat (length src) < 2 ^ Z.of_nat (lenBits n)).
  { pose proof (lenBits_bound n). lia. }
  destruct (detectLabelType src n);
    unfold writeLabelShort, writeLabelLong, writeLabelSame, storeBit;
    repeat (rewrite ?length_app, ?repeat_length, ?length_bits_of_uint in Hcap;
            cbn [length] in Hcap).
  - rewrite storeBits_bits by (cbn [length]; lia). cbn [bind].
    rewrite storeBits_bits
      by (rewrite length_app, repeat_length; cbn [length]; lia).
    cbn [bind].
    rewrite storeBits_bits
      by (rewrite !length_app, repeat_length; cbn [length]; lia).
    cbn [bind].
    rewrite storeBits_bits
      by (rewrite !length_app, repeat_length; cbn [length]; lia).
    now rewrite <- !app_assoc.
  - rewrite storeBits_bits by (cbn [length]; lia). cbn [bind].
    rewrite storeBits_bits by (rewrite length_app; cbn [length]; lia).
    cbn [bind].
    rewrite storeUint_ok
      by (try exact Hfit; cbn [builder_bits]; rewrite !length_app;
          cbn [length]; lia).
    cbn [bind builder_bits builder_refs].
    rewrite storeBits_bits
      by (rewrite !length_app, length_bits_of_uint; cbn [length]; lia).
    now rewrite <- !app_assoc.
  - rewrite storeBits_bits by (cbn [length]; lia). cbn [bind].
    rewrite storeBits_bits by (rewrite length_app; cbn [length]; lia).
    cbn [bind].
    rewrite storeBits_bits by (rewrite !length_app; cbn [length]; lia).
    cbn [bind].
    rewrite storeUint_ok
      by (try exact Hfit; cbn [builder_bits]; rewrite !length_app;
          cbn [length]; lia).
    cbn [builder_bits builder_refs]. now rewrite <- !app_assoc.
Qed.

Lemma readUnaryLength_bits_repeat (k : nat) (rest : list bool) :
  readUnaryLength_bits (repeat true k ++ false :: rest) = Ok (k, rest).
Proof.
  induction k as [|k IH]; [reflexivity|].
  cbn [repeat app readUnaryLength_bits]. now rewrite IH.
Qed.

Lemma loadBits_app (a rest : list bool) (refs : list Cell) :
  loadBits (mkSlice (a ++ rest) refs) (length a)
  = Ok (a, mkSlice rest refs).
Proof.
  unfold loadBits. cbn [slice_bits slice_refs]. rewrite length_app.
  replace (length a <=? length a + length rest)%nat with true
    by (symmetry; apply Nat.leb_le; lia).
  now rewrite firstn_app_exact, skipn_app_exact.
Qed.

Lemma readLabel_label_bits (src : list bool) (n : nat) (rest : list bool)
    (refs : list Cell) :
  (length src <= n)%nat ->
  readLabel (mkSlice (label_bits src n ++ rest) refs) n
  = Ok (src, mkSlice rest refs).
Proof.
  intros Hlen. unfold label_bits.
  assert (Hfit : 0 <= Z.of_nat (length src) < 2 ^ Z.of_nat (lenBits n)).
  { pose proof (lenBits_bound n). lia. }
  destruct (detectLabelType src n) eqn:Ekind; unfold readLabel.
  - cbn [app loadBit slice_bits slice_refs bind negb].
    unfold readUnaryLength. cbn [slice_bits slice_refs].
    rewrite <- app_assoc. cbn [app].
    rewrite readUnaryLength_bits_repeat. cbn [bind].
    apply loadBits_app.
  - cbn [app loadBit slice_bits slice_refs bind negb]. unfold loadUint.
    rewrite <- app_assoc, loadUintBig_bits by exact Hfit. cbn [bind].
    rewrite Nat2Z.id. apply loadBits_app.
  - cbn [app loadBit slice_bits slice_refs bind negb]. unfold loadUint.
    rewrite loadUintBig_bits by exact Hfit. cbn [bind].
    rewrite Nat2Z.id, isSame_repeat; [reflexivity|].
    eapply detectLabelType_same, Ekind.
Qed.

(** ** Writing a trie and reading it back *)

Lemma fill_app {V : Type} (res : list (Z * V))
    (a b : list (list bool * V)) :
  fill res (a ++ b) = fill (fill res a) b.
Proof. apply fold_left_app. Qed.

Lemma entries_values {V : Type} (e : Edge V) (prefix : list bool) :
  map snd (entries e prefix) = edge_values e.
Proof.
  revert prefix. induction e as [label v|label l IHl r IHr]; intros prefix.
  - reflexivity.
  - cbn [entries edge_values]. now rewrite map_app, IHl, IHr.
Qed.

Lemma beginParse_endCell (b : Builder) :
  beginParse (endCell b) = mkSlice (builder_bits b) (builder_refs b).
Proof. reflexivity. Qed.

Section WriteParse.

Variable V : Type.
Variable value : DictionaryValue V.
Variable N : nat.

Hypothesis N_fits : (2 + lenBits N + N <= 1023)%nat.

Lemma label_fits (label : list bool) (n : nat) :
  (length label <= n)%nat -> (n <= N)%nat ->
  (length (label_bits label n) <= 2 + lenBits N + N)%nat.
Proof.
  intros Hl Hn. pose proof (length_label_bits label n).
  pose proof (lenBits_mono n N Hn). lia.
Qed.

Lemma writeEdge_doParse (e : Edge V) :
  forall n prefix res fuel,
    (n <= N)%nat -> edge_wf n e ->
    (forall v, In v (edge_values e) -> value_fits value N v) ->
    (n < fuel)%nat ->
    exists b,
      writeEdge e n (serialize value) beginCell = Ok b
      /\ doParse fuel prefix (beginParse (endCell b)) n res (parse value)
         = Ok (fill res (entries e prefix)).
Proof.
  induction e as [label v|label l IHl r IHr];
    intros n prefix res fuel Hn Hwf Hvals Hfuel;
    (destruct fuel as [|fuel]; [lia|]).
  - cbn [edge_wf] in Hwf.
    pose proof (label_fits label n ltac:(lia) Hn) as Hlb.
    destruct (Hvals v (or_introl eq_refl)) as (vb & vr & Hvb & Hser & Hpar).
    exists (mkBuilder (label_bits label n ++ vb) vr). split.
    + cbn [writeEdge]. unfold beginCell.
      rewrite writeLabel_ok by (cbn [length]; lia).
      cbn [bind app]. apply Hser. lia.
    + unfold beginParse, endCell.
      cbn [doParse builder_bits builder_refs cell_bits cell_refs].
      rewrite readLabel_label_bits by lia. cbn [bind].
      replace (n <? length label)%nat with false
        by (symmetry; apply Nat.ltb_ge; lia).
      replace (n - length label =? 0)%nat with true
        by (symmetry; apply Nat.eqb_eq; lia).
      rewrite Hpar. reflexivity.
  - cbn [edge_wf] in Hwf. destruct Hwf as (Hlen & Hwfl & Hwfr).
    pose proof (label_fits label n ltac:(lia) Hn) as Hlb.
    cbn [edge_values] in Hvals.
    destruct (IHl (n - length label - 1)%nat ((prefix ++ label) ++ [false])
                res fuel ltac:(lia) Hwfl
                (fun v Hv => Hvals v (in_or_app _ _ _ (or_introl Hv)))
                ltac:(lia)) as (bl & Hwl & Hpl).
    destruct (IHr (n - length label - 1)%nat ((prefix ++ label) ++ [true])
                (fill res (entries l ((prefix ++ label) ++ [false]))) fuel
                ltac:(lia) Hwfr
                (fun v Hv => Hvals v (in_or_app _ _ _ (or_intror Hv)))
                ltac:(lia)) as (br & Hwr & Hpr).
    exists (mkBuilder (label_bits label n) [endCell bl; endCell br]). split.
    + cbn [writeEdge]. unfold beginCell at 1.
      rewrite writeLabel_ok by (cbn [length]; lia).
      cbn [bind app]. rewrite Hwl, Hwr. reflexivity.
    + rewrite (beginParse_endCell (mkBuilder _ [endCell bl; endCell br])).
      cbn [doParse builder_bits builder_refs].
      rewrite <- (app_nil_r (label_bits label n)).
      rewrite readLabel_label_bits by lia. cbn [bind].
      replace (n <? length label)%nat with false
        by (symmetry; apply Nat.ltb_ge; lia).
      replace (n - length label =? 0)%nat with false
        by (symmetry; apply Nat.eqb_neq; lia).
      cbn [loadRef slice_refs slice_bits bind].
      rewrite Hpl. cbn [bind]. rewrite Hpr.
      cbn [entries]. now rewrite fill_app.
Qed.

End WriteParse.

(** ** The leaves of a trie are in ascending key order *)

Lemma uint_of_bits_app (a b : list bool) :
  uint_of_bits (a ++ b)
  = uint_of_bits a * 2 ^ Z.of_nat (length b) + uint_of_bits b.
Proof.
  unfold uint_of_bits at 1. rewrite fold_left_app.
  fold (uint_of_bits a). apply uint_of_bits_acc.
Qed.

Lemma StronglySorted_app {A : Type} (R : A -> A -> Prop) (l r : list A) :
  StronglySorted R l -> StronglySorted R r ->
  (forall a b, In a l -> In b r -> R a b) ->
  StronglySorted R (l ++ r).
Proof.
  intros Hl Hr Hlr. induction l as [|x l IH]; [exact Hr|].
  apply StronglySorted_inv in Hl. destruct Hl as [Hl Hx].
  cbn [app]. constructor.
  - apply IH; [exact Hl|]. intros a b Ha Hb. apply Hlr; [now right | exact Hb].
  - apply Forall_app. split; [exact Hx|].
    apply Forall_forall. intros b Hb. apply Hlr; [now left | exact Hb].
Qed.

Lemma entries_keys {V : Type} (e : Edge V) :
  forall n prefix kv,
    edge_wf n e -> In kv (entries e prefix) ->
    exists s, fst kv = prefix ++ s /\ length s = n.
Proof.
  induction e as [label v|label l IHl r IHr]; intros n prefix kv Hwf Hin.
  - cbn [entries In] in Hin. destruct Hin as [<-|[]].
    exists label. split; [reflexivity | exact Hwf].
  - cbn [edge_wf] in Hwf. destruct Hwf as (Hlen & Hwfl & Hwfr).
    cbn [entries] in Hin. apply in_app_or in Hin.
    destruct Hin as [Hin|Hin].
    + destruct (IHl _ _ _ Hwfl Hin) as (s & Hs & Hls).
      exists (label ++ false :: s). split.
      * rewrite Hs, <- !app_assoc. reflexivity.
      * rewrite length_app. cbn [length]. lia.
    + destruct (IHr _ _ _ Hwfr Hin) as (s & Hs & Hls).
      exists (label ++ true :: s). split.
      * rewrite Hs, <- !app_assoc. reflexivity.
      * rewrite length_app. cbn [length]. lia.
Qed.

Lemma entries_sorted {V : Type} (e : Edge V) :
  forall n prefix,
    edge_wf n e ->
    StronglySorted Z.lt
      (map (fun kv => uint_of_bits (fst kv)) (entries e prefix)).
Proof.
  induction e as [label v|label l IHl r IHr]; intros n prefix Hwf.
  - cbn [entries map]. constructor; constructor.
  - pose proof Hwf as Hwf'. cbn [edge_wf] in Hwf'.
    destruct Hwf' as (Hlen & Hwfl & Hwfr).
    cbn [entries]. rewrite map_app.
    apply StronglySorted_app; [now apply (IHl _ _ Hwfl)
                              | now apply (IHr _ _ Hwfr) |].
    intros a b Ha Hb. apply in_map_iff in Ha, Hb.
    destruct Ha as (kva & <- & Hkva), Hb as (kvb & <- & Hkvb).
    destruct (entries_keys l _ _ _ Hwfl Hkva) as (sa & -> & Hsa).
    destruct (entries_keys r _ _ _ Hwfr Hkvb) as (sb & -> & Hsb).
    rewrite !uint_of_bits_app, Hsa, Hsb. cbn [length].
    change (uint_of_bits [false]) with 0. change (uint_of_bits [true]) with 1.
    pose proof (uint_of_bits_range sa) as Hra. rewrite Hsa in Hra.
    pose proof (uint_of_bits_range sb) as Hrb. rewrite Hsb in Hrb.
    change (2 ^ Z.of_nat 1) with 2.
    set (P := uint_of_bits (prefix ++ label)).
    set (W := 2 ^ Z.of_nat (n - length label - 1)) in *.
    nia.
Qed.

(** ** Building the trie *)

Lemma commonPrefix_l (a b : list bool) :
  exists s, a = commonPrefix a b ++ s.
Proof.
  revert b. induction a as [|x a IH]; intros [|y b];
    try (now eexists; cbn [commonPrefix app]).
  cbn [commonPrefix]. destruct (Bool.eqb x y).
  - destruct (IH b) as [s Hs]. exists s. cbn [app]. now rewrite <- Hs.
  - now eexists.
Qed.

Lemma commonPrefix_r (a b : list bool) :
  exists s, b = commonPrefix a b ++ s.
Proof.
  revert b. induction a as [|x a IH]; intros [|y b];
    try (now eexists; cbn [commonPrefix app]).
  cbn [commonPrefix]. destruct (Bool.eqb x y) eqn:E.
  - apply Bool.eqb_prop in E. subst y.
    destruct (IH b) as [s Hs]. exists s. cbn [app]. now rewrite <- Hs.
  - now eexists.
Qed.

Lemma commonPrefix_max (p a b : list bool) :
  (exists s, a = p ++ s) -> (exists s, b = p ++ s) ->
  exists s, commonPrefix a b = p ++ s.
Proof.
  intros [sa ->] [sb ->]. induction p as [|x p IH].
  - now eexists.
  - cbn [app commonPrefix]. rewrite Bool.eqb_reflx.
    destruct IH as [s Hs]. exists s. now rewrite Hs.
Qed.

Lemma fold_commonPrefix_acc (ks : list (list bool)) (acc : list bool) :
  exists s, acc = fold_left commonPrefix ks acc ++ s.
Proof.
  revert acc. induction ks as [|k ks IH]; intros acc.
  - exists []. cbn. now rewrite app_nil_r.
  - cbn [fold_left]. destruct (IH (commonPrefix acc k)) as [s Hs].
    destruct (commonPrefix_l acc k) as [t Ht].
    exists (s ++ t). rewrite app_assoc, <- Hs. exact Ht.
Qed.

Lemma fold_commonPrefix_elem (ks : list (list bool)) (acc k : list bool) :
  In k ks -> exists s, k = fold_left commonPrefix ks acc ++ s.
Proof.
  revert acc. induction ks as [|k' ks IH]; intros acc; [intros []|].
  cbn [fold_left]. intros [->|Hin].
  - destruct (fold_commonPrefix_acc ks (commonPrefix acc k)) as [s Hs].
    destruct (commonPrefix_r acc k) as [t Ht].
    exists (s ++ t). rewrite app_assoc, <- Hs. exact Ht.
  - now apply IH.
Qed.

Lemma fold_commonPrefix_max (p : list bool) (ks : list (list bool))
    (acc : list bool) :
  (exists s, acc = p ++ s) ->
  (forall k, In k ks -> exists s, k = p ++ s) ->
  exists s, fold_left commonPrefix ks acc = p ++ s.
Proof.
  revert acc. induction ks as [|k ks IH]; intros acc Hacc Hks.
  - exact Hacc.
  - cbn [fold_left]. apply IH.
    + apply commonPrefix_max; [exact Hacc | apply Hks; now left].
    + intros k' Hk'. apply Hks. now right.
Qed.

(** The label of an edge is a prefix of every key below it ... *)
Lemma findCommonPrefix_prefix (ks : list (list bool)) (k : list bool) :
  In k ks -> exists s, k = findCommonPrefix ks ++ s.
Proof.
  destruct ks as [|k0 ks]; [intros []|]. cbn [findCommonPrefix].
  intros [<-|Hin].
  - apply fold_commonPrefix_acc.
  - now apply fold_commonPrefix_elem.
Qed.

(** ... and the longest one. *)
Lemma findCommonPrefix_max (p : list bool) (ks : list (list bool)) :
  ks <> [] ->
  (forall k, In k ks -> exists s, k = p ++ s) ->
  (length p <= length (findCommonPrefix ks))%nat.
Proof.
  destruct ks as [|k0 ks]; [congruence|]. intros _ Hks.
  cbn [findCommonPrefix].
  destruct (fold_commonPrefix_max p ks k0) as [s Hs].
  - apply Hks. now left.
  - intros k Hk. apply Hks. now right.
  - rewrite Hs, length_app. lia.
Qed.

Lemma filter_partition_perm {A : Type} (f : A -> bool) (l : list A) :
  Permutation (filter f l ++ filter (fun x => negb (f x)) l) l.
Proof.
  induction l as [|x l IH]; [constructor|].
  cbn [filter]. destruct (f x); cbn [negb app].
  - now constructor.
  - apply Permutation_sym, Permutation_cons_app, Permutation_sym, IH.
Qed.

Lemma NoDup_map_fst_filter {A B : Type} (f : A * B -> bool)
    (l : list (A * B)) :
  NoDup (map fst l) -> NoDup (map fst (filter f l)).
Proof.
  induction l as [|x l IH]; [trivial|]. cbn [map filter].
  intros Hnd. inversion Hnd as [|? ? Hnotin Hnd']; subst.
  destruct (f x); [|now apply IH].
  cbn [map]. constructor; [|now apply IH].
  intros Hin. apply Hnotin. apply in_map_iff in Hin.
  destruct Hin as (y & Hy & Hfy). apply filter_In in Hfy.
  apply in_map_iff. exists y. tauto.
Qed.

Lemma startsWith0_true (k : list bool) :
  startsWith0 k = true -> exists t, k = false :: t.
Proof. destruct k as [|[] t]; try discriminate. now eexists. Qed.

Lemma startsWith0_false (k : list bool) :
  startsWith0 k = false -> k = [] \/ exists t, k = true :: t.
Proof.
  destruct k as [|[] t]; try discriminate; [now left | right; now eexists].
Qed.

Section Build.

Variable V : Type.

Implicit Types (src : list (list bool * V)) (kv : list bool * V).

Lemma removePrefixMap_fst src (len : nat) :
  map fst (removePrefixMap src len) = map (skipn len) (map fst src).
Proof. unfold removePrefixMap. now rewrite !map_map. Qed.

(** The keys below an edge, stripped of the label. *)
Lemma stripped_keys src (m : nat) :
  (forall kv, In kv src -> length (fst kv) = m) ->
  NoDup (map fst src) ->
  let label := findCommonPrefix (map fst src) in
  let src' := removePrefixMap src (length label) in
  (forall kv, In kv src -> fst kv = label ++ skipn (length label) (fst kv))
  /\ (forall kv, In kv src' -> length (fst kv) = (m - length label)%nat)
  /\ NoDup (map fst src').
Proof.
  intros Hlen Hnd label src'.
  assert (Hsplit : forall kv, In kv src ->
             fst kv = label ++ skipn (length label) (fst kv)).
  { intros kv Hkv.
    destruct (findCommonPrefix_prefix (map fst src) (fst kv)) as [s Hs].
    - now apply in_map.
    - fold label in Hs. rewrite Hs at 2.
      now rewrite skipn_app_exact by reflexivity. }
  split; [exact Hsplit|]. split.
  - intros kv' Hkv'. unfold src', removePrefixMap in Hkv'.
    apply in_map_iff in Hkv'. destruct Hkv' as (kv & <- & Hkv).
    cbn [fst]. rewrite length_skipn. now rewrite (Hlen kv Hkv).
  - unfold src'. rewrite removePrefixMap_fst.
    apply NoDup_map_NoDup_ForallPairs; [|exact Hnd].
    intros a b Ha Hb Heq. apply in_map_iff in Ha, Hb.
    destruct Ha as (kva & <- & Hkva), Hb as (kvb & <- & Hkvb).
    rewrite (Hsplit kva Hkva), (Hsplit kvb Hkvb). now rewrite Heq.
Qed.

(** Below a label that is the longest common prefix, two or more
    distinct keys cannot all go on with the same bit. *)
Lemma stripped_keys_fork src (b : bool) :
  src <> [] ->
  let label := findCommonPrefix (map fst src) in
  (forall kv, In kv (removePrefixMap src (length label)) ->
     exists t, fst kv = b :: t) ->
  (forall kv, In kv src ->
     fst kv = label ++ skipn (length label) (fst kv)) ->
  False.
Proof.
  intros Hne label Hall Hsplit.
  assert (Hmax : (length (label ++ [b])
                  <= length (findCommonPrefix (map fst src)))%nat).
  { apply findCommonPrefix_max.
    - destruct src; [congruence | discriminate].
    - intros k Hk. apply in_map_iff in Hk. destruct Hk as (kv & <- & Hkv).
      destruct (Hall (skipn (length label) (fst kv), snd kv)) as [t Ht].
      + unfold removePrefixMap. apply in_map_iff. now exists kv.
      + cbn [fst] in Ht. exists t.
        rewrite (Hsplit kv Hkv) at 1. rewrite Ht, <- app_assoc.
        reflexivity. }
  fold label in Hmax. rewrite length_app in Hmax. cbn [length] in Hmax. lia.
Qed.

Lemma buildEdge_two (fuel : nat) src kv1 kv2 rest :
  src = kv1 :: kv2 :: rest ->
  buildEdge (S fuel) src
  = let label := findCommonPrefix (map fst src) in
    let src' := removePrefixMap src (length label) in
    let left := filter (fun kv => startsWith0 (fst kv)) src' in
    let right := filter (fun kv => negb (startsWith0 (fst kv))) src' in
    match left, right with
    | [], _ | _, [] => Throw inconsistency
    | _, _ =>
        l <- buildEdge fuel (removePrefixMap left 1) ;;
        r <- buildEdge fuel (removePrefixMap right 1) ;;
        Ok (EFork label l r)
    end.
Proof. intros ->. reflexivity. Qed.

(** One side of a fork: the keys that go on with [b], without [b]. *)
Lemma fork_side (part : list (list bool * V)) (b : bool) (n : nat) :
  (forall kv, In kv part -> exists t, fst kv = b :: t) ->
  (forall kv, In kv part -> length (fst kv) = n) ->
  NoDup (map fst part) ->
  (forall kv, In kv (removePrefixMap part 1) ->
     length (fst kv) = (n - 1)%nat)
  /\ NoDup (map fst (removePrefixMap part 1))
  /\ forall p,
       map (fun kv => ((p ++ [b]) ++ fst kv, snd kv))
         (removePrefixMap part 1)
       = map (fun kv => (p ++ fst kv, snd kv)) part.
Proof.
  intros Hb Hlen Hnd. split; [|split].
  - intros kv' Hkv'. unfold removePrefixMap in Hkv'.
    apply in_map_iff in Hkv'. destruct Hkv' as (kv & <- & Hkv).
    cbn [fst]. rewrite length_skipn. now rewrite (Hlen kv Hkv).
  - rewrite removePrefixMap_fst.
    apply NoDup_map_NoDup_ForallPairs; [|exact Hnd].
    intros x y Hx Hy Heq. apply in_map_iff in Hx, Hy.
    destruct Hx as (kx & <- & Hkx), Hy as (ky & <- & Hky).
    destruct (Hb kx Hkx) as [tx Htx], (Hb ky Hky) as [ty Hty].
    rewrite Htx, Hty in *. cbn [skipn] in Heq. now rewrite Heq.
  - intros p. unfold removePrefixMap. rewrite map_map.
    apply map_ext_in. intros kv Hkv. cbn [fst snd].
    destruct (Hb kv Hkv) as [t Ht]. rewrite Ht. cbn [skipn].
    now rewrite <- app_assoc.
Qed.

Lemma buildEdge_spec (fuel : nat) :
  forall (m : nat) src,
    (m < fuel)%nat -> src <> [] ->
    (forall kv, In kv src -> length (fst kv) = m) ->
    NoDup (map fst src) ->
    exists e,
      buildEdge fuel src = Ok e /\ edge_wf m e
      /\ forall prefix,
           Permutation (entries e prefix)
             (map (fun kv => (prefix ++ fst kv, snd kv)) src).
Proof.
  induction fuel as [|fuel IH]; intros m src Hfuel Hne Hlen Hnd; [lia|].
  destruct (stripped_keys src m Hlen Hnd) as (Hsplit & Hlen' & Hnd').
  destruct src as [|kv1 [|kv2 rest]]; [congruence| |].
  - exists (ELeaf (fst kv1) (snd kv1)). split; [reflexivity|]. split.
    + cbn [edge_wf]. apply Hlen. now left.
    + intros prefix. apply Permutation_refl.
  - rewrite (buildEdge_two fuel _ kv1 kv2 rest eq_refl). cbv zeta.
    set (src := kv1 :: kv2 :: rest) in *.
    set (label := findCommonPrefix (map fst src)) in *.
    set (src' := removePrefixMap src (length label)) in *.
    set (left := filter (fun kv => startsWith0 (fst kv)) src').
    set (right := filter (fun kv => negb (startsWith0 (fst kv))) src').
    assert (Hright : right <> []).
    { intros Hnil. apply (stripped_keys_fork src false Hne); [|exact Hsplit].
      intros kv Hkv. apply startsWith0_true.
      destruct (startsWith0 (fst kv)) eqn:E; [reflexivity|].
      assert (Hin : In kv right)
        by (apply filter_In; split; [exact Hkv | now rewrite E]).
      rewrite Hnil in Hin. destruct Hin. }
    assert (Hpos : (length label < m)%nat).
    { destruct right as [|kv right'] eqn:Eright; [congruence|].
      assert (Hin : In kv right) by (rewrite Eright; now left).
      apply filter_In in Hin. destruct Hin as [Hin _].
      pose proof (Hlen' kv Hin) as Hl.
      destruct (Nat.eq_dec (m - length label) 0) as [Hz|]; [|lia].
      exfalso. rewrite Hz in Hlen'.
      assert (Hk1 : fst (skipn (length label) (fst kv1), snd kv1) = [])
        by (apply length_zero_iff_nil, Hlen'; now left).
      assert (Hk2 : fst (skipn (length label) (fst kv2), snd kv2) = [])
        by (apply length_zero_iff_nil, Hlen'; right; now left).
      cbn [fst] in Hk1, Hk2. unfold src', src in Hnd'.
      cbn [removePrefixMap map fst] in Hnd'. rewrite Hk1, Hk2 in Hnd'.
      inversion Hnd' as [|? ? Hnotin _]. apply Hnotin. now left. }
    assert (Hleft : left <> []).
    { intros Hnil. apply (stripped_keys_fork src true Hne); [|exact Hsplit].
      intros kv Hkv.
      destruct (startsWith0 (fst kv)) eqn:E.
      - assert (Hin : In kv left) by (apply filter_In; now split).
        rewrite Hnil in Hin. destruct Hin.
      - apply startsWith0_false in E. destruct E as [E|E]; [|exact E].
        pose proof (Hlen' kv Hkv) as Hl. rewrite E in Hl.
        cbn [length] in Hl. lia. }
    assert (Hleft0 : forall kv, In kv left -> exists t, fst kv = false :: t).
    { intros kv Hkv. apply filter_In in Hkv. now apply startsWith0_true. }
    assert (Hright1 : forall kv, In kv right -> exists t, fst kv = true :: t).
    { intros kv Hkv. apply filter_In in Hkv. destruct Hkv as [Hkv E].
      apply negb_true_iff, startsWith0_false in E.
      destruct E as [E|E]; [|exact E].
      pose proof (Hlen' kv Hkv) as Hl. rewrite E in Hl.
      cbn [length] in Hl. lia. }
    destruct (fork_side left false (m - length label)%nat Hleft0)
      as (Hlenl & Hndl & Hmapl).
    { intros kv Hkv. apply filter_In in Hkv. now apply Hlen'. }
    { now apply NoDup_map_fst_filter. }
    destruct (fork_side right true (m - length label)%nat Hright1)
      as (Hlenr & Hndr & Hmapr).
    { intros kv Hkv. apply filter_In in Hkv. now apply Hlen'. }
    { now apply NoDup_map_fst_filter. }
    destruct (IH (m - length label - 1)%nat (removePrefixMap left 1))
      as (l & Hl & Hwfl & Hpl); [lia| | | exact Hndl |].
    { destruct left; [congruence | discriminate]. }
    { intros kv Hkv. rewrite (Hlenl kv Hkv). lia. }
    destruct (IH (m - length label - 1)%nat (removePrefixMap right 1))
      as (r & Hr & Hwfr & Hpr); [lia| | | exact Hndr |].
    { destruct right; [congruence | discriminate]. }
    { intros kv Hkv. rewrite (Hlenr kv Hkv). lia. }
    exists (EFork label l r). split; [|split].
    + rewrite Hl, Hr. destruct left; [congruence|].
      destruct right; [congruence|]. reflexivity.
    + cbn [edge_wf]. auto.
    + intros prefix. cbn [entries].
      rewrite (Hpl ((prefix ++ label) ++ [false])),
        (Hpr ((prefix ++ label) ++ [true])), Hmapl, Hmapr, <- map_app.
      etransitivity.
      { apply Permutation_map.
        exact (filter_partition_perm (fun kv => startsWith0 (fst kv)) src'). }
      unfold src', removePrefixMap. rewrite map_map.
      erewrite map_ext_in; [apply Permutation_refl|].
      intros kv Hkv. cbn [fst snd].
      rewrite (Hsplit kv Hkv) at 2. now rewrite <- app_assoc.
Qed.

End Build.

(** ** Maps in insertion order *)

Section Maps.

Variable V : Type.

Implicit Types (m : list (Z * V)) (k : Z) (v : V).

Lemma Map_set_new m k v :
  ~ In k (map fst m) -> Map_set m k v = m ++ [(k, v)].
Proof.
  induction m as [|[k' v'] m IH]; intros Hnotin; [reflexivity|].
  cbn [Map_set app]. cbn [map fst In] in Hnotin.
  destruct (Z.eqb_spec k' k) as [->|_]; [tauto|].
  rewrite IH by tauto. reflexivity.
Qed.

Lemma Map_get_set_eq m k v : Map_get (Map_set m k v) k = Some v.
Proof.
  induction m as [|[k' v'] m IH]; cbn [Map_set Map_get].
  - now rewrite Z.eqb_refl.
  - destruct (Z.eqb_spec k' k) as [->|Hne]; cbn [Map_get].
    + now rewrite Z.eqb_refl.
    + destruct (Z.eqb_spec k' k); [contradiction | exact IH].
Qed.

Lemma Map_get_set_neq m k k' v :
  k' <> k -> Map_get (Map_set m k v) k' = Map_get m k'.
Proof.
  intros Hne. induction m as [|[k0 v0] m IH]; cbn [Map_set Map_get].
  - destruct (Z.eqb_spec k k'); [congruence | reflexivity].
  - destruct (Z.eqb_spec k0 k) as [->|Hne0]; cbn [Map_get].
    + destruct (Z.eqb_spec k k'); [congruence | reflexivity].
    + destruct (Z.eqb_spec k0 k'); [reflexivity | exact IH].
Qed.

Lemma Map_set_keys m k v k' :
  In k' (map fst (Map_set m k v)) <-> In k' (map fst m) \/ k' = k.
Proof.
  induction m as [|[k0 v0] m IH]; cbn [Map_set map fst In].
  - intuition congruence.
  - destruct (Z.eqb_spec k0 k) as [->|Hne]; cbn [map fst In].
    + intuition congruence.
    + rewrite IH. tauto.
Qed.

Lemma Map_set_NoDup m k v :
  NoDup (map fst m) -> NoDup (map fst (Map_set m k v)).
Proof.
  induction m as [|[k0 v0] m IH]; cbn [Map_set map fst]; intros Hnd.
  - constructor; [intros [] | constructor].
  - inversion Hnd as [|? ? Hnotin Hnd']; subst.
    destruct (Z.eqb_spec k0 k) as [->|Hne]; cbn [map fst].
    + now constructor.
    + constructor; [|now apply IH].
      rewrite Map_set_keys. intros [Hin|Heq]; [tauto | congruence].
Qed.

Lemma Map_get_In m k v :
  NoDup (map fst m) -> (Map_get m k = Some v <-> In (k, v) m).
Proof.
  induction m as [|[k0 v0] m IH]; cbn [Map_get map fst In]; intros Hnd.
  - split; [discriminate | intros []].
  - inversion Hnd as [|? ? Hnotin Hnd']; subst.
    destruct (Z.eqb_spec k0 k) as [->|Hne].
    + split; [intros [= ->]; now left|].
      intros [[= ->]|Hin]; [reflexivity|].
      exfalso. apply Hnotin. apply in_map_iff. now exists (k, v).
    + rewrite (IH Hnd'). split; [tauto|].
      intros [[= -> ->]|Hin]; [congruence | exact Hin].
Qed.

Lemma Map_get_None m k : Map_get m k = None <-> ~ In k (map fst m).
Proof.
  induction m as [|[k0 v0] m IH]; cbn [Map_get map fst In].
  - tauto.
  - destruct (Z.eqb_spec k0 k) as [->|Hne].
    + split; [discriminate | tauto].
    + rewrite IH. tauto.
Qed.

(** Looking a key up does not depend on the order of the entries. *)
Lemma Map_get_perm (a b : list (Z * V)) k :
  NoDup (map fst a) -> Permutation a b -> Map_get a k = Map_get b k.
Proof.
  intros Hnd Hperm.
  assert (Hndb : NoDup (map fst b))
    by (eapply Permutation_NoDup; [apply Permutation_map, Hperm | exact Hnd]).
  destruct (Map_get a k) as [v|] eqn:Ea.
  - symmetry. apply (Map_get_In b k v Hndb).
    apply (Permutation_in _ Hperm). now apply (Map_get_In a k v Hnd).
  - symmetry. apply Map_get_None. apply Map_get_None in Ea.
    intros Hin. apply Ea.
    apply (Permutation_in _ (Permutation_sym (Permutation_map fst Hperm))).
    exact Hin.
Qed.

(** Setting entries with new, distinct keys appends them in order. *)
Lemma fold_Map_set_fresh {A : Type} (g : A -> Z) (l : list (A * V)) :
  forall acc,
    NoDup (map fst acc ++ map (fun kv => g (fst kv)) l) ->
    fold_left (fun m kv => Map_set m (g (fst kv)) (snd kv)) l acc
    = acc ++ map (fun kv => (g (fst kv), snd kv)) l.
Proof.
  induction l as [|kv l IH]; intros acc Hnd; cbn [fold_left map].
  - now rewrite app_nil_r.
  - cbn [map] in Hnd. rewrite Map_set_new.
    + rewrite IH.
      * now rewrite <- app_assoc.
      * rewrite map_app. cbn [map fst]. rewrite <- app_assoc. exact Hnd.
    + apply NoDup_remove_2 in Hnd. rewrite in_app_iff in Hnd. tauto.
Qed.

Lemma fold_Map_set_NoDup {A : Type} (g : A -> Z) (l : list (A * V)) :
  forall acc,
    NoDup (map fst acc) ->
    NoDup (map fst
             (fold_left (fun m kv => Map_set m (g (fst kv)) (snd kv)) l
                acc)).
Proof.
  induction l as [|kv l IH]; intros acc Hnd; cbn [fold_left].
  - exact Hnd.
  - apply IH. now apply Map_set_NoDup.
Qed.

End Maps.

(** ** Storing a dictionary and loading it again *)

Section StoreLoad.

Variable V : Type.
Variable key : DictionaryKey.
Variable value : DictionaryValue V.

Hypothesis key_bits_fit :
  (2 + lenBits (key_bits key) + key_bits key <= 1023)%nat.

Let n := key_bits key.
Let enc := key_image key.

Lemma key_fits_image (k : Z) :
  key_fits key k ->
  key_serialize key k = Ok (enc k)
  /\ 0 <= enc k < 2 ^ Z.of_nat n
  /\ key_parse key (enc k) = k.
Proof.
  intros (u & Hser & Hrange & Hparse). unfold enc, key_image.
  rewrite Hser. auto.
Qed.

Lemma enc_inj (a b : Z) :
  key_fits key a -> key_fits key b -> enc a = enc b -> a = b.
Proof.
  intros Ha Hb Heq.
  destruct (key_fits_image a Ha) as (_ & _ & <-).
  destruct (key_fits_image b Hb) as (_ & _ & <-). now rewrite Heq.
Qed.

Lemma prepareKeys_ok (d : list (Z * V)) :
  forall prepared,
    (forall kv, In kv d -> key_fits key (fst kv)) ->
    NoDup (map fst prepared ++ map (fun kv => enc (fst kv)) d) ->
    prepareKeys key d prepared
    = Ok (prepared ++ map (fun kv => (enc (fst kv), snd kv)) d).
Proof.
  induction d as [|[k v] d IH]; intros prepared Hfit Hnd;
    cbn [prepareKeys map].
  - now rewrite app_nil_r.
  - destruct (key_fits_image k (Hfit (k, v) (or_introl eq_refl)))
      as (Hser & _ & _).
    rewrite Hser. cbn [bind fst snd]. cbn [map fst] in Hnd.
    rewrite Map_set_new
      by (apply NoDup_remove_2 in Hnd; rewrite in_app_iff in Hnd; tauto).
    rewrite IH.
    + now rewrite <- app_assoc.
    + intros kv Hkv. apply Hfit. now right.
    + rewrite map_app. cbn [map fst]. rewrite <- app_assoc. exact Hnd.
Qed.

(** A stored dictionary is loaded with the entries it had, in the order
    of the trie: ascending in the unsigned images of the keys. *)
Theorem storeDictDirect_loadDictDirect (d : Dictionary V) :
  d <> [] ->
  NoDup (map fst d) ->
  (forall kv, In kv d -> key_fits key (fst kv)) ->
  (forall kv, In kv d -> value_fits value n (snd kv)) ->
  exists b d',
    storeDictDirect beginCell key value d = Ok b
    /\ loadDictDirect (beginParse (endCell b)) key value = Ok d'
    /\ Permutation d' d
    /\ StronglySorted Z.lt (map (fun kv => key_image key (fst kv)) d').
Proof.
  intros Hne Hnd Hkeys Hvals.
  set (prepared := map (fun kv => (enc (fst kv), snd kv)) d).
  set (srcbits :=
         map (fun kv => (bits_of_uint n (fst kv), snd kv)) prepared).
  assert (Hndenc : NoDup (map (fun kv => enc (fst kv)) d)).
  { rewrite <- (map_map fst enc).
    apply NoDup_map_NoDup_ForallPairs; [|exact Hnd].
    intros a b Ha Hb. apply in_map_iff in Ha, Hb.
    destruct Ha as (kva & <- & Hkva), Hb as (kvb & <- & Hkvb).
    apply enc_inj; auto. }
  assert (Hprep : prepareKeys key d [] = Ok prepared).
  { now rewrite prepareKeys_ok. }
  assert (Hrange : forall kv, In kv prepared ->
             0 <= fst kv < 2 ^ Z.of_nat n).
  { intros kv Hkv. apply in_map_iff in Hkv. destruct Hkv as (kv0 & <- & Hkv0).
    now destruct (key_fits_image _ (Hkeys kv0 Hkv0)) as (_ & ? & _). }
  assert (Hndprep : NoDup (map fst prepared)).
  { unfold prepared. now rewrite map_map. }
  destruct (buildEdge_spec V (S n) n srcbits) as (e & He & Hwf & Hperm).
  { lia. }
  { unfold srcbits, prepared. destruct d; [congruence | discriminate]. }
  { intros kv Hkv. apply in_map_iff in Hkv. destruct Hkv as (kv0 & <- & _).
    apply length_bits_of_uint. }
  { unfold srcbits. rewrite map_map. cbn [fst].
    rewrite <- (map_map fst (bits_of_uint n)).
    apply NoDup_map_NoDup_ForallPairs; [|exact Hndprep].
    intros a b Ha Hb. apply in_map_iff in Ha, Hb.
    destruct Ha as (kva & <- & Hkva), Hb as (kvb & <- & Hkvb).
    apply bits_of_uint_inj; auto. }
  assert (Hentries : Permutation (entries e []) srcbits).
  { rewrite (Hperm []). erewrite map_ext; [rewrite map_id; reflexivity|].
    now intros [k v]. }
  destruct (writeEdge_doParse V value n key_bits_fit e n [] [] (S n))
    as (b & Hwrite & Hparse); [lia | exact Hwf | | lia |].
  { intros v Hv. rewrite <- (entries_values e []) in Hv.
    apply (Permutation_in _ (Permutation_map snd Hentries)) in Hv.
    unfold srcbits, prepared in Hv. rewrite !map_map in Hv. cbn [snd] in Hv.
    apply in_map_iff in Hv. destruct Hv as (kv & <- & Hkv).
    now apply Hvals. }
  set (values := map (fun kv => (uint_of_bits (fst kv), snd kv))
                   (entries e [])).
  assert (Hvalues : Permutation values prepared).
  { unfold values. rewrite Hentries. unfold srcbits. rewrite map_map.
    erewrite map_ext_in; [rewrite map_id; reflexivity|].
    intros [u v] Hkv. cbn [fst snd].
    now rewrite uint_of_bits_of_uint by apply (Hrange _ Hkv). }
  assert (Hfill : fill [] (entries e []) = values).
  { unfold fill. rewrite fold_Map_set_fresh; [reflexivity|].
    cbn [map app].
    replace (map (fun kv => uint_of_bits (fst kv)) (entries e []))
      with (map fst values) by (unfold values; now rewrite map_map).
    eapply Permutation_NoDup; [|exact Hndprep].
    apply Permutation_sym, Permutation_map, Hvalues. }
  exists b, (map (fun kv => (key_parse key (fst kv), snd kv)) values).
  split; [|split; [|split]].
  - unfold storeDictDirect. destruct d as [|kv0 d0]; [congruence|].
    rewrite Hprep. cbn [bind]. unfold serializeDict, buildTree.
    fold n. fold srcbits. rewrite He. cbn [bind]. exact Hwrite.
  - unfold loadDictDirect, Dictionary_loadDirect, parseDict. fold n.
    rewrite Hparse, Hfill. cbn [bind]. f_equal.
    rewrite fold_Map_set_fresh; [reflexivity|]. cbn [map app].
    eapply Permutation_NoDup.
    + apply Permutation_sym, (Permutation_map _ Hvalues).
    + unfold prepared. rewrite !map_map. cbn [fst].
      erewrite map_ext_in; [exact Hnd|].
      intros kv Hkv. cbn.
      now destruct (key_fits_image _ (Hkeys kv Hkv)) as (_ & _ & ->).
  - rewrite Hvalues. unfold prepared. rewrite map_map. cbn [fst snd].
    erewrite map_ext_in; [rewrite map_id; reflexivity|].
    intros [k v] Hkv. cbn [fst snd].
    destruct (key_fits_image _ (Hkeys _ Hkv)) as (_ & _ & Hp).
    cbn [fst] in Hp. now rewrite Hp.
  - rewrite map_map. cbn [fst].
    replace (map (fun kv => key_image key (key_parse key (fst kv))) values)
      with (map fst values).
    + unfold values. rewrite map_map. cbn [fst].
      apply (entries_sorted e n [] Hwf).
    + apply map_ext_in. intros kv Hkv.
      apply (Permutation_in _ Hvalues) in Hkv.
      unfold prepared in Hkv. apply in_map_iff in Hkv.
      destruct Hkv as (kv0 & <- & Hkv0). cbn [fst].
      destruct (key_fits_image _ (Hkeys _ Hkv0)) as (_ & _ & Hp).
      now rewrite Hp.
Qed.

End StoreLoad.

(** ** Dictionaries as they come out of a cell *)

(** The fuel of [doParse] is never exhausted: above the number of key
    bits left, the result does not depend on it. *)
Lemma doParse_fuel {V : Type} (extractor : Slice -> Res V) (fuel1 : nat) :
  forall fuel2 prefix s n res,
    (n < fuel1)%nat -> (n < fuel2)%nat ->
    doParse fuel1 prefix s n res extractor
    = doParse fuel2 prefix s n res extractor.
Proof.
  induction fuel1 as [|fuel1 IH]; intros fuel2 prefix s n res H1 H2; [lia|].
  destruct fuel2 as [|fuel2]; [lia|]. cbn [doParse].
  destruct (readLabel s n) as [[label s1]|e]; cbn [bind]; [|reflexivity].
  destruct (n <? length label)%nat; [reflexivity|].
  destruct (Nat.eqb_spec (n - length label) 0) as [|Hnz]; [reflexivity|].
  destruct (loadRef s1) as [[l s2]|e]; cbn [bind]; [|reflexivity].
  destruct (loadRef s2) as [[r s3]|e]; cbn [bind]; [|reflexivity].
  rewrite (IH fuel2) by lia.
  destruct (doParse fuel2 ((prefix ++ label) ++ [false]) (beginParse l)
              (n - length label - 1) res extractor) as [res1|e];
    cbn [bind]; [|reflexivity].
  apply IH; lia.
Qed.

Lemma doParse_keys {V : Type} (extractor : Slice -> Res V) (fuel : nat) :
  forall prefix s n res res',
    doParse fuel prefix s n res extractor = Ok res' ->
    forall k, In k (map fst res') ->
      In k (map fst res) \/ 0 <= k < 2 ^ Z.of_nat (length prefix + n).
Proof.
  induction fuel as [|fuel IH]; intros prefix s n res res' Hparse k Hk;
    [discriminate|].
  cbn [doParse] in Hparse.
  apply bind_ok in Hparse. destruct Hparse as ([label s1] & _ & Hparse).
  destruct (Nat.ltb_spec n (length label)) as [|Hle]; [discriminate|].
  destruct (Nat.eqb_spec (n - length label) 0) as [Hz|Hnz].
  - apply bind_ok in Hparse. destruct Hparse as (v & _ & [= <-]).
    apply Map_set_keys in Hk. destruct Hk as [Hk| ->]; [now left|]. right.
    pose proof (uint_of_bits_range (prefix ++ label)) as Hr.
    rewrite length_app in Hr.
    replace (length prefix + n)%nat with (length prefix + length label)%nat
      by lia.
    exact Hr.
  - apply bind_ok in Hparse. destruct Hparse as ([l s2] & _ & Hparse).
    apply bind_ok in Hparse. destruct Hparse as ([r s3] & _ & Hparse).
    apply bind_ok in Hparse. destruct Hparse as (res1 & Hleft & Hright).
    destruct (IH _ _ _ _ _ Hright k Hk) as [Hk1|Hr].
    + destruct (IH _ _ _ _ _ Hleft k Hk1) as [Hk0|Hr]; [now left|].
      right. rewrite !length_app in Hr. cbn [length] in Hr.
      replace (length prefix + n)%nat
        with (length prefix + length label + 1 + (n - length label - 1))%nat
        by lia.
      exact Hr.
    + right. rewrite !length_app in Hr. cbn [length] in Hr.
      replace (length prefix + n)%nat
        with (length prefix + length label + 1 + (n - length label - 1))%nat
        by lia.
      exact Hr.
Qed.

Lemma fold_Map_set_keys {A V : Type} (g : A -> Z) (l : list (A * V)) :
  forall acc k,
    In k (map fst
            (fold_left (fun m kv => Map_set m (g (fst kv)) (snd kv)) l acc)) ->
    In k (map fst acc) \/ exists kv, In kv l /\ k = g (fst kv).
Proof.
  induction l as [|kv l IH]; intros acc k Hk; cbn [fold_left] in Hk.
  - now left.
  - destruct (IH _ _ Hk) as [Hacc|(kv' & Hkv' & ->)].
    + apply Map_set_keys in Hacc. destruct Hacc as [Hacc| ->]; [now left|].
      right. exists kv. split; [now left | reflexivity].
    + right. exists kv'. split; [now right | reflexivity].
Qed.

(** A dictionary loaded from a cell has one entry per key, and every key
    is the image of an unsigned number of the key width. *)
Lemma loadDictDirect_keys {V : Type} (s : Slice) (key : DictionaryKey)
    (value : DictionaryValue V) (d : Dictionary V) :
  loadDictDirect s key value = Ok d ->
  NoDup (map fst d)
  /\ forall k, In k (map fst d) ->
       exists u, 0 <= u < 2 ^ Z.of_nat (key_bits key) /\ k = key_parse key u.
Proof.
  unfold loadDictDirect, Dictionary_loadDirect, parseDict. intros Hload.
  apply bind_ok in Hload. destruct Hload as (values & Hparse & [= <-]).
  split.
  - apply fold_Map_set_NoDup. constructor.
  - intros k Hk. apply fold_Map_set_keys in Hk.
    destruct Hk as [[]|(kv & Hkv & ->)]. exists (fst kv). split; [|reflexivity].
    destruct (doParse_keys _ _ _ _ _ _ _ Hparse (fst kv)) as [[]|Hr].
    + now apply in_map.
    + exact Hr.
Qed.

Lemma Keys_Int32_fits (k : Z) :
  - 2 ^ 31 <= k < 2 ^ 31 -> key_fits (Keys_Int 32) k.
Proof.
  intros Hk. exists (k mod 2 ^ 32).
  cbn [Keys_Int key_serialize key_parse key_bits].
  change (Z.of_nat 32 - 1) with 31. change (Z.of_nat 32) with 32.
  replace (k <? - 2 ^ 31) with false by (symmetry; apply Z.ltb_ge; lia).
  replace (2 ^ 31 <=? k) with false by (symmetry; apply Z.leb_gt; lia).
  split; [reflexivity|].
  pose proof (Z.mod_pos_bound k (2 ^ 32) ltac:(lia)) as Hm.
  split; [exact Hm|].
  destruct (Z.ltb_spec (k mod 2 ^ 32) (2 ^ 31)) as [Hlt|Hge].
  - destruct (Z_lt_le_dec k 0) as [Hneg|Hpos].
    + rewrite <- (Z.mod_add k 1 (2 ^ 32)) in Hlt by lia.
      rewrite Z.mod_small in Hlt by lia. lia.
    + apply Z.mod_small. lia.
  - destruct (Z_lt_le_dec k 0) as [Hneg|Hpos].
    + rewrite <- (Z.mod_add k 1 (2 ^ 32)) by lia.
      rewrite Z.mod_small by lia. lia.
    + rewrite Z.mod_small in Hge by lia. lia.
Qed.

Lemma Keys_Int32_parse_range (u : Z) :
  0 <= u < 2 ^ 32 -> - 2 ^ 31 <= key_parse (Keys_Int 32) u < 2 ^ 31.
Proof.
  intros Hu. cbn [Keys_Int key_parse].
  change (Z.of_nat 32 - 1) with 31. change (Z.of_nat 32) with 32.
  destruct (Z.ltb_spec u (2 ^ 31)); lia.
Qed.

Lemma Keys_Uint32_fits (k : Z) :
  0 <= k < 2 ^ 32 -> key_fits (Keys_Uint 32) k.
Proof.
  intros Hk. exists k. cbn [Keys_Uint key_serialize key_parse key_bits].
  change (Z.of_nat 32) with 32.
  replace (k <? 0) with false by (symmetry; apply Z.ltb_ge; lia).
  replace (2 ^ 32 <=? k) with false by (symmetry; apply Z.leb_gt; lia).
  auto.
Qed.

Lemma Values_Cell_fits (n : nat) (c : Cell) :
  (2 + lenBits n + n <= 1023)%nat -> value_fits Values_Cell n c.
Proof.
  intros Hn. exists [], [c]. split; [cbn [length]; lia|]. split.
  - intros bs _. cbn. now rewrite app_nil_r.
  - reflexivity.
Qed.

Lemma key32_bits_fit : (2 + lenBits 32 + 32 <= 1023)%nat.
Proof. apply Nat.leb_le. reflexivity. Qed.

(** Setting a key of a loaded configuration and storing it gives a cell
    that loads to the same entries. *)
Lemma config_set_store (blob : Cell) (config : Dictionary Cell) (k : Z)
    (c : Cell) :
  loadDictDirect (beginParse blob) (Keys_Int 32) Values_Cell = Ok config ->
  - 2 ^ 31 <= k < 2 ^ 31 ->
  exists b config',
    storeDictDirect beginCell (Keys_Int 32) Values_Cell
      (Dictionary_set config k c) = Ok b
    /\ loadDictDirect (beginParse (endCell b)) (Keys_Int 32) Values_Cell
       = Ok config'
    /\ forall k', Dictionary_get config' k'
                  = Dictionary_get (Dictionary_set config k c) k'.
Proof.
  intros Hload Hk.
  destruct (loadDictDirect_keys _ _ _ _ Hload) as (Hnd & Hkeys).
  destruct (storeDictDirect_loadDictDirect Cell (Keys_Int 32) Values_Cell
              key32_bits_fit (Dictionary_set config k c))
    as (b & config' & Hstore & Hload' & Hperm & _).
  - unfold Dictionary_set. destruct config as [|[k0 c0] config];
      cbn [Map_set]; [discriminate|]. destruct (k0 =? k); discriminate.
  - now apply Map_set_NoDup.
  - intros kv Hkv. apply Keys_Int32_fits.
    assert (Hin : In (fst kv) (map fst (Dictionary_set config k c)))
      by now apply in_map.
    apply Map_set_keys in Hin. destruct Hin as [Hin| ->]; [|exact Hk].
    destruct (Hkeys _ Hin) as (u & Hu & ->).
    now apply Keys_Int32_parse_range.
  - intros kv _. apply Values_Cell_fits, key32_bits_fit.
  - exists b, config'. split; [exact Hstore|]. split; [exact Hload'|].
    intros k'. unfold Dictionary_get. apply Map_get_perm; [|exact Hperm].
    eapply Permutation_NoDup.
    + apply Permutation_sym, Permutation_map, Hperm.
    + now apply Map_set_NoDup.
Qed.

(** ** Gas price records *)

Ltac store_step :=
  rewrite storeUint_ok
    by (first [ cbn; lia
              | cbn [builder_bits];
                repeat rewrite ?length_app, ?length_bits_of_uint;
                cbn [length]; lia ]);
  cbn [bind builder_bits builder_refs].

Ltac load_step :=
  rewrite loadUintBig_bits by (cbn; lia); cbn [bind].

Lemma getGasPrices_record (blob : Cell) (config : Dictionary Cell) (w : Z)
    (p : GasPrices) (tl : list bool) (refs : list Cell) :
  loadDictDirect (beginParse blob) (Keys_Int 32) Values_Cell = Ok config ->
  Dictionary_get config (21 + w) = Some (gasRecord p tl refs) ->
  valid_GasPrices p ->
  getGasPrices blob w = Ok p.
Proof.
  intros Hload Hget (Hl & Hp & Hg). unfold getGasPrices.
  rewrite Hload. cbn [bind]. rewrite Hget.
  unfold gasRecord, beginParse, loadUint. cbn [cell_bits cell_refs].
  load_step. change (negb (0xd1 =? 0xd1)) with false. cbv iota.
  load_step. load_step. load_step.
  change (negb (0xde =? 0xde)) with false. cbv iota.
  rewrite preloadUintBig_bits by (cbn; lia). cbn [bind].
  now destruct p.
Qed.

(** What [setGasPrice] stores: the record of the new prices followed by
    the bits and references that followed the old fields. *)
Lemma setGasPrice_stored (blob : Cell) (config : Dictionary Cell)
    (rec : Cell) (p : GasPrices) (w : Z) :
  loadDictDirect (beginParse blob) (Keys_Int 32) Values_Cell = Ok config ->
  is_workchain w ->
  Dictionary_get config (21 + w) = Some rec ->
  (208 <= length (cell_bits rec) <= 1023)%nat ->
  (length (cell_refs rec) <= 4)%nat ->
  valid_GasPrices p ->
  exists blob' config',
    setGasPrice blob p w = Ok blob'
    /\ loadDictDirect (beginParse blob') (Keys_Int 32) Values_Cell
       = Ok config'
    /\ forall k,
         Dictionary_get config' k
         = Dictionary_get
             (Dictionary_set config (21 + w)
                (gasRecord p (skipn 208 (cell_bits rec)) (cell_refs rec))) k.
Proof.
  intros Hload Hw Hget Hbits Hrefs (Hl & Hp & Hg).
  destruct (config_set_store blob config (21 + w)
              (gasRecord p (skipn 208 (cell_bits rec)) (cell_refs rec)) Hload)
    as (b & config' & Hstore & Hload' & Hsame).
  { destruct Hw as [-> | ->]; lia. }
  exists (endCell b), config'. split; [|split; [exact Hload' | exact Hsame]].
  unfold setGasPrice. rewrite Hload. cbn [bind]. rewrite Hget.
  change (8 + 64 + 64 + 8 + 64)%nat with 208%nat.
  unfold skip, beginParse. cbn [slice_bits slice_refs].
  replace (208 <=? length (cell_bits rec))%nat with true
    by (symmetry; apply Nat.leb_le; lia).
  cbn [bind]. unfold beginCell.
  store_step. store_step. store_step. store_step. store_step.
  unfold storeSlice. cbn [slice_bits slice_refs].
  rewrite storeBits_ok
    by (cbn [builder_bits];
        repeat rewrite ?length_app, ?length_bits_of_uint, ?length_skipn;
        cbn [length]; lia).
  cbn [bind builder_bits builder_refs].
  rewrite storeRefs_ok by (cbn [builder_refs length]; lia).
  cbn [bind builder_bits builder_refs app].
  unfold endCell at 1. cbn [builder_bits builder_refs].
  unfold gasRecord, beginCell in Hstore. rewrite <- !app_assoc. cbn [app].
  rewrite Hstore. reflexivity.
Qed.

Example sampleConfig_loads :
  loadDictDirect (beginParse sampleConfig) (Keys_Int 32) Values_Cell
  = Ok sampleEntries.
Proof. vm_compute. reflexivity. Qed.

(** C6: for valid gas prices [p], a workchain [w] and a configuration cell
    that holds a gas price record at key [21 + w], [setGasPrice] succeeds
    and [getGasPrices] on its result returns [p]. *)
Theorem setGasPrice_getGasPrices (blob : Cell) (config : Dictionary Cell)
    (rec : Cell) (p : GasPrices) (w : Z) :
  loadDictDirect (beginParse blob) (Keys_Int 32) Values_Cell = Ok config ->
  is_workchain w ->
  Dictionary_get config (21 + w) = Some rec ->
  (208 <= length (cell_bits rec) <= 1023)%nat ->
  (length (cell_refs rec) <= 4)%nat ->
  valid_GasPrices p ->
  exists blob',
    setGasPrice blob p w = Ok blob' /\ getGasPrices blob' w = Ok p.
Proof.
  intros Hload Hw Hget Hbits Hrefs Hvalid.
  destruct (setGasPrice_stored blob config rec p w Hload Hw Hget Hbits Hrefs
              Hvalid) as (blob' & config' & Hset & Hload' & Hsame).
  exists blob'. split; [exact Hset|].
  eapply getGasPrices_record; [exact Hload' | | exact Hvalid].
  rewrite Hsame. apply Map_get_set_eq.
Qed.

Lemma setGasPrice_getGasPrices_witness :
  exists blob',
    setGasPrice sampleConfig (mkGasPrices 7 8 9) 0 = Ok blob'
    /\ getGasPrices blob' 0 = Ok (mkGasPrices 7 8 9).
Proof.
  apply (setGasPrice_getGasPrices sampleConfig sampleEntries
           (gasRecord sampleGas [true; false; true] [mkCell [true] []])).
  - vm_compute. reflexivity.
  - left. reflexivity.
  - reflexivity.
  - simpl. lia.
  - simpl. lia.
  - unfold valid_GasPrices. simpl. lia.
Defined.

(** C9: [setGasPrice] stores at key [21 + w] a record whose first 208 bits
    are the two tags and the three fields of the new prices and whose bits
    after them, and references, are those of the record it replaces. *)
Theorem setGasPrice_keeps_tail (blob : Cell) (config : Dictionary Cell)
    (rec : Cell) (p : GasPrices) (w : Z) :
  loadDictDirect (beginParse blob) (Keys_Int 32) Values_Cell = Ok config ->
  is_workchain w ->
  Dictionary_get config (21 + w) = Some rec ->
  (208 <= length (cell_bits rec) <= 1023)%nat ->
  (length (cell_refs rec) <= 4)%nat ->
  valid_GasPrices p ->
  exists blob' config' rec',
    setGasPrice blob p w = Ok blob'
    /\ loadDictDirect (beginParse blob') (Keys_Int 32) Values_Cell
       = Ok config'
    /\ Dictionary_get config' (21 + w) = Some rec'
    /\ firstn 208 (cell_bits rec')
       = bits_of_uint 8 0xd1 ++ bits_of_uint 64 (flat_gas_limit p)
         ++ bits_of_uint 64 (flat_gas_price p) ++ bits_of_uint 8 0xde
         ++ bits_of_uint 64 (gas_price p)
    /\ skipn 208 (cell_bits rec') = skipn 208 (cell_bits rec)
    /\ cell_refs rec' = cell_refs rec.
Proof.
  intros Hload Hw Hget Hbits Hrefs Hvalid.
  destruct (setGasPrice_stored blob config rec p w Hload Hw Hget Hbits Hrefs
              Hvalid) as (blob' & config' & Hset & Hload' & Hsame).
  exists blob', config',
    (gasRecord p (skipn 208 (cell_bits rec)) (cell_refs rec)).
  split; [exact Hset|]. split; [exact Hload'|]. split.
  { rewrite Hsame. apply Map_get_set_eq. }
  unfold gasRecord. cbn [cell_bits cell_refs].
  rewrite !app_assoc.
  rewrite firstn_app_exact, skipn_app_exact
    by (repeat rewrite ?length_app, ?length_bits_of_uint; reflexivity).
  rewrite <- !app_assoc. auto.
Qed.

Lemma setGasPrice_keeps_tail_witness :
  exists blob' config' rec',
    setGasPrice sampleConfig (mkGasPrices 7 8 9) 0 = Ok blob'
    /\ loadDictDirect (beginParse blob') (Keys_Int 32) Values_Cell
       = Ok config'
    /\ Dictionary_get config' 21 = Some rec'
    /\ skipn 208 (cell_bits rec') = [true; false; true]
    /\ cell_refs rec' = [mkCell [true] []].
Proof.
  destruct (setGasPrice_keeps_tail sampleConfig sampleEntries
              (gasRecord sampleGas [true; false; true] [mkCell [true] []])
              (mkGasPrices 7 8 9) 0)
    as (blob' & config' & rec' & Hset & Hload & Hget & _ & Htail & Hrefs).
  - vm_compute. reflexivity.
  - left. reflexivity.
  - reflexivity.
  - simpl. lia.
  - simpl. lia.
  - unfold valid_GasPrices. simpl. lia.
  - exists blob', config', rec'. auto.
Defined.

(** ** Message price records *)

Lemma configParseMsgPrices_msgRecord (p : MsgPrices) :
  valid_MsgPrices p -> configParseMsgPrices (beginParse (msgRecord p)) = Ok p.
Proof.
  intros (Hl & Hb & Hc & Hi & Hf & Hn).
  unfold configParseMsgPrices, msgRecord, beginParse, loadUint.
  cbn [cell_bits cell_refs].
  rewrite <- (app_nil_r (bits_of_uint 16 (nextFrac p))).
  load_step. change (negb (0xea =? 0xea)) with false. cbv iota.
  load_step. load_step. load_step. load_step. load_step. load_step.
  now destruct p.
Qed.

(** C8: for valid message prices [p] and a workchain [w], [setMsgPrices]
    succeeds on a configuration cell, the cell stored at key [25 + w] of
    its result is parsed by [configParseMsgPrices] to [p], and so
    [getMsgPrices] returns [p]. *)
Theorem setMsgPrices_getMsgPrices (blob : Cell) (config : Dictionary Cell)
    (p : MsgPrices) (w : Z) :
  loadDictDirect (beginParse blob) (Keys_Int 32) Values_Cell = Ok config ->
  is_workchain w ->
  valid_MsgPrices p ->
  exists blob' config' priceCell,
    setMsgPrices blob p w = Ok blob'
    /\ loadDictDirect (beginParse blob') (Keys_Int 32) Values_Cell
       = Ok config'
    /\ Dictionary_get config' (25 + w) = Some priceCell
    /\ configParseMsgPrices (beginParse priceCell) = Ok p
    /\ getMsgPrices blob' w = Ok p.
Proof.
  intros Hload Hw Hvalid.
  destruct (config_set_store blob config (25 + w) (msgRecord p) Hload)
    as (b & config' & Hstore & Hload' & Hsame).
  { destruct Hw as [-> | ->]; lia. }
  assert (Hget : Dictionary_get config' (25 + w) = Some (msgRecord p)).
  { rewrite Hsame. apply Map_get_set_eq. }
  pose proof (configParseMsgPrices_msgRecord p Hvalid) as Hparse.
  exists (endCell b), config', (msgRecord p).
  split; [|split; [exact Hload'|split; [exact Hget|split; [exact Hparse|]]]].
  - destruct Hvalid as (Hl & Hb & Hc & Hi & Hf & Hn).
    unfold setMsgPrices. rewrite Hload. cbn [bind]. unfold beginCell.
    store_step. store_step. store_step. store_step. store_step. store_step.
    store_step. unfold endCell at 1. cbn [builder_bits builder_refs].
    unfold msgRecord, beginCell in Hstore. rewrite <- !app_assoc. cbn [app].
    rewrite Hstore. reflexivity.
  - unfold getMsgPrices. rewrite Hload'. cbn [bind]. now rewrite Hget.
Qed.

Lemma setMsgPrices_getMsgPrices_witness :
  exists blob',
    setMsgPrices sampleConfig (mkMsgPrices 1 2 3 4 5 6) (-1) = Ok blob'
    /\ getMsgPrices blob' (-1) = Ok (mkMsgPrices 1 2 3 4 5 6).
Proof.
  destruct (setMsgPrices_getMsgPrices sampleConfig sampleEntries
              (mkMsgPrices 1 2 3 4 5 6) (-1))
    as (blob' & _ & _ & Hset & _ & _ & _ & Hget).
  - vm_compute. reflexivity.
  - right. reflexivity.
  - unfold valid_MsgPrices. simpl. lia.
  - exists blob'. auto.
Defined.

(** ** Storage price records *)

Lemma storageValue_serialize_ok (v : StorageValue) (bs : list bool)
    (refs : list Cell) :
  valid_StorageValue v ->
  (length bs + 296 <= 1023)%nat ->
  serialize storageValue v (mkBuilder bs refs)
  = Ok (mkBuilder (bs ++ bits_of_uint 8 0xcc ++ storageFields v) refs).
Proof.
  intros (Hu & Hb & Hc & Hmb & Hmc) Hcap.
  unfold storageValue, storageFields. cbn [serialize].
  rewrite storeUint_ok by (first [cbn; lia | cbn [builder_bits]; lia]).
  cbn [bind builder_bits builder_refs].
  store_step. store_step. store_step. store_step.
  rewrite storeUint_ok
    by (first [ cbn; lia
              | cbn [builder_bits];
                repeat rewrite ?length_app, ?length_bits_of_uint; lia ]).
  cbn [builder_bits builder_refs]. now rewrite <- !app_assoc.
Qed.

(** The parser of [storageValue] reads the fields that follow the first
    eight bits. *)
Lemma storageValue_parse_fields (tag : list bool) (v : StorageValue)
    (rest : list bool) (refs : list Cell) :
  length tag = 8%nat ->
  valid_StorageValue v ->
  parse storageValue (mkSlice (tag ++ storageFields v ++ rest) refs) = Ok v.
Proof.
  intros Htag (Hu & Hb & Hc & Hmb & Hmc).
  unfold storageValue, storageFields, loadUint. cbn [parse].
  rewrite skip_bits by exact Htag. cbn [bind].
  rewrite <- !app_assoc.
  load_step. load_step. load_step. load_step. load_step.
  now destruct v.
Qed.

(** C4 (storage part, as the code has it): the parser of [storageValue]
    skips the eight bits before the fields without looking at them, so a
    record whose first byte is not the tag [0xcc] is parsed all the same. *)
Theorem storageValue_parse_skips_tag (tag : list bool) (v : StorageValue)
    (rest : list bool) (refs : list Cell) :
  length tag = 8%nat ->
  uint_of_bits tag <> 0xcc ->
  valid_StorageValue v ->
  parse storageValue (mkSlice (tag ++ storageFields v ++ rest) refs) = Ok v.
Proof.
  intros Htag _ Hvalid. now apply storageValue_parse_fields.
Qed.

Lemma storageValue_parse_skips_tag_witness :
  parse storageValue
    (mkSlice (bits_of_uint 8 0x00
              ++ storageFields (mkStorageValue 1 2 3 4 5) ++ []) [])
  = Ok (mkStorageValue 1 2 3 4 5).
Proof.
  apply storageValue_parse_skips_tag.
  - reflexivity.
  - vm_compute. discriminate.
  - unfold valid_StorageValue. simpl. lia.
Defined.

Lemma storageValue_fits (v : StorageValue) :
  valid_StorageValue v -> value_fits storageValue 32 v.
Proof.
  intros Hv. exists (bits_of_uint 8 0xcc ++ storageFields v), [].
  assert (Hlen : length (bits_of_uint 8 0xcc ++ storageFields v) = 296%nat).
  { unfold storageFields.
    repeat rewrite ?length_app, ?length_bits_of_uint. reflexivity. }
  split; [|split].
  - rewrite Hlen. apply Nat.leb_le. reflexivity.
  - intros bs Hcap. apply storageValue_serialize_ok; [exact Hv | lia].
  - rewrite <- (app_nil_r (storageFields v)).
    apply storageValue_parse_fields; [reflexivity | exact Hv].
Qed.

(** ** Tags and missing keys *)

(** The tags of a gas price record are checked: a first byte other than
    [0xd1], or a byte after the two flat fields other than [0xde], makes
    [getGasPrices] throw. *)
Lemma getGasPrices_tag (blob : Cell) (config : Dictionary Cell) (w : Z)
    (rec : Cell) (p : GasPrices) :
  loadDictDirect (beginParse blob) (Keys_Int 32) Values_Cell = Ok config ->
  Dictionary_get config (21 + w) = Some rec ->
  getGasPrices blob w = Ok p ->
  uint_of_bits (firstn 8 (cell_bits rec)) = 0xd1
  /\ uint_of_bits (firstn 8 (skipn 136 (cell_bits rec))) = 0xde.
Proof.
  intros Hload Hget. unfold getGasPrices. rewrite Hload. cbn [bind].
  rewrite Hget. unfold loadUint, loadUintBig, preloadUintBig, skip, beginParse.
  cbn [slice_bits slice_refs].
  destruct (8 <=? length (cell_bits rec))%nat; cbn [bind]; [|discriminate].
  destruct (Z.eqb_spec (uint_of_bits (firstn 8 (cell_bits rec))) 0xd1)
    as [Ht1|]; cbn [negb]; [|discriminate].
  cbn [slice_bits slice_refs].
  destruct (64 <=? length (skipn 8 (cell_bits rec)))%nat; cbn [bind];
    [|discriminate].
  cbn [slice_bits slice_refs].
  destruct (64 <=? length (skipn 64 (skipn 8 (cell_bits rec))))%nat;
    cbn [bind]; [|discriminate].
  cbn [slice_bits slice_refs].
  destruct (8 <=? length (skipn 64 (skipn 64 (skipn 8 (cell_bits rec)))))%nat;
    cbn [bind]; [|discriminate].
  rewrite !skipn_skipn. change (64 + 64 + 8)%nat with 136%nat.
  destruct (Z.eqb_spec
              (uint_of_bits (firstn 8 (skipn 136 (cell_bits rec)))) 0xde)
    as [Ht2|]; cbn [negb]; [|discriminate].
  intros _. auto.
Qed.

Lemma getGasPrices_bad_first_tag (blob : Cell) (config : Dictionary Cell)
    (w : Z) (rec : Cell) :
  loadDictDirect (beginParse blob) (Keys_Int 32) Values_Cell = Ok config ->
  Dictionary_get config (21 + w) = Some rec ->
  (8 <= length (cell_bits rec))%nat ->
  uint_of_bits (firstn 8 (cell_bits rec)) <> 0xd1 ->
  getGasPrices blob w = Throw (Error "Invalid flat gas prices tag!").
Proof.
  intros Hload Hget Hlen Htag. unfold getGasPrices. rewrite Hload.
  cbn [bind]. rewrite Hget.
  unfold loadUint, loadUintBig, preloadUintBig, skip, beginParse.
  cbn [slice_bits slice_refs].
  replace (8 <=? length (cell_bits rec))%nat with true
    by (symmetry; apply Nat.leb_le; lia).
  cbn [bind].
  destruct (Z.eqb_spec (uint_of_bits (firstn 8 (cell_bits rec))) 0xd1);
    [contradiction | reflexivity].
Qed.

(** The tag of a message price record is checked. *)
Lemma configParseMsgPrices_tag (sc : Slice) (p : MsgPrices) :
  configParseMsgPrices sc = Ok p ->
  uint_of_bits (firstn 8 (slice_bits sc)) = 0xea.
Proof.
  unfold configParseMsgPrices, loadUint, loadUintBig, preloadUintBig, skip.
  destruct (8 <=? length (slice_bits sc))%nat; cbn [bind]; [|discriminate].
  destruct (Z.eqb_spec (uint_of_bits (firstn 8 (slice_bits sc))) 0xea);
    cbn [negb]; [auto | discriminate].
Qed.

Lemma configParseMsgPrices_bad_tag (sc : Slice) :
  (8 <= length (slice_bits sc))%nat ->
  uint_of_bits (firstn 8 (slice_bits sc)) <> 0xea ->
  configParseMsgPrices sc
  = Throw (Error "Invalid message prices magic number!").
Proof.
  intros Hlen Htag.
  unfold configParseMsgPrices, loadUint, loadUintBig, preloadUintBig, skip.
  replace (8 <=? length (slice_bits sc))%nat with true
    by (symmetry; apply Nat.leb_le; lia).
  cbn [bind].
  destruct (Z.eqb_spec (uint_of_bits (firstn 8 (slice_bits sc))) 0xea);
    [contradiction | reflexivity].
Qed.

(** A missing key: [getMsgPrices] throws its own error, [getGasPrices]
    throws on the method call on [undefined]. *)
Lemma getMsgPrices_missing_key (blob : Cell) (config : Dictionary Cell)
    (w : Z) :
  loadDictDirect (beginParse blob) (Keys_Int 32) Values_Cell = Ok config ->
  Dictionary_get config (25 + w) = None ->
  getMsgPrices blob w = Throw (Error "No prices defined in config").
Proof.
  intros Hload Hget. unfold getMsgPrices. rewrite Hload. cbn [bind].
  now rewrite Hget.
Qed.

Lemma getGasPrices_missing_key (blob : Cell) (config : Dictionary Cell)
    (w : Z) :
  loadDictDirect (beginParse blob) (Keys_Int 32) Values_Cell = Ok config ->
  Dictionary_get config (21 + w) = None ->
  getGasPrices blob w = Throw undefined_read.
Proof.
  intros Hload Hget. unfold getGasPrices. rewrite Hload. cbn [bind].
  now rewrite Hget.
Qed.

(** C7 (storage part, as the code has it): when the key [18] is absent
    from the configuration, [getStoragePrices] loads an empty dictionary
    and returns [undefined] without throwing. *)
Theorem getStoragePrices_missing_key (blob : Cell)
    (config : Dictionary Cell) :
  loadDictDirect (beginParse blob) (Keys_Int 32) Values_Cell = Ok config ->
  Dictionary_get config 18 = None ->
  getStoragePrices blob = Ok None.
Proof.
  intros Hload Hget. unfold getStoragePrices. rewrite Hload. cbn [bind].
  rewrite Hget. reflexivity.
Qed.

Lemma getStoragePrices_missing_key_witness :
  getStoragePrices noStorageConfig = Ok None.
Proof.
  apply (getStoragePrices_missing_key noStorageConfig
           [(20, gasRecord sampleGas [] []); (21, gasRecord sampleGas [] [])]).
  - vm_compute. reflexivity.
  - reflexivity.
Defined.

(** C3 (as the code has it): [setStoragePrices] sets the key
    [values.length - 1], not the highest key.  On a dictionary keyed by
    [5] alone it adds the new prices at key [0], and [getStoragePrices]
    still returns the old entry of key [5]. *)
Theorem setStoragePrices_sparse_keys :
  let p := mkStorageValue 9 9 9 9 9 in
  valid_StorageValue p
  /\ exists blob',
       setStoragePrices sparseConfig p = Ok blob'
       /\ getStoragePrices blob' = Ok (Some (mkStorageValue 0 1 500 0 0)).
Proof.
  cbv zeta. split.
  - unfold valid_StorageValue. simpl. lia.
  - exists (cell_or_empty
              (setStoragePrices sparseConfig (mkStorageValue 9 9 9 9 9))).
    split; vm_compute; reflexivity.
Qed.

(** A key [18] that holds a cell without bits, a dictionary of length
    zero, makes [getStoragePrices] throw on the first bit of the label. *)
Lemma getStoragePrices_empty_cell (blob : Cell) (config : Dictionary Cell)
    (refs : list Cell) :
  loadDictDirect (beginParse blob) (Keys_Int 32) Values_Cell = Ok config ->
  Dictionary_get config 18 = Some (mkCell [] refs) ->
  getStoragePrices blob = Throw index_out_of_bounds.
Proof.
  intros Hload Hget. unfold getStoragePrices. rewrite Hload. cbn [bind].
  rewrite Hget. reflexivity.
Qed.

(** ** Storage prices over contiguous keys *)

Lemma Map_set_In {V : Type} (m : list (Z * V)) (k : Z) (v : V)
    (kv : Z * V) :
  In kv (Map_set m k v) -> In kv m \/ kv = (k, v).
Proof.
  induction m as [|[k0 v0] m IH]; cbn [Map_set In].
  - intros [<-|[]]. now right.
  - destruct (k0 =? k); cbn [In].
    + intros [<-|Hin]; [now right | left; now right].
    + intros [<-|Hin]; [left; now left|].
      destruct (IH Hin); [left; now right | now right].
Qed.

Lemma Map_set_nonempty {V : Type} (m : list (Z * V)) (k : Z) (v : V) :
  Map_set m k v <> [].
Proof.
  destruct m as [|[k0 v0] m]; cbn [Map_set]; [discriminate|].
  destruct (k0 =? k); discriminate.
Qed.

Lemma fold_Map_set_In {A V : Type} (g : A -> Z) (l : list (A * V)) :
  forall acc kv,
    In kv (fold_left (fun m x => Map_set m (g (fst x)) (snd x)) l acc) ->
    In kv acc \/ exists x, In x l /\ snd kv = snd x.
Proof.
  induction l as [|x l IH]; intros acc kv Hin; cbn [fold_left] in Hin.
  - now left.
  - destruct (IH _ _ Hin) as [Hacc|(y & Hy & Hsnd)].
    + apply Map_set_In in Hacc. destruct Hacc as [Hacc| ->]; [now left|].
      right. exists x. split; [now left | reflexivity].
    + right. exists y. split; [now right | exact Hsnd].
Qed.

Lemma fold_Map_set_nonempty {A V : Type} (g : A -> Z) (l : list (A * V)) :
  forall acc,
    acc <> [] ->
    fold_left (fun m x => Map_set m (g (fst x)) (snd x)) l acc <> [].
Proof.
  induction l as [|x l IH]; intros acc Hacc; cbn [fold_left];
    [exact Hacc|].
  apply IH, Map_set_nonempty.
Qed.

(** Every value in the map filled by [doParse] was returned by the
    extractor, and the map is not empty. *)
Lemma doParse_values {V : Type} (extractor : Slice -> Res V) (fuel : nat) :
  forall prefix s n res res',
    doParse fuel prefix s n res extractor = Ok res' ->
    res' <> []
    /\ forall kv, In kv res' ->
         In kv res \/ exists s', extractor s' = Ok (snd kv).
Proof.
  induction fuel as [|fuel IH]; intros prefix s n res res' Hparse;
    [discriminate|].
  cbn [doParse] in Hparse.
  apply bind_ok in Hparse. destruct Hparse as ([label s1] & _ & Hparse).
  destruct (n <? length label)%nat; [discriminate|].
  destruct (n - length label =? 0)%nat.
  - apply bind_ok in Hparse. destruct Hparse as (v & Hv & [= <-]).
    split; [apply Map_set_nonempty|].
    intros kv Hkv. apply Map_set_In in Hkv.
    destruct Hkv as [Hkv| ->]; [now left|]. right. now exists s1.
  - apply bind_ok in Hparse. destruct Hparse as ([l s2] & _ & Hparse).
    apply bind_ok in Hparse. destruct Hparse as ([r s3] & _ & Hparse).
    apply bind_ok in Hparse. destruct Hparse as (res1 & Hleft & Hright).
    destruct (IH _ _ _ _ _ Hleft) as (_ & Hl).
    destruct (IH _ _ _ _ _ Hright) as (Hne & Hr).
    split; [exact Hne|]. intros kv Hkv.
    destruct (Hr kv Hkv) as [Hkv1|Hex]; [|now right]. now apply Hl.
Qed.

Lemma storageValue_parse_valid (s : Slice) (v : StorageValue) :
  parse storageValue s = Ok v -> valid_StorageValue v.
Proof.
  unfold storageValue, loadUint. cbn [parse]. intros Hparse.
  apply bind_ok in Hparse. destruct Hparse as (s0 & _ & Hparse).
  apply bind_ok in Hparse. destruct Hparse as ([u s1] & Hu & Hparse).
  apply bind_ok in Hparse. destruct Hparse as ([b s2] & Hb & Hparse).
  apply bind_ok in Hparse. destruct Hparse as ([c s3] & Hc & Hparse).
  apply bind_ok in Hparse. destruct Hparse as ([mb s4] & Hmb & Hparse).
  apply bind_ok in Hparse. destruct Hparse as ([mc s5] & Hmc & [= <-]).
  apply loadUintBig_range in Hu, Hb, Hc, Hmb, Hmc.
  unfold valid_StorageValue. cbn [utime_sice bit_price_ps cell_price_ps
    mc_bit_price_ps mc_cell_price_ps].
  change (Z.of_nat 32) with 32 in Hu. change (Z.of_nat 64) with 64 in *.
  auto.
Qed.

(** A dictionary of storage prices as it is loaded from a cell. *)
Lemma storage_loaded (s : Slice) (d : Dictionary StorageValue) :
  loadDictDirect s (Keys_Uint 32) storageValue = Ok d ->
  d <> []
  /\ NoDup (map fst d)
  /\ (forall k, In k (map fst d) -> 0 <= k < 2 ^ 32)
  /\ forall kv, In kv d -> valid_StorageValue (snd kv).
Proof.
  intros Hload.
  destruct (loadDictDirect_keys _ _ _ _ Hload) as (Hnd & Hkeys).
  unfold loadDictDirect, Dictionary_loadDirect, parseDict in Hload.
  apply bind_ok in Hload. destruct Hload as (values & Hparse & [= <-]).
  destruct (doParse_values _ _ _ _ _ _ _ Hparse) as (Hne & Hvals).
  split; [|split; [exact Hnd|split]].
  - destruct values as [|x values]; [congruence|]. cbn [fold_left].
    apply (fold_Map_set_nonempty (key_parse (Keys_Uint 32))).
    apply Map_set_nonempty.
  - intros k Hk. destruct (Hkeys k Hk) as (u & Hu & ->). exact Hu.
  - intros kv Hkv.
    apply (fold_Map_set_In (key_parse (Keys_Uint 32))) in Hkv.
    destruct Hkv as [[]|(x & Hx & ->)].
    destruct (Hvals x Hx) as [[]|(s' & Hs')].
    eapply storageValue_parse_valid, Hs'.
Qed.

(** In a list sorted by key, the entry of the largest key is the last. *)
Lemma sorted_last {V : Type} (d : list (Z * V)) (k : Z) (v : V) :
  StronglySorted Z.lt (map fst d) ->
  In (k, v) d ->
  (forall k', In k' (map fst d) -> k' <= k) ->
  Array_at (map snd d) (Z.of_nat (length (map snd d)) - 1) = Some v.
Proof.
  induction d as [|[k0 v0] d IH]; intros Hsorted Hin Hmax; [destruct Hin|].
  cbn [map fst snd] in *. apply StronglySorted_inv in Hsorted.
  destruct Hsorted as [Hsorted Hlt].
  unfold Array_at. cbn [length].
  replace (Z.of_nat (S (length (map snd d))) - 1 <? 0) with false
    by (symmetry; apply Z.ltb_ge; lia).
  replace (Z.to_nat (Z.of_nat (S (length (map snd d))) - 1))
    with (length (map snd d)) by lia.
  destruct d as [|kv1 d'].
  - destruct Hin as [[= -> ->]|[]]. reflexivity.
  - assert (Hin' : In (k, v) (kv1 :: d')).
    { destruct Hin as [[= -> ->]|Hin]; [|exact Hin]. exfalso.
      apply Forall_inv in Hlt.
      specialize (Hmax (fst kv1) ltac:(right; now left)). lia. }
    specialize (IH Hsorted Hin' (fun k' Hk' => Hmax k' (or_intror Hk'))).
    unfold Array_at in IH. cbn [map length] in IH |- *.
    replace (Z.of_nat (S (length (map snd d'))) - 1 <? 0) with false in IH
      by (symmetry; apply Z.ltb_ge; lia).
    replace (Z.to_nat (Z.of_nat (S (length (map snd d'))) - 1))
      with (length (map snd d')) in IH by lia.
    cbn [nth_error]. exact IH.
Qed.

Lemma key_image_Uint32 (k : Z) :
  0 <= k < 2 ^ 32 -> key_image (Keys_Uint 32) k = k.
Proof.
  intros Hk. unfold key_image. cbn [Keys_Uint key_serialize].
  change (Z.of_nat 32) with 32.
  replace (k <? 0) with false by (symmetry; apply Z.ltb_ge; lia).
  replace (2 ^ 32 <=? k) with false by (symmetry; apply Z.leb_gt; lia).
  reflexivity.
Qed.

(** When the storage prices are keyed by [0 .. n-1], [setStoragePrices]
    replaces the entry of the highest key and [getStoragePrices] reads the
    new prices back. *)
Lemma setStoragePrices_getStoragePrices_contiguous (blob inner : Cell)
    (config : Dictionary Cell) (storageData : Dictionary StorageValue)
    (p : StorageValue) :
  loadDictDirect (beginParse blob) (Keys_Int 32) Values_Cell = Ok config ->
  Dictionary_get config 18 = Some inner ->
  loadDictDirect (beginParse inner) (Keys_Uint 32) storageValue
  = Ok storageData ->
  (forall k, In k (map fst storageData)
             <-> 0 <= k < Z.of_nat (length storageData)) ->
  valid_StorageValue p ->
  exists blob',
    setStoragePrices blob p = Ok blob'
    /\ getStoragePrices blob' = Ok (Some p).
Proof.
  intros Hload Hget Hinner Hkeys Hvalid.
  destruct (storage_loaded _ _ Hinner) as (Hne & Hnd & Hrange & Hvals).
  set (key := Z.of_nat (length (Dictionary_values storageData)) - 1).
  assert (Hlen : length (Dictionary_values storageData) = length storageData)
    by apply length_map.
  assert (Hpos : (0 < length storageData)%nat).
  { destruct storageData; [congruence | cbn [length]; lia]. }
  assert (Hkey : In key (map fst storageData)).
  { apply Hkeys. unfold key. rewrite Hlen. lia. }
  set (storageData' := Dictionary_set storageData key p).
  assert (Hkeys' : forall k, In k (map fst storageData')
                             <-> In k (map fst storageData)).
  { intros k. unfold storageData', Dictionary_set. rewrite Map_set_keys.
    split; [intros [Hk| ->]; assumption | now left]. }
  destruct (storeDictDirect_loadDictDirect StorageValue (Keys_Uint 32)
              storageValue key32_bits_fit storageData')
    as (b1 & d1 & Hstore1 & Hload1 & Hperm1 & Hsorted1).
  { apply Map_set_nonempty. }
  { now apply Map_set_NoDup. }
  { intros kv Hkv. apply Keys_Uint32_fits, Hrange, Hkeys'. now apply in_map. }
  { intros kv Hkv. apply storageValue_fits. apply Map_set_In in Hkv.
    destruct Hkv as [Hkv| ->]; [now apply Hvals | exact Hvalid]. }
  destruct (config_set_store blob config 18 (endCell b1) Hload)
    as (b2 & config2 & Hstore2 & Hload2 & Hsame2); [lia|].
  exists (endCell b2). split.
  - unfold setStoragePrices. rewrite Hload. cbn [bind]. rewrite Hget.
    cbn [option_map]. unfold loadDictDirect in Hinner. rewrite Hinner.
    cbn [bind]. fold key. fold storageData'. rewrite Hstore1. cbn [bind].
    rewrite Hstore2. reflexivity.
  - unfold getStoragePrices. rewrite Hload2. cbn [bind].
    rewrite Hsame2. unfold Dictionary_set at 1, Dictionary_get.
    rewrite Map_get_set_eq. cbn [option_map].
    unfold loadDictDirect in Hload1. rewrite Hload1. cbn [bind]. f_equal.
    unfold Dictionary_values. apply sorted_last with (k := key).
    + replace (map fst d1)
        with (map (fun kv => key_image (Keys_Uint 32) (fst kv)) d1);
        [exact Hsorted1|].
      apply map_ext_in. intros kv Hkv. apply key_image_Uint32.
      apply Hrange, Hkeys'.
      apply (Permutation_in _ (Permutation_map fst Hperm1)).
      now apply in_map.
    + apply (Permutation_in _ (Permutation_sym Hperm1)).
      apply Map_get_In; [now apply Map_set_NoDup | apply Map_get_set_eq].
    + intros k' Hk'.
      apply (Permutation_in _ (Permutation_map fst Hperm1)) in Hk'.
      apply Hkeys', Hkeys in Hk'. unfold key. rewrite Hlen. lia.
Qed.

Example setStoragePrices_sampleConfig :
  exists blob',
    setStoragePrices sampleConfig (mkStorageValue 9 9 9 9 9) = Ok blob'
    /\ getStoragePrices blob' = Ok (Some (mkStorageValue 9 9 9 9 9)).
Proof.
  apply (setStoragePrices_getStoragePrices_contiguous sampleConfig
           (cell_or_empty (storeStorageDict sampleStorage))
           sampleEntries sampleStorage).
  - vm_compute. reflexivity.
  - reflexivity.
  - vm_compute. reflexivity.
  - intros k. cbn [sampleStorage map fst In length]. lia.
  - unfold valid_StorageValue. simpl. lia.
Qed.

(** ** More on bit strings *)

Lemma bits_of_uint_mod (n : nat) (v : Z) :
  bits_of_uint n (v mod 2 ^ Z.of_nat n) = bits_of_uint n v.
Proof.
  assert (H : forall m, (m <= n)%nat ->
            bits_of_uint m (v mod 2 ^ Z.of_nat n) = bits_of_uint m v).
  { induction m as [|m IH]; intros Hm; [reflexivity|].
    cbn [bits_of_uint]. rewrite IH by lia. f_equal.
    apply Z.mod_pow2_bits_low. lia. }
  now apply H.
Qed.

Lemma bits_of_uint_of_bits (bs : list bool) :
  bits_of_uint (length bs) (uint_of_bits bs) = bs.
Proof.
  induction bs as [|b bs IH]; [reflexivity|].
  cbn [length bits_of_uint]. rewrite uint_of_bits_cons.
  pose proof (uint_of_bits_range bs) as Hr.
  set (n := Z.of_nat (length bs)) in *.
  assert (Hn : 0 <= n) by (unfold n; lia).
  f_equal.
  - rewrite Z.testbit_eqb by exact Hn.
    rewrite (Z.add_comm), Z.div_add by lia.
    rewrite Z.div_small by lia. destruct b; reflexivity.
  - rewrite <- bits_of_uint_mod. unfold n.
    rewrite Z.add_comm, Z.mod_add by lia.
    rewrite Z.mod_small by exact Hr. exact IH.
Qed.

Lemma preloadUintBig_range (s : Slice) (n : nat) (v : Z) :
  preloadUintBig s n = Ok v -> 0 <= v < 2 ^ Z.of_nat n.
Proof.
  unfold preloadUintBig.
  destruct (Nat.leb_spec n (length (slice_bits s))) as [Hle|]; [|discriminate].
  intros [= <-].
  pose proof (uint_of_bits_range (firstn n (slice_bits s))) as Hr.
  rewrite length_firstn, Nat.min_l in Hr by lia. exact Hr.
Qed.

Lemma preloadUintBig_inv (s : Slice) (n : nat) (v : Z) :
  preloadUintBig s n = Ok v ->
  (n <= length (slice_bits s))%nat
  /\ v = uint_of_bits (firstn n (slice_bits s)).
Proof.
  unfold preloadUintBig.
  destruct (Nat.leb_spec n (length (slice_bits s))) as [Hle|]; [|discriminate].
  intros [= <-]. auto.
Qed.

(** What a successful [loadUintBig] read and what it left. *)
Lemma loadUintBig_inv (s s' : Slice) (n : nat) (v : Z) :
  loadUintBig s n = Ok (v, s') ->
  (n <= length (slice_bits s))%nat
  /\ v = uint_of_bits (firstn n (slice_bits s))
  /\ s' = mkSlice (skipn n (slice_bits s)) (slice_refs s).
Proof.
  unfold loadUintBig, preloadUintBig, skip.
  destruct (Nat.leb_spec n (length (slice_bits s))) as [Hle|]; cbn [bind];
    [|discriminate].
  intros [= <- <-]. auto.
Qed.

Lemma firstn_bits_of_uint (n : nat) (bs : list bool) (v : Z) :
  (n <= length bs)%nat ->
  uint_of_bits (firstn n bs) = v ->
  firstn n bs = bits_of_uint n v.
Proof.
  intros Hlen <-.
  rewrite <- (bits_of_uint_of_bits (firstn n bs)) at 1.
  now rewrite length_firstn, Nat.min_l by lia.
Qed.

Lemma storeUint_inv (b b' : Builder) (v : Z) (n : nat) :
  storeUint b v n = Ok b' ->
  0 <= v < 2 ^ Z.of_nat n
  /\ b' = mkBuilder (builder_bits b ++ bits_of_uint n v) (builder_refs b).
Proof.
  unfold storeUint, storeBits.
  destruct (Z.ltb_spec v 0); cbn [orb]; [discriminate|].
  destruct (Z.leb_spec (2 ^ Z.of_nat n) v); [discriminate|].
  destruct (length (builder_bits b) + length (bits_of_uint n v) <=? 1023)%nat;
    [|discriminate].
  intros [= <-]. split; [lia | reflexivity].
Qed.

(** Setting a key to the value it has leaves every lookup as it was. *)
Lemma Map_get_set_same {V : Type} (m : list (Z * V)) (k k' : Z) (v : V) :
  Map_get m k = Some v -> Map_get (Map_set m k v) k' = Map_get m k'.
Proof.
  intros Hget. destruct (Z.eq_dec k' k) as [->|Hne].
  - now rewrite Map_get_set_eq.
  - now apply Map_get_set_neq.
Qed.

(** ** What the gas price functions accept and keep *)

(** A successful [getGasPrices] has read a record of at least 208 bits
    that starts with the bits [setGasPrice] writes for the prices
    returned. *)
Lemma getGasPrices_inversion (blob : Cell) (config : Dictionary Cell)
    (w : Z) (rec : Cell) (p : GasPrices) :
  loadDictDirect (beginParse blob) (Keys_Int 32) Values_Cell = Ok config ->
  Dictionary_get config (21 + w) = Some rec ->
  getGasPrices blob w = Ok p ->
  valid_GasPrices p
  /\ (208 <= length (cell_bits rec))%nat
  /\ rec = gasRecord p (skipn 208 (cell_bits rec)) (cell_refs rec).
Proof.
  intros Hload Hget. unfold getGasPrices. rewrite Hload. cbn [bind].
  rewrite Hget. unfold loadUint. intros Hparse.
  apply bind_ok in Hparse. destruct Hparse as ([t1 s1] & H1 & Hparse).
  destruct (Z.eqb_spec t1 0xd1) as [->|]; cbn [negb] in Hparse;
    [|discriminate].
  apply bind_ok in Hparse. destruct Hparse as ([l s2] & H2 & Hparse).
  apply bind_ok in Hparse. destruct Hparse as ([f s3] & H3 & Hparse).
  apply bind_ok in Hparse. destruct Hparse as ([t2 s4] & H4 & Hparse).
  destruct (Z.eqb_spec t2 0xde) as [->|]; cbn [negb] in Hparse;
    [|discriminate].
  apply bind_ok in Hparse. destruct Hparse as (g & H5 & [= <-]).
  pose proof (loadUintBig_range _ _ _ _ H2) as Rl.
  pose proof (loadUintBig_range _ _ _ _ H3) as Rf.
  pose proof (preloadUintBig_range _ _ _ H5) as Rg.
  change (Z.of_nat 64) with 64 in Rl, Rf, Rg.
  split; [unfold valid_GasPrices; cbn; auto|].
  apply loadUintBig_inv in H1. destruct H1 as (L1 & V1 & ->).
  apply loadUintBig_inv in H2. destruct H2 as (L2 & V2 & ->).
  apply loadUintBig_inv in H3. destruct H3 as (L3 & V3 & ->).
  apply loadUintBig_inv in H4. destruct H4 as (L4 & V4 & ->).
  apply preloadUintBig_inv in H5. destruct H5 as (L5 & V5).
  unfold beginParse in *. cbn [slice_bits slice_refs] in *.
  rewrite !skipn_skipn in *.
  change (64 + 8)%nat with 72%nat in *.
  change (64 + 72)%nat with 136%nat in *.
  change (8 + 136)%nat with 144%nat in *.
  rewrite !length_skipn in *.
  split; [lia|].
  destruct rec as [bs refs]. cbn [cell_bits cell_refs] in *.
  unfold gasRecord. cbn [flat_gas_limit flat_gas_price gas_price].
  f_equal.
  rewrite <- (firstn_bits_of_uint 8 bs 0xd1) by (auto; lia).
  rewrite <- (firstn_bits_of_uint 64 (skipn 8 bs) l)
    by (rewrite ?length_skipn; auto; lia).
  rewrite <- (firstn_bits_of_uint 64 (skipn 72 bs) f)
    by (rewrite ?length_skipn; auto; lia).
  rewrite <- (firstn_bits_of_uint 8 (skipn 136 bs) 0xde)
    by (rewrite ?length_skipn; auto; lia).
  rewrite <- (firstn_bits_of_uint 64 (skipn 144 bs) g)
    by (rewrite ?length_skipn; auto; lia).
  rewrite <- (firstn_skipn 8 bs) at 1. f_equal.
  rewrite <- (firstn_skipn 64 (skipn 8 bs)) at 1. f_equal.
  rewrite skipn_skipn. cbn [Nat.add].
  rewrite <- (firstn_skipn 64 (skipn 72 bs)) at 1. f_equal.
  rewrite skipn_skipn. cbn [Nat.add].
  rewrite <- (firstn_skipn 8 (skipn 136 bs)) at 1. f_equal.
  rewrite skipn_skipn. cbn [Nat.add].
  rewrite <- (firstn_skipn 64 (skipn 144 bs)) at 1. f_equal.
  now rewrite skipn_skipn.
Qed.

(** X1: [getGasPrices] returns [p] exactly when the configuration loads
    and the record at key [21 + w] is the two tags and the three 64-bit
    fields of [p], followed by any bits and references; the prices it
    returns are always valid. *)
Theorem getGasPrices_iff (blob : Cell) (w : Z) (p : GasPrices) :
  getGasPrices blob w = Ok p
  <-> exists config tl refs,
        loadDictDirect (beginParse blob) (Keys_Int 32) Values_Cell = Ok config
        /\ Dictionary_get config (21 + w) = Some (gasRecord p tl refs)
        /\ valid_GasPrices p.
Proof.
  split.
  - intros Hget. pose proof Hget as Hget'. unfold getGasPrices in Hget'.
    apply bind_ok in Hget'. destruct Hget' as (config & Hload & Hrest).
    destruct (Dictionary_get config (21 + w)) as [rec|] eqn:Hrec;
      [|discriminate].
    destruct (getGasPrices_inversion blob config w rec p Hload Hrec Hget)
      as (Hvalid & _ & Heq).
    exists config, (skipn 208 (cell_bits rec)), (cell_refs rec).
    rewrite <- Heq. auto.
  - intros (config & tl & refs & Hload & Hrec & Hvalid).
    eapply getGasPrices_record; eassumption.
Qed.

(** X2: writing back the prices that [getGasPrices] has just read changes
    nothing: [setGasPrice] succeeds and every key of the new configuration
    holds the cell it held before, the gas record included. *)
Theorem setGasPrice_of_getGasPrices (blob : Cell) (config : Dictionary Cell)
    (rec : Cell) (p : GasPrices) (w : Z) :
  loadDictDirect (beginParse blob) (Keys_Int 32) Values_Cell = Ok config ->
  is_workchain w ->
  Dictionary_get config (21 + w) = Some rec ->
  (length (cell_bits rec) <= 1023)%nat ->
  (length (cell_refs rec) <= 4)%nat ->
  getGasPrices blob w = Ok p ->
  exists blob' config',
    setGasPrice blob p w = Ok blob'
    /\ loadDictDirect (beginParse blob') (Keys_Int 32) Values_Cell
       = Ok config'
    /\ forall k, Dictionary_get config' k = Dictionary_get config k.
Proof.
  intros Hload Hw Hrec Hbits Hrefs Hget.
  destruct (getGasPrices_inversion blob config w rec p Hload Hrec Hget)
    as (Hvalid & Hlen & Heq).
  destruct (setGasPrice_stored blob config rec p w Hload Hw Hrec
              ltac:(lia) Hrefs Hvalid)
    as (blob' & config' & Hset & Hload' & Hsame).
  exists blob', config'. split; [exact Hset|]. split; [exact Hload'|].
  intros k. rewrite Hsame, <- Heq. unfold Dictionary_get, Dictionary_set.
  now apply Map_get_set_same.
Qed.

Lemma setGasPrice_of_getGasPrices_witness :
  exists blob' config',
    setGasPrice sampleConfig sampleGas 0 = Ok blob'
    /\ loadDictDirect (beginParse blob') (Keys_Int 32) Values_Cell
       = Ok config'
    /\ forall k, Dictionary_get config' k = Dictionary_get sampleEntries k.
Proof.
  apply (setGasPrice_of_getGasPrices sampleConfig sampleEntries
           (gasRecord sampleGas [true; false; true] [mkCell [true] []])).
  - vm_compute. reflexivity.
  - left. reflexivity.
  - reflexivity.
  - simpl. lia.
  - simpl. lia.
  - vm_compute. reflexivity.
Defined.

(** X3: [setGasPrice] touches the gas record of workchain [w] only: every
    other key keeps its cell, so the storage prices, the message prices
    and the gas prices of the other workchain read as before. *)
Theorem setGasPrice_frame (blob : Cell) (config : Dictionary Cell)
    (rec : Cell) (p : GasPrices) (w : Z) :
  loadDictDirect (beginParse blob) (Keys_Int 32) Values_Cell = Ok config ->
  is_workchain w ->
  Dictionary_get config (21 + w) = Some rec ->
  (208 <= length (cell_bits rec) <= 1023)%nat ->
  (length (cell_refs rec) <= 4)%nat ->
  valid_GasPrices p ->
  exists blob' config',
    setGasPrice blob p w = Ok blob'
    /\ loadDictDirect (beginParse blob') (Keys_Int 32) Values_Cell
       = Ok config'
    /\ (forall k, k <> 21 + w ->
          Dictionary_get config' k = Dictionary_get config k)
    /\ getStoragePrices blob' = getStoragePrices blob
    /\ (forall w', is_workchain w' ->
          getMsgPrices blob' w' = getMsgPrices blob w')
    /\ (forall w', is_workchain w' -> w' <> w ->
          getGasPrices blob' w' = getGasPrices blob w').
Proof.
  intros Hload Hw Hrec Hbits Hrefs Hvalid.
  destruct (setGasPrice_stored blob config rec p w Hload Hw Hrec Hbits Hrefs
              Hvalid) as (blob' & config' & Hset & Hload' & Hsame).
  assert (Hframe : forall k, k <> 21 + w ->
            Dictionary_get config' k = Dictionary_get config k).
  { intros k Hk. rewrite Hsame. now apply Map_get_set_neq. }
  exists blob', config'. split; [exact Hset|]. split; [exact Hload'|].
  split; [exact Hframe|]. split; [|split].
  - unfold getStoragePrices. rewrite Hload, Hload'. cbn [bind].
    rewrite Hframe by (destruct Hw as [-> | ->]; lia). reflexivity.
  - intros w' Hw'. unfold getMsgPrices. rewrite Hload, Hload'. cbn [bind].
    rewrite Hframe
      by (destruct Hw as [-> | ->]; destruct Hw' as [-> | ->]; lia).
    reflexivity.
  - intros w' Hw' Hne. unfold getGasPrices. rewrite Hload, Hload'.
    cbn [bind]. rewrite Hframe by lia. reflexivity.
Qed.

Lemma setGasPrice_frame_witness :
  exists blob',
    setGasPrice sampleConfig (mkGasPrices 7 8 9) 0 = Ok blob'
    /\ getStoragePrices blob' = getStoragePrices sampleConfig
    /\ getGasPrices blob' (-1) = getGasPrices sampleConfig (-1).
Proof.
  destruct (setGasPrice_frame sampleConfig sampleEntries
              (gasRecord sampleGas [true; false; true] [mkCell [true] []])
              (mkGasPrices 7 8 9) 0)
    as (blob' & config' & Hset & _ & _ & Hst & _ & Hgas).
  - vm_compute. reflexivity.
  - left. reflexivity.
  - reflexivity.
  - simpl. lia.
  - simpl. lia.
  - unfold valid_GasPrices. simpl. lia.
  - exists blob'. split; [exact Hset|]. split; [exact Hst|].
    apply Hgas; [right; reflexivity | lia].
Defined.

(** X4: the last write wins: after [setGasPrice] with [p1] and then with
    [p2] on the same workchain, [getGasPrices] returns [p2], and the bits
    and references after the fields are still those of the first record. *)
Theorem setGasPrice_twice (blob : Cell) (config : Dictionary Cell)
    (rec : Cell) (p1 p2 : GasPrices) (w : Z) :
  loadDictDirect (beginParse blob) (Keys_Int 32) Values_Cell = Ok config ->
  is_workchain w ->
  Dictionary_get config (21 + w) = Some rec ->
  (208 <= length (cell_bits rec) <= 1023)%nat ->
  (length (cell_refs rec) <= 4)%nat ->
  valid_GasPrices p1 -> valid_GasPrices p2 ->
  exists blob1 blob2 config2,
    setGasPrice blob p1 w = Ok blob1
    /\ setGasPrice blob1 p2 w = Ok blob2
    /\ getGasPrices blob2 w = Ok p2
    /\ loadDictDirect (beginParse blob2) (Keys_Int 32) Values_Cell
       = Ok config2
    /\ Dictionary_get config2 (21 + w)
       = Some (gasRecord p2 (skipn 208 (cell_bits rec)) (cell_refs rec)).
Proof.
  intros Hload Hw Hrec Hbits Hrefs Hv1 Hv2.
  destruct (setGasPrice_stored blob config rec p1 w Hload Hw Hrec Hbits Hrefs
              Hv1) as (blob1 & config1 & Hset1 & Hload1 & Hsame1).
  set (rec1 := gasRecord p1 (skipn 208 (cell_bits rec)) (cell_refs rec)) in *.
  assert (Hrec1 : Dictionary_get config1 (21 + w) = Some rec1).
  { rewrite Hsame1. apply Map_get_set_eq. }
  assert (Hlen1 : length (cell_bits rec1) = length (cell_bits rec)).
  { unfold rec1, gasRecord. cbn [cell_bits].
    repeat rewrite ?length_app, ?length_bits_of_uint, ?length_skipn. lia. }
  assert (Htail1 : skipn 208 (cell_bits rec1) = skipn 208 (cell_bits rec)).
  { unfold rec1, gasRecord. cbn [cell_bits]. rewrite !app_assoc.
    apply skipn_app_exact.
    repeat rewrite ?length_app, ?length_bits_of_uint. reflexivity. }
  destruct (setGasPrice_stored blob1 config1 rec1 p2 w Hload1 Hw Hrec1
              ltac:(lia) Hrefs Hv2)
    as (blob2 & config2 & Hset2 & Hload2 & Hsame2).
  rewrite Htail1 in Hsame2. change (cell_refs rec1) with (cell_refs rec) in *.
  assert (Hrec2 : Dictionary_get config2 (21 + w)
                  = Some (gasRecord p2 (skipn 208 (cell_bits rec))
                            (cell_refs rec))).
  { rewrite Hsame2. apply Map_get_set_eq. }
  exists blob1, blob2, config2.
  split; [exact Hset1|]. split; [exact Hset2|]. split; [|auto].
  eapply getGasPrices_record; eassumption.
Qed.

Lemma setGasPrice_twice_witness :
  exists blob1 blob2,
    setGasPrice sampleConfig (mkGasPrices 7 8 9) 0 = Ok blob1
    /\ setGasPrice blob1 (mkGasPrices 1 2 3) 0 = Ok blob2
    /\ getGasPrices blob2 0 = Ok (mkGasPrices 1 2 3).
Proof.
  destruct (setGasPrice_twice sampleConfig sampleEntries
              (gasRecord sampleGas [true; false; true] [mkCell [true] []])
              (mkGasPrices 7 8 9) (mkGasPrices 1 2 3) 0)
    as (blob1 & blob2 & _ & H1 & H2 & H3 & _).
  - vm_compute. reflexivity.
  - left. reflexivity.
  - reflexivity.
  - simpl. lia.
  - simpl. lia.
  - unfold valid_GasPrices. simpl. lia.
  - unfold valid_GasPrices. simpl. lia.
  - exists blob1, blob2. auto.
Defined.

(** X5: [setGasPrice] returns a configuration only when the prices are
    valid and the key [21 + w] holds a record of at least 208 bits: prices
    out of range, a missing key or a short record make it throw. *)
Theorem setGasPrice_ok_inv (blob blob' : Cell) (p : GasPrices) (w : Z) :
  setGasPrice blob p w = Ok blob' ->
  valid_GasPrices p
  /\ exists config rec,
       loadDictDirect (beginParse blob) (Keys_Int 32) Values_Cell = Ok config
       /\ Dictionary_get config (21 + w) = Some rec
       /\ (208 <= length (cell_bits rec))%nat.
Proof.
  unfold setGasPrice. intros Hset.
  apply bind_ok in Hset. destruct Hset as (config & Hload & Hset).
  destruct (Dictionary_get config (21 + w)) as [rec|] eqn:Hrec;
    [|discriminate].
  apply bind_ok in Hset. destruct Hset as (tl & Hskip & Hset).
  apply bind_ok in Hset. destruct Hset as (b1 & _ & Hset).
  apply bind_ok in Hset. destruct Hset as (b2 & H2 & Hset).
  apply bind_ok in Hset. destruct Hset as (b3 & H3 & Hset).
  apply bind_ok in Hset. destruct Hset as (b4 & _ & Hset).
  apply bind_ok in Hset. destruct Hset as (b5 & H5 & _).
  apply storeUint_inv in H2, H3, H5.
  change (Z.of_nat 64) with 64 in *.
  split; [unfold valid_GasPrices; tauto|].
  exists config, rec. split; [exact Hload|]. split; [exact Hrec|].
  unfold skip, beginParse in Hskip. cbn [slice_bits] in Hskip.
  change (8 + 64 + 64 + 8 + 64)%nat with 208%nat in Hskip.
  destruct (Nat.leb_spec 208 (length (cell_bits rec))); [lia | discriminate].
Qed.

Lemma setGasPrice_ok_inv_witness :
  valid_GasPrices (mkGasPrices 7 8 9).
Proof.
  apply (setGasPrice_ok_inv sampleConfig
           (cell_or_empty (setGasPrice sampleConfig (mkGasPrices 7 8 9) 0))
           (mkGasPrices 7 8 9) 0).
  vm_compute. reflexivity.
Defined.

(** ** What the message price functions accept and keep *)

Lemma configParseMsgPrices_inversion (sc : Slice) (p : MsgPrices) :
  configParseMsgPrices sc = Ok p ->
  valid_MsgPrices p
  /\ slice_bits sc
     = cell_bits (msgRecord p) ++ skipn 264 (slice_bits sc).
Proof.
  unfold configParseMsgPrices, loadUint. intros Hparse.
  apply bind_ok in Hparse. destruct Hparse as ([t s1] & H1 & Hparse).
  destruct (Z.eqb_spec t 0xea) as [->|]; cbn [negb] in Hparse;
    [|discriminate].
  apply bind_ok in Hparse. destruct Hparse as ([l s2] & H2 & Hparse).
  apply bind_ok in Hparse. destruct Hparse as ([b s3] & H3 & Hparse).
  apply bind_ok in Hparse. destruct Hparse as ([c s4] & H4 & Hparse).
  apply bind_ok in Hparse. destruct Hparse as ([i s5] & H5 & Hparse).
  apply bind_ok in Hparse. destruct Hparse as ([f s6] & H6 & Hparse).
  apply bind_ok in Hparse. destruct Hparse as ([x s7] & H7 & [= <-]).
  pose proof (loadUintBig_range _ _ _ _ H2) as R2.
  pose proof (loadUintBig_range _ _ _ _ H3) as R3.
  pose proof (loadUintBig_range _ _ _ _ H4) as R4.
  pose proof (loadUintBig_range _ _ _ _ H5) as R5.
  pose proof (loadUintBig_range _ _ _ _ H6) as R6.
  pose proof (loadUintBig_range _ _ _ _ H7) as R7.
  change (Z.of_nat 64) with 64 in *. change (Z.of_nat 32) with 32 in *.
  change (Z.of_nat 16) with 16 in *.
  split; [unfold valid_MsgPrices; cbn; auto 10|].
  apply loadUintBig_inv in H1. destruct H1 as (L1 & V1 & ->).
  apply loadUintBig_inv in H2. destruct H2 as (L2 & V2 & ->).
  apply loadUintBig_inv in H3. destruct H3 as (L3 & V3 & ->).
  apply loadUintBig_inv in H4. destruct H4 as (L4 & V4 & ->).
  apply loadUintBig_inv in H5. destruct H5 as (L5 & V5 & ->).
  apply loadUintBig_inv in H6. destruct H6 as (L6 & V6 & ->).
  apply loadUintBig_inv in H7. destruct H7 as (L7 & V7 & _).
  cbn [slice_bits slice_refs] in *.
  rewrite !skipn_skipn in *.
  change (64 + 8)%nat with 72%nat in *.
  change (64 + 72)%nat with 136%nat in *.
  change (64 + 136)%nat with 200%nat in *.
  change (32 + 200)%nat with 232%nat in *.
  change (16 + 232)%nat with 248%nat in *.
  rewrite !length_skipn in *.
  set (bs := slice_bits sc) in *.
  unfold msgRecord. cbn [cell_bits lumpPrice bitPrice cellPrice
    ihrPriceFactor firstFrac nextFrac].
  rewrite <- (firstn_bits_of_uint 8 bs 0xea) by (auto; lia).
  rewrite <- (firstn_bits_of_uint 64 (skipn 8 bs) l)
    by (rewrite ?length_skipn; auto; lia).
  rewrite <- (firstn_bits_of_uint 64 (skipn 72 bs) b)
    by (rewrite ?length_skipn; auto; lia).
  rewrite <- (firstn_bits_of_uint 64 (skipn 136 bs) c)
    by (rewrite ?length_skipn; auto; lia).
  rewrite <- (firstn_bits_of_uint 32 (skipn 200 bs) i)
    by (rewrite ?length_skipn; auto; lia).
  rewrite <- (firstn_bits_of_uint 16 (skipn 232 bs) f)
    by (rewrite ?length_skipn; auto; lia).
  rewrite <- (firstn_bits_of_uint 16 (skipn 248 bs) x)
    by (rewrite ?length_skipn; auto; lia).
  rewrite <- !app_assoc.
  rewrite <- (firstn_skipn 8 bs) at 1. f_equal.
  rewrite <- (firstn_skipn 64 (skipn 8 bs)) at 1. f_equal.
  rewrite skipn_skipn. cbn [Nat.add].
  rewrite <- (firstn_skipn 64 (skipn 72 bs)) at 1. f_equal.
  rewrite skipn_skipn. cbn [Nat.add].
  rewrite <- (firstn_skipn 64 (skipn 136 bs)) at 1. f_equal.
  rewrite skipn_skipn. cbn [Nat.add].
  rewrite <- (firstn_skipn 32 (skipn 200 bs)) at 1. f_equal.
  rewrite skipn_skipn. cbn [Nat.add].
  rewrite <- (firstn_skipn 16 (skipn 232 bs)) at 1. f_equal.
  rewrite skipn_skipn. cbn [Nat.add].
  rewrite <- (firstn_skipn 16 (skipn 248 bs)) at 1. f_equal.
  now rewrite skipn_skipn.
Qed.

Lemma configParseMsgPrices_bits (p : MsgPrices) (rest : list bool)
    (refs : list Cell) :
  valid_MsgPrices p ->
  configParseMsgPrices (mkSlice (cell_bits (msgRecord p) ++ rest) refs)
  = Ok p.
Proof.
  intros (Hl & Hb & Hc & Hi & Hf & Hn).
  unfold configParseMsgPrices, msgRecord, loadUint. cbn [cell_bits].
  rewrite <- !app_assoc.
  load_step. change (negb (0xea =? 0xea)) with false. cbv iota.
  load_step. load_step. load_step. load_step. load_step. load_step.
  now destruct p.
Qed.

(** X6: [getMsgPrices] returns [p] exactly when the configuration loads
    and the cell at key [25 + w] starts with the tag [0xea] and the six
    fields of [p] on their 64, 64, 64, 32, 16 and 16 bits; whatever
    follows is ignored, and the prices returned are always valid. *)
Theorem getMsgPrices_iff (blob : Cell) (w : Z) (p : MsgPrices) :
  getMsgPrices blob w = Ok p
  <-> exists config rest refs,
        loadDictDirect (beginParse blob) (Keys_Int 32) Values_Cell = Ok config
        /\ Dictionary_get config (25 + w)
           = Some (mkCell (cell_bits (msgRecord p) ++ rest) refs)
        /\ valid_MsgPrices p.
Proof.
  unfold getMsgPrices. split.
  - intros Hget.
    apply bind_ok in Hget. destruct Hget as (config & Hload & Hget).
    destruct (Dictionary_get config (25 + w)) as [[bs refs]|] eqn:Hrec;
      [|discriminate].
    apply configParseMsgPrices_inversion in Hget.
    destruct Hget as (Hvalid & Hbits).
    unfold beginParse in Hbits. cbn [slice_bits cell_bits] in Hbits.
    exists config, (skipn 264 bs), refs.
    split; [exact Hload|]. split; [|exact Hvalid].
    cbn [cell_bits] in Hbits |- *. now rewrite <- Hbits.
  - intros (config & rest & refs & Hload & Hrec & Hvalid).
    rewrite Hload. cbn [bind]. rewrite Hrec.
    now apply configParseMsgPrices_bits.
Qed.

Lemma setMsgPrices_stored (blob : Cell) (config : Dictionary Cell)
    (p : MsgPrices) (w : Z) :
  loadDictDirect (beginParse blob) (Keys_Int 32) Values_Cell = Ok config ->
  is_workchain w ->
  valid_MsgPrices p ->
  exists blob' config',
    setMsgPrices blob p w = Ok blob'
    /\ loadDictDirect (beginParse blob') (Keys_Int 32) Values_Cell
       = Ok config'
    /\ forall k,
         Dictionary_get config' k
         = Dictionary_get (Dictionary_set config (25 + w) (msgRecord p)) k.
Proof.
  intros Hload Hw Hvalid.
  destruct (config_set_store blob config (25 + w) (msgRecord p) Hload)
    as (b & config' & Hstore & Hload' & Hsame).
  { destruct Hw as [-> | ->]; lia. }
  exists (endCell b), config'. split; [|split; [exact Hload' | exact Hsame]].
  destruct Hvalid as (Hl & Hb & Hc & Hi & Hf & Hn).
  unfold setMsgPrices. rewrite Hload. cbn [bind]. unfold beginCell.
  store_step. store_step. store_step. store_step. store_step. store_step.
  store_step. unfold endCell at 1. cbn [builder_bits builder_refs].
  unfold msgRecord, beginCell in Hstore. rewrite <- !app_assoc. cbn [app].
  rewrite Hstore. reflexivity.
Qed.

(** X7: [setMsgPrices] touches the key [25 + w] only, creating it when it
    is absent: every other key keeps its cell, so the storage prices, the
    gas prices and the message prices of the other workchain read as
    before. *)
Theorem setMsgPrices_frame (blob : Cell) (config : Dictionary Cell)
    (p : MsgPrices) (w : Z) :
  loadDictDirect (beginParse blob) (Keys_Int 32) Values_Cell = Ok config ->
  is_workchain w ->
  valid_MsgPrices p ->
  exists blob' config',
    setMsgPrices blob p w = Ok blob'
    /\ loadDictDirect (beginParse blob') (Keys_Int 32) Values_Cell
       = Ok config'
    /\ Dictionary_get config' (25 + w) = Some (msgRecord p)
    /\ (forall k, k <> 25 + w ->
          Dictionary_get config' k = Dictionary_get config k)
    /\ getStoragePrices blob' = getStoragePrices blob
    /\ (forall w', is_workchain w' ->
          getGasPrices blob' w' = getGasPrices blob w')
    /\ (forall w', is_workchain w' -> w' <> w ->
          getMsgPrices blob' w' = getMsgPrices blob w').
Proof.
  intros Hload Hw Hvalid.
  destruct (setMsgPrices_stored blob config p w Hload Hw Hvalid)
    as (blob' & config' & Hset & Hload' & Hsame).
  assert (Hframe : forall k, k <> 25 + w ->
            Dictionary_get config' k = Dictionary_get config k).
  { intros k Hk. rewrite Hsame. now apply Map_get_set_neq. }
  exists blob', config'. split; [exact Hset|]. split; [exact Hload'|].
  split; [rewrite Hsame; apply Map_get_set_eq|].
  split; [exact Hframe|]. split; [|split].
  - unfold getStoragePrices. rewrite Hload, Hload'. cbn [bind].
    rewrite Hframe by (destruct Hw as [-> | ->]; lia). reflexivity.
  - intros w' Hw'. unfold getGasPrices. rewrite Hload, Hload'. cbn [bind].
    rewrite Hframe
      by (destruct Hw as [-> | ->]; destruct Hw' as [-> | ->]; lia).
    reflexivity.
  - intros w' Hw' Hne. unfold getMsgPrices. rewrite Hload, Hload'.
    cbn [bind]. rewrite Hframe by lia. reflexivity.
Qed.

Lemma setMsgPrices_frame_witness :
  exists blob',
    setMsgPrices sampleConfig (mkMsgPrices 1 2 3 4 5 6) (-1) = Ok blob'
    /\ getMsgPrices blob' 0 = getMsgPrices sampleConfig 0
    /\ getGasPrices blob' 0 = getGasPrices sampleConfig 0.
Proof.
  destruct (setMsgPrices_frame sampleConfig sampleEntries
              (mkMsgPrices 1 2 3 4 5 6) (-1))
    as (blob' & config' & Hset & _ & _ & _ & _ & Hgas & Hmsg).
  - vm_compute. reflexivity.
  - right. reflexivity.
  - unfold valid_MsgPrices. simpl. lia.
  - exists blob'. split; [exact Hset|]. split.
    + apply Hmsg; [left; reflexivity | lia].
    + apply Hgas. left. reflexivity.
Defined.

(** X8: [setMsgPrices] returns a configuration only for valid prices: a
    field that does not fit its width makes it throw, and nothing is
    truncated. *)
Theorem setMsgPrices_ok_inv (blob blob' : Cell) (p : MsgPrices) (w : Z) :
  setMsgPrices blob p w = Ok blob' -> valid_MsgPrices p.
Proof.
  unfold setMsgPrices. intros Hset.
  apply bind_ok in Hset. destruct Hset as (config & _ & Hset).
  apply bind_ok in Hset. destruct Hset as (b1 & _ & Hset).
  apply bind_ok in Hset. destruct Hset as (b2 & H2 & Hset).
  apply bind_ok in Hset. destruct Hset as (b3 & H3 & Hset).
  apply bind_ok in Hset. destruct Hset as (b4 & H4 & Hset).
  apply bind_ok in Hset. destruct Hset as (b5 & H5 & Hset).
  apply bind_ok in Hset. destruct Hset as (b6 & H6 & Hset).
  apply bind_ok in Hset. destruct Hset as (b7 & H7 & _).
  apply storeUint_inv in H2, H3, H4, H5, H6, H7.
  change (Z.of_nat 64) with 64 in *. change (Z.of_nat 32) with 32 in *.
  change (Z.of_nat 16) with 16 in *.
  unfold valid_MsgPrices. tauto.
Qed.

Lemma setMsgPrices_ok_inv_witness :
  valid_MsgPrices (mkMsgPrices 1 2 3 4 5 6).
Proof.
  apply (setMsgPrices_ok_inv sampleConfig
           (cell_or_empty
              (setMsgPrices sampleConfig (mkMsgPrices 1 2 3 4 5 6) 0))
           (mkMsgPrices 1 2 3 4 5 6) 0).
  vm_compute. reflexivity.
Defined.

(** ** The order of a dictionary read from a cell *)

(** [doParse] appends: the leaves of the subtree under [prefix] have keys
    between [prefix 0..0] and [prefix 1..1], and they are met in ascending
    order. *)
Lemma doParse_appends {V : Type} (extractor : Slice -> Res V) (fuel : nat) :
  forall prefix s n res res',
    (forall k, In k (map fst res) ->
       k < uint_of_bits prefix * 2 ^ Z.of_nat n) ->
    doParse fuel prefix s n res extractor = Ok res' ->
    exists news,
      res' = res ++ news
      /\ news <> []
      /\ StronglySorted Z.lt (map fst news)
      /\ forall k, In k (map fst news) ->
           uint_of_bits prefix * 2 ^ Z.of_nat n <= k
           < (uint_of_bits prefix + 1) * 2 ^ Z.of_nat n.
Proof.
  induction fuel as [|fuel IH]; intros prefix s n res res' Hres Hparse;
    [discriminate|].
  cbn [doParse] in Hparse.
  apply bind_ok in Hparse. destruct Hparse as ([label s1] & _ & Hparse).
  destruct (Nat.ltb_spec n (length label)) as [|Hle]; [discriminate|].
  pose proof (uint_of_bits_range label) as Hlabel.
  pose proof (uint_of_bits_range prefix) as Hprefix.
  destruct (Nat.eqb_spec (n - length label) 0) as [Hz|Hnz].
  - apply bind_ok in Hparse. destruct Hparse as (v & _ & [= <-]).
    assert (Hn : length label = n) by lia. rewrite Hn in Hlabel.
    assert (Hkey : uint_of_bits (prefix ++ label)
                   = uint_of_bits prefix * 2 ^ Z.of_nat n
                     + uint_of_bits label)
      by (rewrite uint_of_bits_app, Hn; reflexivity).
    exists [(uint_of_bits (prefix ++ label), v)].
    split; [|split; [discriminate|split]].
    + apply Map_set_new. intros Hin. apply Hres in Hin. lia.
    + cbn [map fst]. repeat constructor.
    + cbn [map fst In]. intros k [<-|[]]. lia.
  - apply bind_ok in Hparse. destruct Hparse as ([l s2] & _ & Hparse).
    apply bind_ok in Hparse. destruct Hparse as ([r s3] & _ & Hparse).
    apply bind_ok in Hparse. destruct Hparse as (res1 & Hleft & Hright).
    set (m := length label) in *. set (n' := (n - m - 1)%nat) in *.
    assert (Hpow : 2 ^ Z.of_nat n
                   = 2 ^ Z.of_nat m * (2 * 2 ^ Z.of_nat n')).
    { replace (Z.of_nat n) with (Z.of_nat m + (1 + Z.of_nat n')) by lia.
      rewrite !Z.pow_add_r by lia. reflexivity. }
    assert (HA : 0 < 2 ^ Z.of_nat n') by (apply Z.pow_pos_nonneg; lia).
    assert (HB : 0 < 2 ^ Z.of_nat m) by (apply Z.pow_pos_nonneg; lia).
    assert (Hpp : uint_of_bits (prefix ++ label)
                  = uint_of_bits prefix * 2 ^ Z.of_nat m
                    + uint_of_bits label)
      by (rewrite uint_of_bits_app; reflexivity).
    assert (Hf : uint_of_bits ((prefix ++ label) ++ [false])
                 = 2 * uint_of_bits (prefix ++ label))
      by (rewrite uint_of_bits_app; cbn [length];
          change (uint_of_bits [false]) with 0;
          change (2 ^ Z.of_nat 1) with 2; lia).
    assert (Ht : uint_of_bits ((prefix ++ label) ++ [true])
                 = 2 * uint_of_bits (prefix ++ label) + 1)
      by (rewrite uint_of_bits_app; cbn [length];
          change (uint_of_bits [true]) with 1;
          change (2 ^ Z.of_nat 1) with 2; lia).
    set (U := uint_of_bits prefix) in *. set (L := uint_of_bits label) in *.
    set (A := 2 ^ Z.of_nat n') in *. set (B := 2 ^ Z.of_nat m) in *.
    set (P := uint_of_bits (prefix ++ label)) in *.
    assert (HL : 0 <= L * A /\ L * A + A <= B * A) by nia.
    assert (Hres0 : forall k, In k (map fst res) ->
              k < uint_of_bits ((prefix ++ label) ++ [false])
                  * 2 ^ Z.of_nat n').
    { intros k Hk. apply Hres in Hk. rewrite Hf. fold A.
      rewrite Hpow in Hk. rewrite Hpp. nia. }
    destruct (IH _ _ _ _ _ Hres0 Hleft) as (news1 & -> & Hne1 & Hs1 & Hr1).
    assert (Hres1 : forall k, In k (map fst (res ++ news1)) ->
              k < uint_of_bits ((prefix ++ label) ++ [true])
                  * 2 ^ Z.of_nat n').
    { intros k Hk. rewrite map_app in Hk. apply in_app_or in Hk.
      rewrite Ht. fold A. destruct Hk as [Hk|Hk].
      - apply Hres in Hk. rewrite Hpow in Hk. rewrite Hpp. nia.
      - apply Hr1 in Hk. rewrite Hf in Hk. fold A in Hk. nia. }
    destruct (IH _ _ _ _ _ Hres1 Hright) as (news2 & -> & Hne2 & Hs2 & Hr2).
    exists (news1 ++ news2). split; [now rewrite app_assoc|].
    split; [destruct news1; [congruence | discriminate]|].
    rewrite map_app. split.
    + apply StronglySorted_app; [exact Hs1 | exact Hs2|].
      intros a b Ha Hb. apply Hr1 in Ha. apply Hr2 in Hb.
      rewrite Hf in Ha. rewrite Ht in Hb. fold A in Ha, Hb. nia.
    + intros k Hk. apply in_app_or in Hk. rewrite Hpow.
      destruct Hk as [Hk|Hk].
      * apply Hr1 in Hk. rewrite Hf, Hpp in Hk. fold A in Hk. nia.
      * apply Hr2 in Hk. rewrite Ht, Hpp in Hk. fold A in Hk. nia.
Qed.

Lemma StronglySorted_lt_NoDup (l : list Z) :
  StronglySorted Z.lt l -> NoDup l.
Proof.
  induction 1 as [|x l Hs IH Hx]; constructor; [|exact IH].
  intros Hin. rewrite Forall_forall in Hx. specialize (Hx x Hin). lia.
Qed.

(** A dictionary with unsigned keys is loaded in ascending key order. *)
Lemma loadDictDirect_Uint_sorted {V : Type} (s : Slice) (n : nat)
    (value : DictionaryValue V) (d : Dictionary V) :
  loadDictDirect s (Keys_Uint n) value = Ok d ->
  d <> [] /\ StronglySorted Z.lt (map fst d).
Proof.
  unfold loadDictDirect, Dictionary_loadDirect, parseDict. intros Hload.
  apply bind_ok in Hload. destruct Hload as (values & Hparse & [= <-]).
  apply doParse_appends in Hparse; [|intros k []].
  destruct Hparse as (news & -> & Hne & Hsorted & _). cbn [app].
  rewrite (fold_Map_set_fresh _ (fun u : Z => u)).
  - cbn [app].
    replace (map (fun kv : Z * V => (fst kv, snd kv)) news) with news
      by (rewrite <- (map_id news) at 1; apply map_ext; now intros []).
    split; [exact Hne | exact Hsorted].
  - cbn [map app].
    replace (map (fun kv : Z * V => fst kv) news) with (map fst news)
      by reflexivity.
    now apply StronglySorted_lt_NoDup.
Qed.

(** In a list sorted by key the last entry has the highest key. *)
Lemma sorted_last_max {V : Type} (d : list (Z * V)) :
  d <> [] ->
  StronglySorted Z.lt (map fst d) ->
  exists k v,
    In (k, v) d
    /\ Array_at (map snd d) (Z.of_nat (length (map snd d)) - 1) = Some v
    /\ forall k', In k' (map fst d) -> k' <= k.
Proof.
  intros Hne Hsorted.
  destruct (exists_last Hne) as (d0 & [k v] & ->).
  exists k, v.
  assert (Hmax : forall k', In k' (map fst (d0 ++ [(k, v)])) -> k' <= k).
  { intros k' Hk'. rewrite map_app in Hk', Hsorted. cbn [map fst] in *.
    apply in_app_or in Hk'. destruct Hk' as [Hk'|[<-|[]]]; [|lia].
    clear Hne. induction d0 as [|kv0 d0 IH]; [destruct Hk'|].
    cbn [map app] in Hsorted. apply StronglySorted_inv in Hsorted.
    destruct Hsorted as [Hsorted Hlt]. destruct Hk' as [<-|Hk'].
    - rewrite Forall_forall in Hlt.
      specialize (Hlt k ltac:(apply in_or_app; right; now left)). lia.
    - now apply IH. }
  split; [apply in_or_app; right; now left|].
  split; [|exact Hmax].
  apply sorted_last with (k := k); [exact Hsorted| |exact Hmax].
  apply in_or_app. right. now left.
Qed.

(** ** Storage prices: which entry is read and which is written *)

Lemma getStoragePrices_loaded (blob inner : Cell) (config : Dictionary Cell)
    (storageData : Dictionary StorageValue) :
  loadDictDirect (beginParse blob) (Keys_Int 32) Values_Cell = Ok config ->
  Dictionary_get config 18 = Some inner ->
  loadDictDirect (beginParse inner) (Keys_Uint 32) storageValue
  = Ok storageData ->
  getStoragePrices blob
  = Ok (Array_at (map snd storageData)
          (Z.of_nat (length (map snd storageData)) - 1)).
Proof.
  intros Hload Hget Hinner. unfold getStoragePrices.
  rewrite Hload. cbn [bind]. rewrite Hget. cbn [option_map].
  unfold loadDictDirect in Hinner. rewrite Hinner. reflexivity.
Qed.

(** X9: when the key [18] holds a dictionary that loads, [getStoragePrices]
    returns the entry of its highest key, whatever the keys are; the
    result is never [undefined]. *)
Theorem getStoragePrices_highest_key (blob inner : Cell)
    (config : Dictionary Cell) (storageData : Dictionary StorageValue) :
  loadDictDirect (beginParse blob) (Keys_Int 32) Values_Cell = Ok config ->
  Dictionary_get config 18 = Some inner ->
  loadDictDirect (beginParse inner) (Keys_Uint 32) storageValue
  = Ok storageData ->
  exists k v,
    getStoragePrices blob = Ok (Some v)
    /\ Dictionary_get storageData k = Some v
    /\ forall k', In k' (map fst storageData) -> k' <= k.
Proof.
  intros Hload Hget Hinner.
  destruct (loadDictDirect_Uint_sorted _ _ _ _ Hinner) as (Hne & Hsorted).
  destruct (sorted_last_max storageData Hne Hsorted)
    as (k & v & Hin & Hlast & Hmax).
  exists k, v. split; [|split; [|exact Hmax]].
  - rewrite (getStoragePrices_loaded _ _ _ _ Hload Hget Hinner).
    now rewrite Hlast.
  - apply Map_get_In; [now apply StronglySorted_lt_NoDup | exact Hin].
Qed.

Lemma getStoragePrices_highest_key_witness :
  exists k v,
    getStoragePrices sparseConfig = Ok (Some v)
    /\ Dictionary_get sparseStorage k = Some v
    /\ forall k', In k' (map fst sparseStorage) -> k' <= k.
Proof.
  apply (getStoragePrices_highest_key sparseConfig
           (cell_or_empty (storeStorageDict sparseStorage))
           [(18, cell_or_empty (storeStorageDict sparseStorage));
            (21, gasRecord sampleGas [] [])]).
  - vm_compute. reflexivity.
  - reflexivity.
  - vm_compute. reflexivity.
Defined.

(** X10: without the key [18], [setStoragePrices] throws: the empty
    dictionary gets the key [-1], which is no unsigned key. *)
Theorem setStoragePrices_missing_key (blob : Cell)
    (config : Dictionary Cell) (p : StorageValue) :
  loadDictDirect (beginParse blob) (Keys_Int 32) Values_Cell = Ok config ->
  Dictionary_get config 18 = None ->
  exists e, setStoragePrices blob p = Throw e.
Proof.
  intros Hload Hget. unfold setStoragePrices.
  rewrite Hload. cbn [bind]. rewrite Hget.
  cbn [option_map Dictionary_loadDirect bind Dictionary_values map length].
  eexists. reflexivity.
Qed.

Lemma setStoragePrices_missing_key_witness :
  exists e,
    setStoragePrices noStorageConfig (mkStorageValue 1 2 3 4 5) = Throw e.
Proof.
  apply (setStoragePrices_missing_key noStorageConfig
           [(20, gasRecord sampleGas [] []); (21, gasRecord sampleGas [] [])]).
  - vm_compute. reflexivity.
  - reflexivity.
Defined.

(** Ascending integers between two bounds are no more than the bounds
    leave room for. *)
Lemma sorted_length_bound (l : list Z) :
  forall lo hi,
    lo <= hi ->
    StronglySorted Z.lt l ->
    (forall k, In k l -> lo <= k < hi) ->
    Z.of_nat (length l) <= hi - lo.
Proof.
  induction l as [|x l IH]; intros lo hi Hle Hsorted Hrange;
    cbn [length]; [lia|].
  apply StronglySorted_inv in Hsorted. destruct Hsorted as [Hsorted Hx].
  rewrite Forall_forall in Hx.
  pose proof (Hrange x ltac:(now left)) as Hx0.
  specialize (IH (x + 1) hi ltac:(lia) Hsorted).
  assert (Hl : forall k, In k l -> x + 1 <= k < hi).
  { intros k Hk. specialize (Hx k Hk).
    specialize (Hrange k ltac:(now right)). lia. }
  specialize (IH Hl). lia.
Qed.

(** What [setStoragePrices] builds: the inner dictionary with the key
    [length - 1] set, stored under the key [18]. *)
Lemma setStoragePrices_result (blob inner : Cell) (config : Dictionary Cell)
    (storageData : Dictionary StorageValue) (p : StorageValue) :
  loadDictDirect (beginParse blob) (Keys_Int 32) Values_Cell = Ok config ->
  Dictionary_get config 18 = Some inner ->
  loadDictDirect (beginParse inner) (Keys_Uint 32) storageValue
  = Ok storageData ->
  valid_StorageValue p ->
  exists blob' inner' config' storageData',
    setStoragePrices blob p = Ok blob'
    /\ loadDictDirect (beginParse blob') (Keys_Int 32) Values_Cell
       = Ok config'
    /\ (forall k, Dictionary_get config' k
                  = Dictionary_get (Dictionary_set config 18 inner') k)
    /\ loadDictDirect (beginParse inner') (Keys_Uint 32) storageValue
       = Ok storageData'
    /\ Permutation
         (Dictionary_set storageData
            (Z.of_nat (length storageData) - 1) p)
         storageData'
    /\ NoDup (map fst storageData)
    /\ 0 <= Z.of_nat (length storageData) - 1 < 2 ^ 32.
Proof.
  intros Hload Hget Hinner Hvalid.
  destruct (storage_loaded _ _ Hinner) as (Hne & Hnd & Hrange & Hvals).
  destruct (loadDictDirect_Uint_sorted _ _ _ _ Hinner) as (_ & Hsorted).
  assert (Hlen : length (Dictionary_values storageData) = length storageData)
    by apply length_map.
  assert (Hpos : (0 < length storageData)%nat).
  { destruct storageData; [congruence | cbn [length]; lia]. }
  assert (Hkey : 0 <= Z.of_nat (length storageData) - 1 < 2 ^ 32).
  { pose proof (sorted_length_bound _ 0 (2 ^ 32) ltac:(lia) Hsorted Hrange)
      as Hb.
    rewrite length_map in Hb. lia. }
  set (key := Z.of_nat (length storageData) - 1) in *.
  set (storageData1 := Dictionary_set storageData key p).
  destruct (storeDictDirect_loadDictDirect StorageValue (Keys_Uint 32)
              storageValue key32_bits_fit storageData1)
    as (b1 & d1 & Hstore1 & Hload1 & Hperm1 & Hsorted1).
  { apply Map_set_nonempty. }
  { now apply Map_set_NoDup. }
  { intros kv Hkv. apply Keys_Uint32_fits.
    apply (in_map fst) in Hkv. unfold storageData1, Dictionary_set in Hkv.
    apply Map_set_keys in Hkv. destruct Hkv as [Hkv| ->];
      [now apply Hrange | exact Hkey]. }
  { intros kv Hkv. apply storageValue_fits. apply Map_set_In in Hkv.
    destruct Hkv as [Hkv| ->]; [now apply Hvals | exact Hvalid]. }
  destruct (config_set_store blob config 18 (endCell b1) Hload)
    as (b2 & config2 & Hstore2 & Hload2 & Hsame2); [lia|].
  exists (endCell b2), (endCell b1), config2, d1.
  split; [|split; [exact Hload2|split; [exact Hsame2|split;
    [exact Hload1|split; [exact (Permutation_sym Hperm1)|split; [exact Hnd|exact Hkey]]]]]].
  unfold setStoragePrices. rewrite Hload. cbn [bind]. rewrite Hget.
  cbn [option_map]. unfold loadDictDirect in Hinner. rewrite Hinner.
  cbn [bind]. rewrite Hlen. fold key. fold storageData1.
  rewrite Hstore1. cbn [bind]. rewrite Hstore2. reflexivity.
Qed.

(** X11: [setStoragePrices] writes the prices at the key [n - 1], where
    [n] is the number of entries of the storage dictionary, and nowhere
    else: every other entry of that dictionary and every other key of the
    configuration is as before. *)
Theorem setStoragePrices_writes_count_key (blob inner : Cell)
    (config : Dictionary Cell) (storageData : Dictionary StorageValue)
    (p : StorageValue) :
  loadDictDirect (beginParse blob) (Keys_Int 32) Values_Cell = Ok config ->
  Dictionary_get config 18 = Some inner ->
  loadDictDirect (beginParse inner) (Keys_Uint 32) storageValue
  = Ok storageData ->
  valid_StorageValue p ->
  exists blob' inner' config' storageData',
    setStoragePrices blob p = Ok blob'
    /\ loadDictDirect (beginParse blob') (Keys_Int 32) Values_Cell
       = Ok config'
    /\ Dictionary_get config' 18 = Some inner'
    /\ (forall k, k <> 18 ->
          Dictionary_get config' k = Dictionary_get config k)
    /\ loadDictDirect (beginParse inner') (Keys_Uint 32) storageValue
       = Ok storageData'
    /\ Dictionary_get storageData' (Z.of_nat (length storageData) - 1)
       = Some p
    /\ forall k, k <> Z.of_nat (length storageData) - 1 ->
         Dictionary_get storageData' k = Dictionary_get storageData k.
Proof.
  intros Hload Hget Hinner Hvalid.
  destruct (setStoragePrices_result _ _ _ _ p Hload Hget Hinner Hvalid)
    as (blob' & inner' & config' & storageData' & Hset & Hload' & Hsame
        & Hinner' & Hperm & Hnd & Hkey).
  exists blob', inner', config', storageData'.
  split; [exact Hset|]. split; [exact Hload'|].
  split; [rewrite Hsame; apply Map_get_set_eq|].
  split; [intros k Hk; rewrite Hsame; now apply Map_get_set_neq|].
  split; [exact Hinner'|].
  assert (Hnd1 : NoDup (map fst (Dictionary_set storageData
                                   (Z.of_nat (length storageData) - 1) p)))
    by now apply Map_set_NoDup.
  split.
  - unfold Dictionary_get. rewrite <- (Map_get_perm _ _ _ _ Hnd1 Hperm).
    apply Map_get_set_eq.
  - intros k Hk. unfold Dictionary_get.
    rewrite <- (Map_get_perm _ _ _ _ Hnd1 Hperm).
    now apply Map_get_set_neq.
Qed.

Lemma setStoragePrices_writes_count_key_witness :
  exists blob',
    setStoragePrices sparseConfig (mkStorageValue 9 9 9 9 9) = Ok blob'.
Proof.
  destruct (setStoragePrices_writes_count_key sparseConfig
              (cell_or_empty (storeStorageDict sparseStorage))
              [(18, cell_or_empty (storeStorageDict sparseStorage));
               (21, gasRecord sampleGas [] [])]
              sparseStorage (mkStorageValue 9 9 9 9 9))
    as (blob' & _ & _ & _ & Hset & _).
  - vm_compute. reflexivity.
  - reflexivity.
  - vm_compute. reflexivity.
  - unfold valid_StorageValue. simpl. lia.
  - exists blob'. exact Hset.
Defined.

(** X12: when the storage dictionary has a key at or above its number of
    entries (its keys are not [0 .. n-1]), the prices written by
    [setStoragePrices] are not the ones read afterwards: [getStoragePrices]
    returns what it returned before. *)
Theorem setStoragePrices_hidden_write (blob inner : Cell)
    (config : Dictionary Cell) (storageData : Dictionary StorageValue)
    (p : StorageValue) (k : Z) :
  loadDictDirect (beginParse blob) (Keys_Int 32) Values_Cell = Ok config ->
  Dictionary_get config 18 = Some inner ->
  loadDictDirect (beginParse inner) (Keys_Uint 32) storageValue
  = Ok storageData ->
  valid_StorageValue p ->
  In k (map fst storageData) ->
  Z.of_nat (length storageData) <= k ->
  exists blob',
    setStoragePrices blob p = Ok blob'
    /\ getStoragePrices blob' = getStoragePrices blob.
Proof.
  intros Hload Hget Hinner Hvalid Hk Hbig.
  destruct (setStoragePrices_result _ _ _ _ p Hload Hget Hinner Hvalid)
    as (blob' & inner' & config' & storageData' & Hset & Hload' & Hsame
        & Hinner' & Hperm & Hnd & Hkey).
  exists blob'. split; [exact Hset|].
  assert (Hget' : Dictionary_get config' 18 = Some inner')
    by (rewrite Hsame; apply Map_get_set_eq).
  rewrite (getStoragePrices_loaded _ _ _ _ Hload' Hget' Hinner').
  rewrite (getStoragePrices_loaded _ _ _ _ Hload Hget Hinner).
  destruct (loadDictDirect_Uint_sorted _ _ _ _ Hinner) as (Hne & Hsorted).
  destruct (loadDictDirect_Uint_sorted _ _ _ _ Hinner') as (Hne' & Hsorted').
  destruct (sorted_last_max _ Hne Hsorted) as (k0 & v0 & Hin0 & -> & Hmax0).
  destruct (sorted_last_max _ Hne' Hsorted')
    as (k1 & v1 & Hin1 & -> & Hmax1).
  f_equal. f_equal.
  set (key := Z.of_nat (length storageData) - 1) in *.
  assert (Hnd1 : NoDup (map fst (Dictionary_set storageData key p)))
    by now apply Map_set_NoDup.
  assert (Hk0 : key < k0) by (specialize (Hmax0 k Hk); lia).
  (* the highest key of the old dictionary is in the new one *)
  assert (Hin0' : In (k0, v0) storageData').
  { apply (Permutation_in _ Hperm).
    apply Map_get_In; [exact Hnd1|]. unfold Dictionary_set.
    rewrite Map_get_set_neq by lia. now apply Map_get_In. }
  (* and every key of the new one is the written key or an old one *)
  assert (Hk1 : k1 = k0).
  { pose proof (Hmax1 k0 (in_map fst _ _ Hin0')) as Hle. cbn [fst] in Hle.
    apply (in_map fst) in Hin1. cbn [fst] in Hin1.
    apply (Permutation_in _ (Permutation_sym (Permutation_map fst Hperm)))
      in Hin1.
    unfold Dictionary_set in Hin1. apply Map_set_keys in Hin1.
    destruct Hin1 as [Hin1| ->]; [|lia].
    specialize (Hmax0 k1 Hin1). lia. }
  subst k1.
  assert (Hnd' : NoDup (map fst storageData'))
    by now apply StronglySorted_lt_NoDup.
  apply (Map_get_In _ _ _ _ Hnd') in Hin0', Hin1. congruence.
Qed.

Lemma setStoragePrices_hidden_write_witness :
  exists blob',
    setStoragePrices sparseConfig (mkStorageValue 9 9 9 9 9) = Ok blob'
    /\ getStoragePrices blob' = getStoragePrices sparseConfig.
Proof.
  apply (setStoragePrices_hidden_write sparseConfig
           (cell_or_empty (storeStorageDict sparseStorage))
           [(18, cell_or_empty (storeStorageDict sparseStorage));
            (21, gasRecord sampleGas [] [])]
           sparseStorage (mkStorageValue 9 9 9 9 9) 5).
  - vm_compute. reflexivity.
  - reflexivity.
  - vm_compute. reflexivity.
  - unfold valid_StorageValue. simpl. lia.
  - simpl. lia.
  - simpl. lia.
Defined.

(** ** More on the cell statistics *)

Lemma total_bits_nonneg (l : list Cell) : 0 <= total_bits l.
Proof.
  induction l as [|c l IH]; cbn [total_bits fold_right]; [lia|].
  fold (total_bits l). lia.
Qed.

(** Distinct cells taken from a list have no more bits than the list. *)
Lemma total_bits_incl (a : list Cell) :
  forall b, NoDup a -> incl a b -> total_bits a <= total_bits b.
Proof.
  induction a as [|x a IH]; intros b Hnd Hincl.
  - apply total_bits_nonneg.
  - inversion Hnd as [|? ? Hx Hnd']; subst.
    destruct (in_split x b (Hincl x ltac:(now left))) as (l1 & l2 & ->).
    rewrite total_bits_app. cbn [total_bits fold_right].
    fold (total_bits a). fold (total_bits l2).
    specialize (IH (l1 ++ l2) Hnd').
    rewrite total_bits_app in IH.
    assert (Hincl' : incl a (l1 ++ l2)).
    { intros y Hy. specialize (Hincl y (or_intror Hy)).
      apply in_app_or in Hincl. apply in_or_app.
      destruct Hincl as [Hl|[<-|Hr]]; [now left | contradiction | now right]. }
    specialize (IH Hincl'). lia.
Qed.

Section CellStatsShared.

Variable H : Type.
Variable H_eqb : H -> H -> bool.
Variable hash : Cell -> H.

Hypothesis H_eqb_spec : forall a b, H_eqb a b = true <-> a = b.
Hypothesis hash_inj : forall a b, hash a = hash b -> a = b.

(** A call of [collectCellStats] on a [visited] that holds, with every
    cell, the cells below it. *)
Lemma collectCellStats_closed (c : Cell) (v : list H) (skip : bool) :
  (forall x, In (hash x) v ->
     forall y, In y (subcells x) -> In (hash y) v) ->
  (In (hash c) v
   /\ collectCellStats H_eqb hash c v skip = (StorageStats_empty, v))
  \/ (~ In (hash c) v /\ exists rest,
        collectCellStats H_eqb hash c v skip
        = (mkStorageStats
             ((if skip then 0 else Z.of_nat (length (cell_bits c)))
              + total_bits rest)
             ((if skip then 0 else 1) + Z.of_nat (length rest)),
           v ++ map hash (c :: rest))
        /\ NoDup (c :: rest)
        /\ forall y, In y (c :: rest) <->
             In y (subcells c) /\ ~ In (hash y) v).
Proof.
  intros Hclosed.
  destruct (traversal_counts H H_eqb hash H_eqb_spec hash_inj
              (fun refs => refs) (collectCellStats H_eqb hash)
              (fun l => Permutation_refl l)
              (collectCellStats_unfold H_eqb hash) c v skip)
    as [(Hin & Hcall & _)|Hnew].
  - intros x Hx. left. now apply Hclosed.
  - left. now split.
  - now right.
Qed.

(** X13: with [skipRoot] the root is left out of the sums and of nothing
    else: on a fresh [visited] the result counts every other cell of the
    tree once, and the hash of the root is recorded in [visited] with the
    others. *)
Theorem collectCellStats_skipRoot (root : Cell) :
  exists rest,
    collectCellStats H_eqb hash root [] true
    = (stats_of rest, map hash (root :: rest))
    /\ NoDup (root :: rest)
    /\ forall y, In y (root :: rest) <-> In y (subcells root).
Proof.
  destruct (collectCellStats_closed root [] true) as [([] & _)|(_ & Hnew)];
    [intros x []|].
  destruct Hnew as (rest & Hcall & Hnd & Hin).
  exists rest. split; [|split; [exact Hnd|]].
  - rewrite Hcall. reflexivity.
  - intros y. rewrite Hin. cbn [In]. tauto.
Qed.

(** X14: two calls that share [visited] count the cells of both trees
    once: the second call adds the cells of its tree that the first did
    not meet. *)
Theorem collectCellStats_shared_visited (c1 c2 : Cell) :
  exists news1 news2,
    collectCellStats H_eqb hash c1 [] false
    = (stats_of news1, map hash news1)
    /\ collectCellStats H_eqb hash c2 (map hash news1) false
       = (stats_of news2, map hash (news1 ++ news2))
    /\ NoDup (news1 ++ news2)
    /\ forall y, In y (news1 ++ news2)
                 <-> In y (subcells c1) \/ In y (subcells c2).
Proof.
  destruct (collectCellStats_closed c1 [] false) as [([] & _)|(_ & Hnew)];
    [intros x []|].
  destruct Hnew as (rest1 & Hcall1 & Hnd1 & Hin1).
  assert (Hv : forall x, In (hash x) (map hash (c1 :: rest1))
                         <-> In x (c1 :: rest1)).
  { intros x. rewrite in_map_iff. split.
    - intros (y & Heq & Hy). apply hash_inj in Heq. now subst.
    - intros Hx. now exists x. }
  assert (Hclosed : forall x, In (hash x) (map hash (c1 :: rest1)) ->
            forall y, In y (subcells x) ->
              In (hash y) (map hash (c1 :: rest1))).
  { intros x Hx y Hy. apply Hv. apply Hv in Hx.
    apply Hin1 in Hx. apply Hin1. split; [|intros []].
    now apply (subcells_trans c1 x y). }
  exists (c1 :: rest1).
  destruct (collectCellStats_closed c2 (map hash (c1 :: rest1)) false Hclosed)
    as [(Hin & Hcall2)|(Hnot & rest2 & Hcall2 & Hnd2 & Hin2)].
  - exists []. split; [|split; [|split]].
    + rewrite Hcall1. unfold stats_of.
      cbn [total_bits fold_right length]. fold (total_bits rest1).
      f_equal. f_equal. lia.
    + rewrite Hcall2, app_nil_r. reflexivity.
    + now rewrite app_nil_r.
    + intros y. rewrite app_nil_r, Hin1. split; [tauto|].
      intros [Hy|Hy]; [tauto|]. split; [|intros []].
      apply Hv in Hin. apply Hin1 in Hin.
      now apply (subcells_trans c1 c2 y).
  - exists (c2 :: rest2). split; [|split; [|split]].
    + rewrite Hcall1. unfold stats_of.
      cbn [total_bits fold_right length]. fold (total_bits rest1).
      f_equal. f_equal. lia.
    + rewrite Hcall2, map_app. unfold stats_of.
      cbn [total_bits fold_right length]. fold (total_bits rest2).
      f_equal. f_equal. lia.
    + apply NoDup_app; [exact Hnd1 | exact Hnd2 |].
      intros y Hy1 Hy2. apply Hin2 in Hy2. apply Hy2, Hv, Hy1.
    + intros y. rewrite in_app_iff, Hin1, Hin2, Hv, Hin1. split.
      * tauto.
      * intros [Hy|Hy]; [left; split; [exact Hy | intros []]|].
        destruct (in_dec (fun a b : Cell =>
                            match Bool.bool_dec (H_eqb (hash a) (hash b)) true
                            with
                            | left e =>
                                left (hash_inj _ _
                                        (proj1 (H_eqb_spec _ _) e))
                            | right n =>
                                right (fun e : a = b =>
                                         n (proj2 (H_eqb_spec _ _)
                                              (f_equal hash e)))
                            end) y (subcells c1)) as [Hy1|Hy1].
        -- left. split; [exact Hy1 | intros []].
        -- right. split; [exact Hy|]. intros [Hy1' _]. contradiction.
Qed.

(** X15: the statistics never exceed the tree: the cells counted are no
    more than the positions of the tree and their bits no more than the
    bits at all positions, with equality when no cell occurs twice. *)
Theorem collectCellStats_bounds (root : Cell) :
  let r := fst (collectCellStats H_eqb hash root [] false) in
  1 <= cells r <= Z.of_nat (length (subcells root))
  /\ 0 <= bits r <= total_bits (subcells root)
  /\ (NoDup (subcells root) -> r = stats_of (subcells root)).
Proof.
  destruct (collectCellStats_closed root [] false) as [([] & _)|(_ & Hnew)];
    [intros x []|].
  destruct Hnew as (rest & Hcall & Hnd & Hin).
  assert (Hincl : incl (root :: rest) (subcells root)).
  { intros y Hy. now apply Hin. }
  assert (Hstats : fst (collectCellStats H_eqb hash root [] false)
                   = stats_of (root :: rest)).
  { rewrite Hcall. unfold stats_of. cbn [fst total_bits fold_right length].
    fold (total_bits rest). f_equal; lia. }
  cbv zeta. rewrite Hstats. unfold stats_of at 1 2 3 4. cbn [cells bits].
  split; [|split].
  - split; [cbn [length]; lia|].
    apply inj_le, NoDup_incl_length; [exact Hnd | exact Hincl].
  - split; [apply total_bits_nonneg|].
    apply total_bits_incl; [exact Hnd | exact Hincl].
  - intros Hnodup. apply stats_of_perm.
    apply NoDup_Permutation; [exact Hnd | exact Hnodup|].
    intros y. rewrite Hin. split; [tauto|]. intros Hy.
    split; [exact Hy | intros []].
Qed.

End CellStatsShared.

Lemma collectCellStats_skipRoot_witness :
  exists rest,
    collectCellStats Cell_eqb (fun c => c) sharingTree [] true
    = (stats_of rest, map (fun c => c) (sharingTree :: rest))
    /\ NoDup (sharingTree :: rest)
    /\ forall y, In y (sharingTree :: rest) <-> In y (subcells sharingTree).
Proof.
  apply (collectCellStats_skipRoot Cell Cell_eqb (fun c => c) Cell_eqb_spec
           (fun a b e => e) sharingTree).
Defined.

Lemma collectCellStats_shared_visited_witness :
  exists news1 news2,
    collectCellStats Cell_eqb (fun c => c) sharedCell [] false
    = (stats_of news1, map (fun c => c) news1)
    /\ collectCellStats Cell_eqb (fun c => c) sharingTree
         (map (fun c => c) news1) false
       = (stats_of news2, map (fun c => c) (news1 ++ news2))
    /\ NoDup (news1 ++ news2)
    /\ forall y, In y (news1 ++ news2)
                 <-> In y (subcells sharedCell) \/ In y (subcells sharingTree).
Proof.
  apply (collectCellStats_shared_visited Cell Cell_eqb (fun c => c)
           Cell_eqb_spec (fun a b e => e) sharedCell sharingTree).
Defined.

Lemma collectCellStats_bounds_witness :
  cells (fst (collectCellStats Cell_eqb (fun c => c) sharingTree [] false))
  <= Z.of_nat (length (subcells sharingTree)).
Proof.
  apply (collectCellStats_bounds Cell Cell_eqb (fun c => c) Cell_eqb_spec
           (fun a b e => e) sharingTree).
Defined.

(** ** More on the fee formulas *)

Lemma shr16ceil_mono (x y : Z) :
  0 <= x -> x <= y -> shr16ceil x <= shr16ceil y.
Proof.
  intros Hx Hxy.
  destruct (shr16ceil_is_ceiling x Hx) as [_ Hlow].
  destruct (shr16ceil_is_ceiling y ltac:(lia)) as [Hup _].
  lia.
Qed.

(** X16: [shr16ceil] is the ceiling on non-negative numbers only: for a
    negative number that is no multiple of 65536 the quotient is truncated
    towards zero before one is added, and the result is the ceiling plus
    one. *)
Theorem shr16ceil_negative (x : Z) :
  x < 0 ->
  Z.rem x 65536 <> 0 ->
  65536 * (shr16ceil x - 2) < x < 65536 * (shr16ceil x - 1).
Proof.
  intros Hx Hrem. unfold shr16ceil.
  destruct (Z.eqb_spec (Z.rem x 65536) 0) as [|_]; [contradiction|].
  cbn [negb].
  pose proof (Z.quot_rem' x 65536) as Hqr.
  pose proof (Z.rem_bound_pos_neg x 65536 ltac:(lia) ltac:(lia)) as Hb.
  lia.
Qed.

Lemma shr16ceil_negative_witness :
  65536 * (shr16ceil (-1) - 2) < -1 < 65536 * (shr16ceil (-1) - 1).
Proof.
  apply shr16ceil_negative; [lia | vm_compute; discriminate].
Defined.

(** X17: with a non-negative gas price the gas fee never decreases with
    the gas used and is never below the flat price. *)
Theorem computeGasFee_monotone (p : GasPrices) (g1 g2 : Z) :
  0 <= gas_price p ->
  g1 <= g2 ->
  flat_gas_price p <= computeGasFee p g1
  /\ computeGasFee p g1 <= computeGasFee p g2.
Proof.
  intros Hp Hg. unfold computeGasFee.
  destruct (Z.leb_spec g1 (flat_gas_limit p)) as [H1|H1];
    destruct (Z.leb_spec g2 (flat_gas_limit p)) as [H2|H2]; try lia.
  - assert (0 <= Z.quot (gas_price p * (g2 - flat_gas_limit p)) 65536)
      by (apply Z.quot_pos; nia).
    lia.
  - assert (0 <= Z.quot (gas_price p * (g1 - flat_gas_limit p)) 65536)
      by (apply Z.quot_pos; nia).
    assert (Z.quot (gas_price p * (g1 - flat_gas_limit p)) 65536
            <= Z.quot (gas_price p * (g2 - flat_gas_limit p)) 65536)
      by (apply Z.quot_le_mono; nia).
    lia.
Qed.

Lemma computeGasFee_monotone_witness :
  computeGasFee sampleGas 50 <= computeGasFee sampleGas 70000.
Proof.
  apply (computeGasFee_monotone sampleGas 50 70000); simpl; lia.
Defined.

(** X18: with non-negative sizes and prices the storage fee never
    decreases with the duration, and charging two periods one after the
    other costs as much as charging their sum at once, or one unit more. *)
Theorem calcStorageFee_periods (prices : StorageValue) (stats : StorageStats)
    (d1 d2 : Z) :
  0 <= bits stats -> 0 <= cells stats ->
  0 <= bit_price_ps prices -> 0 <= cell_price_ps prices ->
  0 <= d1 -> 0 <= d2 ->
  calcStorageFee prices stats d1 <= calcStorageFee prices stats (d1 + d2)
  /\ calcStorageFee prices stats (d1 + d2)
     <= calcStorageFee prices stats d1 + calcStorageFee prices stats d2
  /\ calcStorageFee prices stats d1 + calcStorageFee prices stats d2
     <= calcStorageFee prices stats (d1 + d2) + 1.
Proof.
  intros Hb Hc Hbp Hcp H1 H2. unfold calcStorageFee.
  set (k := bits stats * bit_price_ps prices
            + cells stats * cell_price_ps prices).
  assert (Hk : 0 <= k) by (unfold k; nia).
  assert (Hx1 : 0 <= k * d1) by nia.
  assert (Hx2 : 0 <= k * d2) by nia.
  replace (k * (d1 + d2)) with (k * d1 + k * d2) by ring.
  destruct (shr16ceil_is_ceiling (k * d1) Hx1) as [Hu1 Hl1].
  destruct (shr16ceil_is_ceiling (k * d2) Hx2) as [Hu2 Hl2].
  destruct (shr16ceil_is_ceiling (k * d1 + k * d2) ltac:(lia)) as [Hu3 Hl3].
  lia.
Qed.

Lemma calcStorageFee_periods_witness :
  calcStorageFee (mkStorageValue 0 1 500 0 0) (mkStorageStats 1000 5)
    (3600 + 60)
  <= calcStorageFee (mkStorageValue 0 1 500 0 0) (mkStorageStats 1000 5) 3600
     + calcStorageFee (mkStorageValue 0 1 500 0 0) (mkStorageStats 1000 5) 60.
Proof.
  apply (calcStorageFee_periods (mkStorageValue 0 1 500 0 0)
           (mkStorageStats 1000 5) 3600 60); simpl; lia.
Defined.

(** X19: with non-negative prices the forwarding fee of a message is at
    least the lump price, is the lump price for an empty message, and
    never decreases with the cells or the bits. *)
Theorem computeFwdFees_monotone (p : MsgPrices) (c1 c2 b1 b2 : Z) :
  0 <= bitPrice p -> 0 <= cellPrice p ->
  0 <= c1 <= c2 -> 0 <= b1 <= b2 ->
  computeFwdFees p 0 0 = lumpPrice p
  /\ lumpPrice p <= computeFwdFees p c1 b1
  /\ computeFwdFees p c1 b1 <= computeFwdFees p c2 b2.
Proof.
  intros Hb Hc Hcs Hbs. unfold computeFwdFees. split; [|split].
  - rewrite !Z.mul_0_r. cbn. lia.
  - assert (0 <= shr16ceil (bitPrice p * b1 + cellPrice p * c1))
      by (apply shr16ceil_nonneg; nia).
    lia.
  - assert (shr16ceil (bitPrice p * b1 + cellPrice p * c1)
            <= shr16ceil (bitPrice p * b2 + cellPrice p * c2))
      by (apply shr16ceil_mono; nia).
    lia.
Qed.

Lemma computeFwdFees_monotone_witness :
  computeFwdFees sampleMsg 1 100 <= computeFwdFees sampleMsg 3 1000.
Proof.
  apply (computeFwdFees_monotone sampleMsg 1 3 100 1000); simpl; lia.
Defined.

(** X20: for every input, negative ones too, the total of
    [computeFwdFeesVerbose] is [computeFwdFees], the two parts add up to
    the total, and the first part is the product of the total and
    [firstFrac] divided by 65536 and rounded down. *)
Theorem computeFwdFeesVerbose_floor (p : MsgPrices) (c b : Z) :
  let f := computeFwdFeesVerbose p c b in
  total f = computeFwdFees p c b
  /\ res f + remaining f = total f
  /\ 65536 * res f <= total f * firstFrac p < 65536 * (res f + 1).
Proof.
  cbv zeta. unfold computeFwdFeesVerbose. cbn [total res remaining].
  split; [reflexivity|]. split; [lia|].
  rewrite Z.shiftr_div_pow2 by lia. change (2 ^ 16) with 65536.
  pose proof (Z.div_mod (computeFwdFees p c b * firstFrac p) 65536
                ltac:(lia)) as Hdm.
  pose proof (Z.mod_pos_bound (computeFwdFees p c b * firstFrac p) 65536
                ltac:(lia)) as Hm.
  lia.
Qed.

(** ** The storage price record *)

(** X21: what [storageValue] writes it reads back: the serializer
    succeeds only on valid prices, appends the tag [0xcc] and the five
    fields, 296 bits in all, and the parser returns the prices from
    them. *)
Theorem storageValue_serialize_parse (v : StorageValue) (b b' : Builder) :
  serialize storageValue v b = Ok b' ->
  valid_StorageValue v
  /\ b' = mkBuilder
            (builder_bits b ++ bits_of_uint 8 0xcc ++ storageFields v)
            (builder_refs b)
  /\ length (builder_bits b') = (length (builder_bits b) + 296)%nat
  /\ forall rest refs,
       parse storageValue
         (mkSlice (skipn (length (builder_bits b)) (builder_bits b') ++ rest)
            refs)
       = Ok v.
Proof.
  unfold storageValue at 1. cbn [serialize]. intros Hser.
  apply bind_ok in Hser. destruct Hser as (b1 & H1 & Hser).
  apply bind_ok in Hser. destruct Hser as (b2 & H2 & Hser).
  apply bind_ok in Hser. destruct Hser as (b3 & H3 & Hser).
  apply bind_ok in Hser. destruct Hser as (b4 & H4 & Hser).
  apply bind_ok in Hser. destruct Hser as (b5 & H5 & H6).
  apply storeUint_inv in H1, H2, H3, H4, H5, H6.
  destruct H1 as (_ & ->), H2 as (R2 & ->), H3 as (R3 & ->),
    H4 as (R4 & ->), H5 as (R5 & ->), H6 as (R6 & ->).
  cbn [builder_bits builder_refs].
  change (Z.of_nat 64) with 64 in *. change (Z.of_nat 32) with 32 in *.
  assert (Hvalid : valid_StorageValue v)
    by (unfold valid_StorageValue; auto).
  assert (Hbits : ((((((builder_bits b ++ bits_of_uint 8 0xcc)
                       ++ bits_of_uint 32 (utime_sice v))
                      ++ bits_of_uint 64 (bit_price_ps v))
                     ++ bits_of_uint 64 (cell_price_ps v))
                    ++ bits_of_uint 64 (mc_bit_price_ps v))
                   ++ bits_of_uint 64 (mc_cell_price_ps v))
                  = builder_bits b ++ bits_of_uint 8 0xcc ++ storageFields v)
    by (unfold storageFields; now rewrite <- !app_assoc).
  rewrite Hbits. split; [exact Hvalid|]. split; [reflexivity|]. split.
  - unfold storageFields.
    repeat rewrite ?length_app, ?length_bits_of_uint. lia.
  - intros rest refs. rewrite skipn_app, Nat.sub_diag, skipn_all.
    cbn [app skipn]. rewrite <- app_assoc.
    apply storageValue_parse_fields; [reflexivity | exact Hvalid].
Qed.

Lemma storageValue_serialize_parse_witness :
  valid_StorageValue (mkStorageValue 1 2 3 4 5).
Proof.
  apply (storageValue_serialize_parse (mkStorageValue 1 2 3 4 5) beginCell
           (mkBuilder
              (bits_of_uint 8 0xcc
               ++ storageFields (mkStorageValue 1 2 3 4 5)) [])).
  vm_compute. reflexivity.
Defined.

(** ** Coins, addresses and optional references *)

Lemma coins_size (v : Z) :
  0 < v < 2 ^ 120 ->
  let sizeBytes := (Z.log2 v + 1 + 7) / 8 in
  1 <= sizeBytes < 16 /\ 0 <= v < 2 ^ (sizeBytes * 8).
Proof.
  intros Hv sizeBytes.
  assert (Hlog : 0 <= Z.log2 v < 120).
  { split; [apply Z.log2_nonneg|]. apply Z.log2_lt_pow2; lia. }
  assert (Hsize : 1 <= sizeBytes < 16 /\ Z.log2 v + 1 <= sizeBytes * 8).
  { unfold sizeBytes.
    pose proof (Z.div_mod (Z.log2 v + 1 + 7) 8 ltac:(lia)) as Hdm.
    pose proof (Z.mod_pos_bound (Z.log2 v + 1 + 7) 8 ltac:(lia)) as Hm.
    lia. }
  split; [tauto|]. split; [lia|].
  destruct (Z.log2_spec v ltac:(lia)) as [_ Hup].
  eapply Z.lt_le_trans; [exact Hup|].
  apply Z.pow_le_mono_r; lia.
Qed.

Lemma length_coinsBits (v : Z) :
  valid_Coins v -> (length (coinsBits v) <= 124)%nat.
Proof.
  intros [Hlo Hhi]. unfold coinsBits.
  destruct (Z.eqb_spec v 0) as [->|Hnz]; [cbn; lia|].
  destruct (coins_size v ltac:(lia)) as [Hsize _].
  rewrite length_app, !length_bits_of_uint. lia.
Qed.

Lemma storeCoins_ok (b : Builder) (v : Z) :
  valid_Coins v ->
  (length (builder_bits b) + 124 <= 1023)%nat ->
  storeCoins b v
  = Ok (mkBuilder (builder_bits b ++ coinsBits v) (builder_refs b)).
Proof.
  intros [Hlo Hhi] Hcap. unfold storeCoins, storeVarUint, coinsBits.
  replace (v <? 0) with false by (symmetry; apply Z.ltb_ge; lia).
  destruct (Z.eqb_spec v 0) as [->|Hnz].
  - apply storeUint_ok; [cbn; lia | lia].
  - destruct (coins_size v ltac:(lia)) as [Hsize Hfit].
    cbv zeta in Hsize, Hfit.
    rewrite storeUint_ok by (cbn; lia). cbn [bind].
    rewrite storeUint_ok.
    + cbn [builder_bits builder_refs]. now rewrite <- app_assoc.
    + rewrite Z2Nat.id by lia. exact Hfit.
    + cbn [builder_bits]. rewrite length_app, length_bits_of_uint. lia.
Qed.

Lemma loadCoins_bits (v : Z) (rest : list bool) (refs : list Cell) :
  valid_Coins v ->
  loadCoins (mkSlice (coinsBits v ++ rest) refs) = Ok (v, mkSlice rest refs).
Proof.
  intros [Hlo Hhi]. unfold loadCoins, loadVarUintBig, loadUint, coinsBits.
  destruct (Z.eqb_spec v 0) as [->|Hnz].
  - rewrite loadUintBig_bits by (cbn; lia). cbn [bind].
    change (Z.to_nat (0 * 8)) with 0%nat.
    apply (loadUintBig_bits 0 0 rest refs). cbn. lia.
  - destruct (coins_size v ltac:(lia)) as [Hsize Hfit].
    cbv zeta in Hsize, Hfit.
    rewrite <- app_assoc.
    rewrite loadUintBig_bits by (cbn; lia). cbn [bind].
    apply loadUintBig_bits. rewrite Z2Nat.id by lia. exact Hfit.
Qed.

Lemma length_addressBits (a : option Address) :
  (length (addressBits a) <= 267)%nat.
Proof.
  destruct a as [a|]; unfold addressBits.
  - repeat rewrite ?length_app, ?length_bits_of_uint. cbn [length]. lia.
  - rewrite length_bits_of_uint. lia.
Qed.

Lemma storeAddress_ok (b : Builder) (a : option Address) :
  valid_MaybeAddress a ->
  (length (builder_bits b) + 267 <= 1023)%nat ->
  storeAddress b a
  = Ok (mkBuilder (builder_bits b ++ addressBits a) (builder_refs b)).
Proof.
  intros Hvalid Hcap. destruct a as [a|]; unfold storeAddress, addressBits.
  - destruct Hvalid as [Hwc Hhash].
    rewrite storeUint_ok by (cbn; lia). cbn [bind].
    rewrite storeUint_ok
      by (first [cbn; lia
                | cbn [builder_bits];
                  rewrite length_app, length_bits_of_uint; lia]).
    cbn [bind builder_bits builder_refs].
    unfold storeInt, storeBit.
    change (2 ^ Z.of_nat 7) with 128.
    replace (workChain a <? Z.opp 128) with false
      by (symmetry; apply Z.ltb_ge; lia).
    replace (128 <=? workChain a) with false
      by (symmetry; apply Z.leb_gt; lia).
    cbn [orb].
    rewrite storeBits_ok
      by (cbn [builder_bits length];
          repeat rewrite ?length_app, ?length_bits_of_uint; lia).
    cbn [bind builder_bits builder_refs].
    rewrite storeUint_ok.
    + cbn [bind builder_bits builder_refs]. rewrite storeUint_ok.
      * cbn [builder_bits builder_refs]. change (2 ^ 7) with 128.
        now rewrite <- !app_assoc.
      * exact Hhash.
      * cbn [builder_bits length].
        repeat rewrite ?length_app, ?length_bits_of_uint. cbn [length]. lia.
    + change (2 ^ Z.of_nat 7) with 128.
      destruct (Z.ltb_spec (workChain a) 0); lia.
    + cbn [builder_bits length].
      repeat rewrite ?length_app, ?length_bits_of_uint. cbn [length]. lia.
  - apply storeUint_ok; [cbn; lia | lia].
Qed.

Lemma loadInternalAddress_bits (a : Address) (rest : list bool)
    (refs : list Cell) :
  valid_Address a ->
  loadInternalAddress (mkSlice (addressBits (Some a) ++ rest) refs)
  = Ok (a, mkSlice rest refs).
Proof.
  intros [Hwc Hhash]. unfold loadInternalAddress, addressBits, loadUint.
  rewrite <- !app_assoc.
  rewrite loadUintBig_bits by (cbn; lia). cbn [bind].
  change (negb (2 =? 2)) with false. cbv iota.
  rewrite loadUintBig_bits by (cbn; lia). cbn [bind].
  change (negb (0 =? 0)) with false. cbv iota.
  unfold loadInt, loadBit. cbn [app slice_bits slice_refs bind].
  rewrite loadUintBig_bits
    by (change (2 ^ 7) with 128; change (2 ^ Z.of_nat 7) with 128;
        destruct (Z.ltb_spec (workChain a) 0); lia).
  cbn [bind].
  rewrite loadUintBig_bits by exact Hhash. cbn [bind].
  change (2 ^ 7) with 128. change (2 ^ Z.of_nat 7) with 128.
  destruct a as [wc h]. cbn [workChain hash] in *.
  destruct (Z.ltb_spec wc 0); do 3 f_equal; lia.
Qed.

Lemma addressBits_type (a : option Address) (rest : list bool)
    (refs : list Cell) :
  preloadUintBig (mkSlice (addressBits a ++ rest) refs) 2
  = Ok (match a with Some _ => 2 | None => 0 end).
Proof.
  destruct a as [a|]; unfold addressBits; rewrite <- ?app_assoc;
    apply preloadUintBig_bits; cbn; lia.
Qed.

Lemma loadAddress_bits (a : Address) (rest : list bool) (refs : list Cell) :
  valid_Address a ->
  loadAddress (mkSlice (addressBits (Some a) ++ rest) refs)
  = Ok (a, mkSlice rest refs).
Proof.
  intros Hvalid. unfold loadAddress. rewrite addressBits_type. cbn [bind].
  change (2 =? 2) with true. cbv iota.
  now apply loadInternalAddress_bits.
Qed.

Lemma loadMaybeAddress_bits (a : option Address) (rest : list bool)
    (refs : list Cell) :
  valid_MaybeAddress a ->
  loadMaybeAddress (mkSlice (addressBits a ++ rest) refs)
  = Ok (a, mkSlice rest refs).
Proof.
  intros Hvalid. unfold loadMaybeAddress. rewrite addressBits_type.
  cbn [bind]. destruct a as [a|].
  - change (2 =? 0) with false. change (2 =? 2) with true. cbv iota.
    now rewrite loadInternalAddress_bits.
  - change (0 =? 0) with true. cbv iota. unfold addressBits.
    rewrite skip_bits by apply length_bits_of_uint. reflexivity.
Qed.

Lemma loadAddressAny_bits (a : option Address) (rest : list bool)
    (refs : list Cell) :
  valid_MaybeAddress a ->
  loadAddressAny (mkSlice (addressBits a ++ rest) refs)
  = Ok (anyAddress a, mkSlice rest refs).
Proof.
  intros Hvalid. unfold loadAddressAny. rewrite addressBits_type.
  cbn [bind]. destruct a as [a|].
  - change (2 =? 0) with false. change (2 =? 2) with true. cbv iota.
    now rewrite loadInternalAddress_bits.
  - change (0 =? 0) with true. cbv iota. unfold addressBits.
    rewrite skip_bits by apply length_bits_of_uint. reflexivity.
Qed.

(** ** The data cell of the minter *)

Ltac capacity :=
  cbn [builder_bits length];
  repeat rewrite ?length_app, ?length_bits_of_uint;
  cbn [length]; lia.

Lemma length_configBits (c : JettonMinterConfigFull) :
  valid_JettonMinterConfigFull c -> (length (configBits c) <= 914)%nat.
Proof.
  intros (Hs & _). unfold configBits.
  pose proof (length_coinsBits _ Hs).
  pose proof (length_addressBits (Some (admin c))).
  pose proof (length_addressBits (transfer_admin c)).
  repeat rewrite ?length_app, ?length_bits_of_uint. lia.
Qed.

Lemma jettonMinterConfigCellToConfig_bits (c : JettonMinterConfigFull)
    (content : Cell) (extra : list bool) (more : list Cell) :
  valid_JettonMinterConfigFull c ->
  jettonMinterConfigCellToConfig
    (mkCell (configBits c ++ extra) (wallet_code c :: content :: more))
  = (_ <- endParse (mkSlice extra more) ;; Ok (withContent c content)).
Proof.
  intros (Hs & Ha & Ht & Hm).
  unfold jettonMinterConfigCellToConfig, configBits, beginParse.
  cbn [cell_bits cell_refs]. rewrite <- !app_assoc.
  rewrite loadCoins_bits by exact Hs. cbn [bind].
  rewrite loadAddress_bits by exact Ha. cbn [bind].
  rewrite loadMaybeAddress_bits by exact Ht. cbn [bind].
  unfold loadRef at 1. cbn [slice_refs slice_bits bind].
  unfold loadRef at 1. cbn [slice_refs slice_bits bind].
  rewrite loadUintBig_bits by exact Hm. cbn [bind]. reflexivity.
Qed.

Section JettonMinterData.

Variable storeStringRefTail : Builder -> string -> Res Builder.

Lemma jettonMinterConfigFullToCell_bits (c : JettonMinterConfigFull)
    (content : Cell) :
  valid_JettonMinterConfigFull c ->
  contentCell storeStringRefTail (jetton_content c) = Ok content ->
  jettonMinterConfigFullToCell storeStringRefTail c
  = Ok (mkCell (configBits c) [wallet_code c; content]).
Proof.
  intros (Hs & Ha & Ht & Hm) Hcontent.
  pose proof (length_coinsBits _ Hs).
  pose proof (length_addressBits (Some (admin c))).
  pose proof (length_addressBits (transfer_admin c)).
  unfold jettonMinterConfigFullToCell, configBits.
  rewrite Hcontent. cbn [bind].
  rewrite storeCoins_ok by (first [exact Hs | cbn; lia]).
  cbn [bind builder_bits builder_refs beginCell app].
  rewrite storeAddress_ok by (first [exact Ha | capacity]).
  cbn [bind builder_bits builder_refs].
  rewrite storeAddress_ok by (first [exact Ht | capacity]).
  cbn [bind builder_bits builder_refs].
  rewrite storeUint_ok by (first [exact Hm | capacity]).
  cbn [bind builder_bits builder_refs].
  unfold storeRef, endCell. cbn [builder_refs builder_bits length bind app].
  cbn [Nat.leb bind builder_refs builder_bits length app].
  now rewrite <- !app_assoc.
Qed.

(** X22: the data cell of the minter reads back as it was written: for a
    configuration whose supply is below [2^120], whose addresses are valid
    and whose merkle root fits 256 bits, [jettonMinterConfigFullToCell]
    returns a cell and [jettonMinterConfigCellToConfig] returns from it
    the same configuration, with the content as a cell. *)
Theorem jettonMinterConfig_roundtrip (c : JettonMinterConfigFull)
    (content : Cell) :
  valid_JettonMinterConfigFull c ->
  contentCell storeStringRefTail (jetton_content c) = Ok content ->
  exists cell,
    jettonMinterConfigFullToCell storeStringRefTail c = Ok cell
    /\ jettonMinterConfigCellToConfig cell = Ok (withContent c content).
Proof.
  intros Hvalid Hcontent.
  exists (mkCell (configBits c) [wallet_code c; content]). split.
  - now apply jettonMinterConfigFullToCell_bits.
  - rewrite <- (app_nil_r (configBits c)).
    now rewrite jettonMinterConfigCellToConfig_bits.
Qed.

(** X23: [jettonMinterConfigToCell] stores the full configuration with a
    supply of zero and no transfer admin, and that is what is read back
    from its cell. *)
Theorem jettonMinterConfigToCell_parse (c : JettonMinterConfig)
    (content : Cell) :
  valid_Address (mc_admin c) ->
  0 <= mc_merkle_root c < 2 ^ 256 ->
  contentCell storeStringRefTail (mc_jetton_content c) = Ok content ->
  exists cell,
    jettonMinterConfigToCell storeStringRefTail c = Ok cell
    /\ jettonMinterConfigFullToCell storeStringRefTail (fullOf c) = Ok cell
    /\ jettonMinterConfigCellToConfig cell
       = Ok (mkJettonMinterConfigFull 0 (mc_admin c) None (mc_wallet_code c)
               (inl content) (mc_merkle_root c)).
Proof.
  intros Ha Hm Hcontent.
  assert (Hvalid : valid_JettonMinterConfigFull (fullOf c)).
  { unfold valid_JettonMinterConfigFull, fullOf, valid_Coins. cbn.
    repeat split; try lia; apply Ha. }
  exists (mkCell (configBits (fullOf c)) [mc_wallet_code c; content]).
  split; [|split].
  - transitivity (jettonMinterConfigFullToCell storeStringRefTail (fullOf c));
      [reflexivity|].
    now apply jettonMinterConfigFullToCell_bits.
  - now apply jettonMinterConfigFullToCell_bits.
  - rewrite <- (app_nil_r (configBits (fullOf c))).
    change (mc_wallet_code c) with (wallet_code (fullOf c)).
    now rewrite jettonMinterConfigCellToConfig_bits.
Qed.

End JettonMinterData.

(** X24: [jettonMinterConfigCellToConfig] accepts no slack: any bit after
    the merkle root, or any third reference, makes it throw after all the
    fields have been read. *)
Theorem jettonMinterConfigCellToConfig_trailing (c : JettonMinterConfigFull)
    (content : Cell) (extra : list bool) (more : list Cell) :
  valid_JettonMinterConfigFull c ->
  extra <> [] \/ more <> [] ->
  jettonMinterConfigCellToConfig
    (mkCell (configBits c ++ extra) (wallet_code c :: content :: more))
  = Throw (Error "remaining bits in data").
Proof.
  intros Hvalid Hslack.
  rewrite jettonMinterConfigCellToConfig_bits by exact Hvalid.
  unfold endParse, remainingBits, remainingRefs. cbn [slice_bits slice_refs].
  destruct extra as [|x extra]; [|reflexivity].
  destruct more as [|m more]; [|reflexivity].
  destruct Hslack; congruence.
Qed.

Lemma sampleFull_valid : valid_JettonMinterConfigFull sampleFull.
Proof.
  unfold valid_JettonMinterConfigFull, valid_Coins, valid_Address,
    valid_MaybeAddress, sampleFull, sampleAdmin, sampleOwner.
  cbn [supply admin transfer_admin merkle_root workChain hash].
  repeat split;
    first [apply Z.leb_le; reflexivity | apply Z.ltb_lt; reflexivity].
Qed.

Lemma jettonMinterConfig_roundtrip_witness :
  exists cell,
    jettonMinterConfigFullToCell sampleSnake sampleFull = Ok cell
    /\ jettonMinterConfigCellToConfig cell
       = Ok (withContent sampleFull (mkCell [false; true] [])).
Proof.
  apply (jettonMinterConfig_roundtrip sampleSnake sampleFull).
  - exact sampleFull_valid.
  - reflexivity.
Defined.

Lemma jettonMinterConfigToCell_parse_witness :
  exists cell,
    jettonMinterConfigToCell sampleSnake
      (mkJettonMinterConfig sampleAdmin (mkCell [true] [])
         (inr (mkJettonMinterContent "uri")) 5)
    = Ok cell.
Proof.
  destruct (jettonMinterConfigToCell_parse sampleSnake
              (mkJettonMinterConfig sampleAdmin (mkCell [true] [])
                 (inr (mkJettonMinterContent "uri")) 5)
              (mkCell [] []))
    as (cell & Hcell & _).
  - unfold valid_Address, sampleAdmin. simpl. lia.
  - simpl. lia.
  - reflexivity.
  - exists cell. exact Hcell.
Defined.

Lemma jettonMinterConfigCellToConfig_trailing_witness :
  jettonMinterConfigCellToConfig
    (mkCell (configBits sampleFull ++ [true])
       (wallet_code sampleFull :: mkCell [] [] :: []))
  = Throw (Error "remaining bits in data").
Proof.
  apply jettonMinterConfigCellToConfig_trailing.
  - exact sampleFull_valid.
  - left. discriminate.
Defined.

(** ** The mint message and the internal transfer it carries *)

Lemma parseInternalTransfer_body (op amount : Z)
    (from response : option Address) (forwardAmount : Z)
    (payload : option Cell) :
  valid_Coins amount -> valid_MaybeAddress from ->
  valid_MaybeAddress response -> valid_Coins forwardAmount ->
  parseInternalTransfer
    (transferBody op amount from response forwardAmount payload)
  = Ok (mkInternalTransfer amount (anyAddress from) (anyAddress response)
          forwardAmount payload).
Proof.
  intros Ha Hf Hr Hw. unfold parseInternalTransfer, transferBody, beginParse.
  cbn [cell_bits cell_refs].
  rewrite (app_assoc (bits_of_uint 32 op)).
  rewrite skip_bits
    by (rewrite length_app, !length_bits_of_uint; reflexivity).
  cbn [bind].
  rewrite loadCoins_bits by exact Ha. cbn [bind].
  rewrite loadAddressAny_bits by exact Hf. cbn [bind].
  rewrite loadAddressAny_bits by exact Hr. cbn [bind].
  rewrite loadCoins_bits by exact Hw. cbn [bind].
  unfold loadMaybeRef, loadBit. cbn [slice_bits slice_refs bind].
  destruct payload as [c|]; reflexivity.
Qed.

Section MintMessage.

Variable Op_internal_transfer : Z.
Variable Op_mint : Z.

Hypothesis Op_internal_transfer_range : 0 <= Op_internal_transfer < 2 ^ 32.
Hypothesis Op_mint_range : 0 <= Op_mint < 2 ^ 32.

Lemma mintMessage_body (to : Address) (jetton_amount : Z)
    (from response : option Address) (customPayload : option Cell)
    (forward_ton_amount total_ton_amount : Z) :
  valid_Address to -> valid_Coins jetton_amount ->
  valid_MaybeAddress from -> valid_MaybeAddress response ->
  valid_Coins forward_ton_amount -> valid_Coins total_ton_amount ->
  mintMessage Op_internal_transfer Op_mint to jetton_amount from response
    customPayload forward_ton_amount total_ton_amount
  = Ok (mintBody Op_mint to total_ton_amount
          (transferBody Op_internal_transfer jetton_amount from response
             forward_ton_amount customPayload)).
Proof.
  intros Hto Ha Hf Hr Hw Ht.
  pose proof (length_coinsBits _ Ha).
  pose proof (length_coinsBits _ Hw).
  pose proof (length_coinsBits _ Ht).
  pose proof (length_addressBits from).
  pose proof (length_addressBits response).
  pose proof (length_addressBits (Some to)).
  unfold mintMessage, mintBody, transferBody, beginCell.
  rewrite storeUint_ok by (first [exact Op_internal_transfer_range | capacity]).
  cbn [bind builder_bits builder_refs app].
  rewrite storeUint_ok by (first [cbn; lia | capacity]).
  cbn [bind builder_bits builder_refs].
  rewrite storeCoins_ok by (first [exact Ha | capacity]).
  cbn [bind builder_bits builder_refs].
  rewrite storeAddress_ok by (first [exact Hf | capacity]).
  cbn [bind builder_bits builder_refs].
  rewrite storeAddress_ok by (first [exact Hr | capacity]).
  cbn [bind builder_bits builder_refs].
  rewrite storeCoins_ok by (first [exact Hw | capacity]).
  cbn [bind builder_bits builder_refs].
  assert (Hinner :
    x <- storeMaybeRef
           (mkBuilder
              (((((bits_of_uint 32 Op_internal_transfer ++ bits_of_uint 64 0)
                  ++ coinsBits jetton_amount) ++ addressBits from)
                ++ addressBits response) ++ coinsBits forward_ton_amount) [])
           customPayload ;;
    Ok (endCell x)
    = Ok (transferBody Op_internal_transfer jetton_amount from response
            forward_ton_amount customPayload)).
  { unfold storeMaybeRef, storeBit, storeRef, transferBody, endCell.
    destruct customPayload as [c|];
      rewrite storeBits_ok by capacity;
      cbn [bind builder_bits builder_refs length Nat.leb app];
      now rewrite <- !app_assoc. }
  apply bind_ok in Hinner. destruct Hinner as (x & Hx & Hcell).
  assert (Hcell' : endCell x
                   = transferBody Op_internal_transfer jetton_amount from
                       response forward_ton_amount customPayload)
    by congruence.
  rewrite Hx. cbn [bind]. rewrite Hcell'.
  rewrite storeUint_ok by (first [exact Op_mint_range | capacity]).
  cbn [bind builder_bits builder_refs app].
  rewrite storeUint_ok by (first [cbn; lia | capacity]).
  cbn [bind builder_bits builder_refs].
  rewrite storeAddress_ok by (first [exact Hto | capacity]).
  cbn [bind builder_bits builder_refs].
  rewrite storeCoins_ok by (first [exact Ht | capacity]).
  cbn [bind builder_bits builder_refs].
  unfold storeRef, endCell. cbn [builder_refs builder_bits length Nat.leb bind app].
  unfold transferBody. now rewrite <- !app_assoc.
Qed.

(** X25: the message built by [mintMessage] carries, as its only
    reference, an internal transfer that [parseInternalTransfer] reads
    back: the jetton amount, the two addresses ([null] for an absent one),
    the forward amount and the payload.  The amounts are below [2^120],
    the addresses valid and the opcodes on 32 bits. *)
Theorem mintMessage_parseInternalTransfer (to : Address) (jetton_amount : Z)
    (from response : option Address) (customPayload : option Cell)
    (forward_ton_amount total_ton_amount : Z) :
  valid_Address to -> valid_Coins jetton_amount ->
  valid_MaybeAddress from -> valid_MaybeAddress response ->
  valid_Coins forward_ton_amount -> valid_Coins total_ton_amount ->
  exists outer inner,
    mintMessage Op_internal_transfer Op_mint to jetton_amount from response
      customPayload forward_ton_amount total_ton_amount
    = Ok outer
    /\ cell_refs outer = [inner]
    /\ cell_bits outer
       = bits_of_uint 32 Op_mint ++ bits_of_uint 64 0
         ++ addressBits (Some to) ++ coinsBits total_ton_amount
    /\ parseInternalTransfer inner
       = Ok (mkInternalTransfer jetton_amount (anyAddress from)
               (anyAddress response) forward_ton_amount customPayload).
Proof.
  intros Hto Ha Hf Hr Hw Ht.
  eexists. eexists. split; [now apply mintMessage_body|].
  split; [reflexivity|]. split; [reflexivity|].
  now apply parseInternalTransfer_body.
Qed.

End MintMessage.

Lemma mintMessage_parseInternalTransfer_witness :
  exists outer inner,
    mintMessage 0x178d4519 0x642b7d07 sampleOwner 1000 None (Some sampleAdmin)
      (Some (mkCell [true] [])) 1 200000000
    = Ok outer
    /\ cell_refs outer = [inner]
    /\ cell_bits outer
       = bits_of_uint 32 0x642b7d07 ++ bits_of_uint 64 0
         ++ addressBits (Some sampleOwner) ++ coinsBits 200000000
    /\ parseInternalTransfer inner
       = Ok (mkInternalTransfer 1000 None (Some (Internal sampleAdmin)) 1
               (Some (mkCell [true] []))).
Proof.
  apply (mintMessage_parseInternalTransfer 0x178d4519 0x642b7d07
           ltac:(lia) ltac:(lia) sampleOwner 1000 None (Some sampleAdmin)
           (Some (mkCell [true] [])) 1 200000000).
  - unfold valid_Address, sampleOwner. cbn [workChain hash].
    repeat split;
      first [apply Z.leb_le; reflexivity | apply Z.ltb_lt; reflexivity].
  - unfold valid_Coins. lia.
  - exact I.
  - unfold valid_MaybeAddress, valid_Address, sampleAdmin. simpl. lia.
  - unfold valid_Coins. lia.
  - unfold valid_Coins. lia.
Defined.

(** ** What the minter data functions accept *)

Lemma storeCoins_inv (b b' : Builder) (v : Z) :
  storeCoins b v = Ok b' -> valid_Coins v.
Proof.
  unfold storeCoins, storeVarUint, valid_Coins.
  destruct (Z.ltb_spec v 0) as [|Hnn]; [discriminate|].
  destruct (Z.eqb_spec v 0) as [->|Hnz]; [intros _; lia|].
  intros Hstore. apply bind_ok in Hstore.
  destruct Hstore as (b1 & Hsize & _).
  apply storeUint_inv in Hsize. destruct Hsize as [Hsize _].
  change (2 ^ Z.of_nat 4) with 16 in Hsize.
  split; [lia|]. apply Z.log2_lt_pow2; [lia|].
  pose proof (Z.div_mod (Z.log2 v + 1 + 7) 8 ltac:(lia)) as Hdm.
  pose proof (Z.mod_pos_bound (Z.log2 v + 1 + 7) 8 ltac:(lia)) as Hm.
  lia.
Qed.

Lemma storeAddress_inv (b b' : Builder) (a : option Address) :
  storeAddress b a = Ok b' -> valid_MaybeAddress a.
Proof.
  destruct a as [a|]; [|intros _; exact I].
  unfold storeAddress. intros Hstore.
  apply bind_ok in Hstore. destruct Hstore as (b1 & _ & Hstore).
  apply bind_ok in Hstore. destruct Hstore as (b2 & _ & Hstore).
  apply bind_ok in Hstore. destruct Hstore as (b3 & Hwc & Hhash).
  apply storeUint_inv in Hhash. destruct Hhash as [Hhash _].
  unfold storeInt in Hwc. change (2 ^ Z.of_nat 7) with 128 in Hwc.
  destruct (Z.ltb_spec (workChain a) (Z.opp 128)); [discriminate|].
  destruct (Z.leb_spec 128 (workChain a)); [discriminate|].
  split; [lia | exact Hhash].
Qed.

Lemma loadCoins_valid (s s' : Slice) (v : Z) :
  loadCoins s = Ok (v, s') ->
  valid_Coins v /\ slice_refs s' = slice_refs s.
Proof.
  unfold loadCoins, loadVarUintBig, loadUint. intros Hload.
  apply bind_ok in Hload. destruct Hload as ([size s1] & Hsize & Hv).
  pose proof (loadUintBig_range _ _ _ _ Hsize) as Hr.
  pose proof (loadUintBig_range _ _ _ _ Hv) as Hrv.
  change (2 ^ Z.of_nat 4) with 16 in Hr. rewrite Z2Nat.id in Hrv by lia.
  apply loadUintBig_inv in Hsize, Hv.
  destruct Hsize as (_ & _ & ->), Hv as (_ & _ & ->).
  split; [|reflexivity]. split; [lia|].
  eapply Z.lt_le_trans; [apply Hrv|].
  apply Z.pow_le_mono_r; lia.
Qed.

Lemma loadInternalAddress_valid (s s' : Slice) (a : Address) :
  loadInternalAddress s = Ok (a, s') ->
  valid_Address a /\ slice_refs s' = slice_refs s.
Proof.
  unfold loadInternalAddress, loadUint, loadInt, loadBit. intros Hload.
  apply bind_ok in Hload. destruct Hload as ([t s1] & Ht & Hload).
  destruct (negb (t =? 2)); [discriminate|].
  apply bind_ok in Hload. destruct Hload as ([c s2] & Hc & Hload).
  destruct (negb (c =? 0)); [discriminate|].
  apply bind_ok in Hload. destruct Hload as ([wc s3] & Hwc & Hload).
  apply bind_ok in Hload. destruct Hload as ([h s4] & Hh & [= <- <-]).
  pose proof (loadUintBig_range _ _ _ _ Hh) as Rh.
  apply loadUintBig_inv in Ht, Hc, Hh.
  destruct Ht as (_ & _ & ->), Hc as (_ & _ & ->), Hh as (_ & _ & ->).
  cbn [slice_bits slice_refs] in *.
  destruct (skipn 1 (skipn 2 (slice_bits s))) as [|sign bs]; [discriminate|].
  cbn [bind] in Hwc.
  apply bind_ok in Hwc. destruct Hwc as ([m s5] & Hm & [= <- <-]).
  pose proof (loadUintBig_range _ _ _ _ Hm) as Rm.
  change (2 ^ Z.of_nat 7) with 128 in Rm.
  apply loadUintBig_inv in Hm. destruct Hm as (_ & _ & ->).
  cbn [slice_refs]. split; [|reflexivity].
  split; cbn [workChain hash]; [|exact Rh].
  change (2 ^ Z.of_nat 7) with 128. destruct sign; lia.
Qed.

Lemma loadAddress_valid (s s' : Slice) (a : Address) :
  loadAddress s = Ok (a, s') ->
  valid_Address a /\ slice_refs s' = slice_refs s.
Proof.
  unfold loadAddress. intros Hload.
  apply bind_ok in Hload. destruct Hload as (t & _ & Hload).
  destruct (t =? 2); [|discriminate].
  now apply loadInternalAddress_valid.
Qed.

Lemma loadMaybeAddress_valid (s s' : Slice) (a : option Address) :
  loadMaybeAddress s = Ok (a, s') ->
  valid_MaybeAddress a /\ slice_refs s' = slice_refs s.
Proof.
  unfold loadMaybeAddress. intros Hload.
  apply bind_ok in Hload. destruct Hload as (t & _ & Hload).
  destruct (t =? 0).
  - apply bind_ok in Hload. destruct Hload as (s1 & Hskip & [= <- <-]).
    split; [exact I|]. unfold skip in Hskip.
    destruct (2 <=? length (slice_bits s))%nat; [|discriminate].
    now injection Hskip as <-.
  - destruct (t =? 2); [|discriminate].
    apply bind_ok in Hload. destruct Hload as ([a' s1] & Hint & [= <- <-]).
    now apply loadInternalAddress_valid.
Qed.

(** Whatever [jettonMinterConfigCellToConfig] returns can be stored: the
    fields are in range, the cell has two references and the content is
    the second. *)
Lemma jettonMinterConfigCellToConfig_valid (cell : Cell)
    (c : JettonMinterConfigFull) :
  jettonMinterConfigCellToConfig cell = Ok c ->
  valid_JettonMinterConfigFull c
  /\ exists content,
       jetton_content c = inl content
       /\ cell_refs cell = [wallet_code c; content].
Proof.
  unfold jettonMinterConfigCellToConfig. intros Hparse.
  apply bind_ok in Hparse. destruct Hparse as ([v s1] & Hv & Hparse).
  apply bind_ok in Hparse. destruct Hparse as ([a s2] & Ha & Hparse).
  apply bind_ok in Hparse. destruct Hparse as ([t s3] & Ht & Hparse).
  apply bind_ok in Hparse. destruct Hparse as ([w s4] & Hw & Hparse).
  apply bind_ok in Hparse. destruct Hparse as ([j s5] & Hj & Hparse).
  apply bind_ok in Hparse. destruct Hparse as ([m s6] & Hm & Hparse).
  apply bind_ok in Hparse. destruct Hparse as ([] & Hend & [= <-]).
  apply loadCoins_valid in Hv. destruct Hv as (Hv & R1).
  apply loadAddress_valid in Ha. destruct Ha as (Ha & R2).
  apply loadMaybeAddress_valid in Ht. destruct Ht as (Ht & R3).
  pose proof (loadUintBig_range _ _ _ _ Hm) as Rm.
  apply loadUintBig_inv in Hm. destruct Hm as (_ & _ & ->).
  unfold valid_JettonMinterConfigFull.
  cbn [supply admin transfer_admin merkle_root jetton_content wallet_code].
  split; [auto|]. exists j. split; [reflexivity|].
  assert (Hrefs : cell_refs cell = slice_refs s3)
    by (rewrite R3, R2, R1; reflexivity).
  clear R1 R2 R3. rewrite Hrefs. unfold loadRef in Hw, Hj.
  destruct (slice_refs s3) as [|w' rs3]; [discriminate|].
  injection Hw as <- <-. cbn [slice_refs] in Hj.
  destruct rs3 as [|j' rs4]; [discriminate|].
  injection Hj as <- <-.
  unfold endParse, remainingBits, remainingRefs in Hend.
  cbn [slice_bits slice_refs] in Hend.
  destruct rs4 as [|x rs4]; [reflexivity|].
  rewrite orb_true_r in Hend. discriminate.
Qed.

Section JettonMinterStable.

Variable storeStringRefTail : Builder -> string -> Res Builder.

(** X26: [jettonMinterConfigFullToCell] returns a cell only for a
    configuration that can be stored (a supply in [0, 2^120), workchains
    on 8 signed bits, a merkle root on 256 bits), and the cell is then the
    coins, the two addresses and the merkle root, with the wallet code and
    the content as its two references. *)
Theorem jettonMinterConfigFullToCell_ok_inv (c : JettonMinterConfigFull)
    (cell : Cell) :
  jettonMinterConfigFullToCell storeStringRefTail c = Ok cell ->
  valid_JettonMinterConfigFull c
  /\ exists content,
       contentCell storeStringRefTail (jetton_content c) = Ok content
       /\ cell = mkCell (configBits c) [wallet_code c; content].
Proof.
  intros Hcell. pose proof Hcell as Hstore.
  unfold jettonMinterConfigFullToCell in Hstore.
  apply bind_ok in Hstore. destruct Hstore as (content & Hc & Hstore).
  apply bind_ok in Hstore. destruct Hstore as (b1 & H1 & Hstore).
  apply bind_ok in Hstore. destruct Hstore as (b2 & H2 & Hstore).
  apply bind_ok in Hstore. destruct Hstore as (b3 & H3 & Hstore).
  apply bind_ok in Hstore. destruct Hstore as (b4 & H4 & _).
  apply storeCoins_inv in H1. apply storeAddress_inv in H2, H3.
  apply storeUint_inv in H4. destruct H4 as [H4 _].
  assert (Hvalid : valid_JettonMinterConfigFull c)
    by (unfold valid_JettonMinterConfigFull; auto).
  split; [exact Hvalid|]. exists content. split; [exact Hc|].
  rewrite (jettonMinterConfigFullToCell_bits storeStringRefTail c content
             Hvalid Hc) in Hcell.
  congruence.
Qed.

(** X27: a configuration read from a data cell can be written and read
    again without change: whatever [jettonMinterConfigCellToConfig]
    returns, [jettonMinterConfigFullToCell] stores it and the parser
    returns the same configuration from the new cell. *)
Theorem jettonMinterConfig_reparse (cell : Cell)
    (c : JettonMinterConfigFull) :
  jettonMinterConfigCellToConfig cell = Ok c ->
  exists cell',
    jettonMinterConfigFullToCell storeStringRefTail c = Ok cell'
    /\ cell_refs cell' = cell_refs cell
    /\ jettonMinterConfigCellToConfig cell' = Ok c.
Proof.
  intros Hparse.
  destruct (jettonMinterConfigCellToConfig_valid cell c Hparse)
    as (Hvalid & content & Hcontent & Hrefs).
  assert (Hcell : contentCell storeStringRefTail (jetton_content c)
                  = Ok content) by (rewrite Hcontent; reflexivity).
  exists (mkCell (configBits c) [wallet_code c; content]).
  split; [now apply jettonMinterConfigFullToCell_bits|].
  split; [now rewrite Hrefs|].
  rewrite <- (app_nil_r (configBits c)).
  rewrite jettonMinterConfigCellToConfig_bits by exact Hvalid.
  cbn [endParse bind]. unfold withContent. destruct c as [s a t w j m].
  cbn [jetton_content] in Hcontent. subst j. reflexivity.
Qed.

End JettonMinterStable.

Lemma jettonMinterConfigFullToCell_ok_inv_witness :
  valid_JettonMinterConfigFull sampleFull.
Proof.
  apply (jettonMinterConfigFullToCell_ok_inv sampleSnake sampleFull
           (mkCell (configBits sampleFull)
              [wallet_code sampleFull; mkCell [false; true] []])).
  vm_compute. reflexivity.
Defined.

Lemma jettonMinterConfig_reparse_witness :
  exists cell',
    jettonMinterConfigFullToCell sampleSnake (withContent sampleFull
                                                (mkCell [false; true] []))
    = Ok cell'.
Proof.
  destruct (jettonMinterConfig_reparse sampleSnake
              (mkCell (configBits sampleFull)
                 [wallet_code sampleFull; mkCell [false; true] []])
              (withContent sampleFull (mkCell [false; true] [])))
    as (cell' & Hcell & _).
  - vm_compute. reflexivity.
  - exists cell'. exact Hcell.
Defined.

(** X28: [parseInternalTransfer] never looks at the opcode or the query
    id: two bodies that differ in their first 96 bits only give the same
    result, a thrown error included. *)
Theorem parseInternalTransfer_ignores_header (h1 h2 rest : list bool)
    (refs : list Cell) :
  length h1 = 96%nat ->
  length h2 = 96%nat ->
  parseInternalTransfer (mkCell (h1 ++ rest) refs)
  = parseInternalTransfer (mkCell (h2 ++ rest) refs).
Proof.
  intros H1 H2. unfold parseInternalTransfer, beginParse.
  cbn [cell_bits cell_refs]. change (64 + 32)%nat with 96%nat.
  now rewrite !skip_bits by assumption.
Qed.

Lemma parseInternalTransfer_ignores_header_witness :
  parseInternalTransfer
    (mkCell (bits_of_uint 96 0 ++ coinsBits 5 ++ [false]) [])
  = parseInternalTransfer
      (mkCell (bits_of_uint 96 77 ++ coinsBits 5 ++ [false]) []).
Proof.
  apply parseInternalTransfer_ignores_header; reflexivity.
Defined.
